(** * Mello phone agent: the per-call audio bridge to Hume EVI

    A shallow embedding of [phone-agent/bot.py], [phone-agent/bot_hume_evi.py]
    and the start-up validation of [phone-agent/server.py].

    The bridge object ([HumeEVIHandler] in bot.py, [HumeEVIBot] in
    bot_hume_evi.py) is a Python object mutated in place by coroutines.  It is
    modelled by explicit state passing: a [world] holds the fields of the
    object together with the observable traces of its collaborators (calls
    made on the EVI socket, frames handed to the WebRTC transport, log
    records).  Coroutines are functions in a state-and-exception monad; the
    answer of an external call that may fail is an explicit argument. *)

From Stdlib Require Import String Ascii List ZArith NArith QArith Bool Lia.
From Stdlib Require Import Qround Sorted Permutation.
From stdpp Require Import base option list sorting strings gmap.

Import ListNotations.
Local Open Scope string_scope.
Local Open Scope list_scope.

(** ** Values *)

(** Python [bytes]. *)
Definition bytes := list Byte.byte.

(** Handle of one EVI chat socket, numbered in the order of creation. *)
Definition session := nat.

(** Exceptions.  [CancelledError] derives from [BaseException] and is not
    caught by [except Exception]; every other constructor is an ordinary
    [Exception].  The [detail] of a [ValueError] is what its message is made
    of: the names of the missing variables in server.py, the text itself in
    bot_hume_evi.py. *)
Inductive exn :=
| CancelledError
| ValueError (detail : list string)
| TypeError
| BinasciiError
| RemoteException (name : string).

Definition is_Exception (e : exn) : bool :=
  match e with
  | CancelledError => false
  | _ => true
  end.

(** Result of running a coroutine or a module body. *)
Inductive outcome (A : Type) :=
| Return (a : A)
| Raise (e : exn).
Arguments Return {A} a.
Arguments Raise {A} e.

Definition raised {A} (r : outcome A) : bool :=
  match r with
  | Return _ => false
  | Raise _ => true
  end.

(** ** The inbound event ([SubscribeEvent]) *)

(** One constructor per value of [message.type] tested by [_handle_message],
    carrying the fields the handler reads.  An absent attribute or a [None]
    is [None]; [scores] is [dict(message.models.prosody.scores).items()] in
    iteration order, scores being the exact values of the floats. *)
Inductive message :=
| chat_metadata (chat_id : string)
| user_message (content : option string) (scores : option (list (string * Q)))
| assistant_message (content : option string)
| audio_output (data : option string)
| user_interruption
| error (code : option string) (msg : option string)
| other_type (type : string).

(** ** Log records *)

Inductive level := INFO | DEBUG | WARNING | ERROR.

Inductive log_text :=
| Connecting
| Connected
| Disconnected
| ChatStarted (chat_id : string)
| UserSaid (content : string)
| Emotions (top : list (string * Q))
| MelloSaid (content : string)
| UserInterrupted
| EVIError (code : option string) (msg : option string)
| UnknownMessage (type : string)
| MessageError (e : exn)
| ProcessorStarting
| ProcessorStopped
| ForwardingStarted
| ForwardingError (e : exn)
| BotStarting
| ConfigRequired.

Definition log_record : Type := level * log_text.

(** ** The bridge object and its collaborators *)

(** Fields of [HumeEVIHandler] / [HumeEVIBot] that the methods read or write. *)
Record bridge := Bridge {
  socket : option session;
  _running : bool;
  _output_queue : list bytes;
}.

(** [self] is the bridge; the other fields are what the collaborators have
    seen: how many chat sockets [chat.connect] has opened, every
    [send_publish] call (socket, base64 text), every [__aexit__] call, every
    [transport.send_audio] call, and the log. *)
Record world := World {
  self : bridge;
  opened : nat;
  published : list (session * string);
  closed : list session;
  sent : list bytes;
  log : list log_record;
}.

(** [HumeEVIHandler.__init__] / [HumeEVIBot.__init__]. *)
Definition __init__ : bridge :=
  {| socket := None; _running := false; _output_queue := [] |}.

Definition fresh_world : world :=
  {| self := __init__; opened := 0; published := []; closed := [];
     sent := []; log := [] |}.

Definition with_self (f : bridge -> bridge) (w : world) : world :=
  {| self := f (self w); opened := opened w; published := published w;
     closed := closed w; sent := sent w; log := log w |}.

Definition set_socket (s : option session) (b : bridge) : bridge :=
  {| socket := s; _running := _running b; _output_queue := _output_queue b |}.

Definition set_running (r : bool) (b : bridge) : bridge :=
  {| socket := socket b; _running := r; _output_queue := _output_queue b |}.

Definition set_output_queue (q : list bytes) (b : bridge) : bridge :=
  {| socket := socket b; _running := _running b; _output_queue := q |}.

(** ** Coroutines: state and exceptions *)

(** A raised exception keeps the state reached so far, as in Python. *)
Definition M (A : Type) : Type := world -> outcome A * world.

Definition ret {A} (a : A) : M A := fun w => (Return a, w).

Definition raise {A} (e : exn) : M A := fun w => (Raise e, w).

Definition bind {A B} (m : M A) (k : A -> M B) : M B :=
  fun w =>
    match m w with
    | (Return a, w') => k a w'
    | (Raise e, w') => (Raise e, w')
    end.

(** [try: m except <handled by h>: ...]; the handler re-raises what the
    [except] clauses do not match. *)
Definition try_except {A} (m : M A) (h : exn -> M A) : M A :=
  fun w =>
    match m w with
    | (Return a, w') => (Return a, w')
    | (Raise e, w') => h e w'
    end.

(** [try: m finally: f]. *)
Definition try_finally {A} (m : M A) (f : M unit) : M A :=
  fun w =>
    match m w with
    | (r, w') =>
        match f w' with
        | (Return _, w'') => (r, w'')
        | (Raise e, w'') => (Raise e, w'')
        end
    end.

Declare Scope py_scope.
Delimit Scope py_scope with py.
Notation "x <- m ;; k" := (bind m (fun x => k))
  (at level 20, m at level 99, k at level 200, only parsing) : py_scope.
Notation "m ;; k" := (bind m (fun _ => k))
  (at level 100, k at level 200, only parsing, right associativity) : py_scope.
Local Open Scope py_scope.

Definition get_self : M bridge := fun w => (Return (self w), w).

Definition modify_self (f : bridge -> bridge) : M unit :=
  fun w => (Return tt, with_self f w).

Definition logger (l : level) (t : log_text) : M unit :=
  fun w =>
    (Return tt,
     {| self := self w; opened := opened w; published := published w;
        closed := closed w; sent := sent w; log := log w ++ [(l, t)] |}).

(** *** External calls

    Each records the call in the trace of the collaborator; [answer] is what
    the collaborator does: [None] when it returns, [Some e] when it raises
    [e]. *)

(** [await self.client.empathic_voice.chat.connect(...).__aenter__()]: on
    success a new chat socket exists. *)
Definition chat_connect (answer : option exn) : M session :=
  fun w =>
    match answer with
    | Some e => (Raise e, w)
    | None =>
        (Return (opened w),
         {| self := self w; opened := S (opened w); published := published w;
            closed := closed w; sent := sent w; log := log w |})
    end.

(** [await self.socket.send_publish(AudioInput(data=audio_b64))]. *)
Definition send_publish (h : session) (audio_b64 : string)
    (answer : option exn) : M unit :=
  fun w =>
    let w' :=
      {| self := self w; opened := opened w;
         published := published w ++ [(h, audio_b64)];
         closed := closed w; sent := sent w; log := log w |} in
    match answer with
    | Some e => (Raise e, w')
    | None => (Return tt, w')
    end.

(** [await self.socket.__aexit__(None, None, None)]. *)
Definition socket___aexit__ (h : session) (answer : option exn) : M unit :=
  fun w =>
    let w' :=
      {| self := self w; opened := opened w; published := published w;
         closed := closed w ++ [h]; sent := sent w; log := log w |} in
    match answer with
    | Some e => (Raise e, w')
    | None => (Return tt, w')
    end.

(** [await transport.send_audio(audio)]. *)
Definition transport_send_audio (audio : bytes) (answer : option exn) : M unit :=
  fun w =>
    let w' :=
      {| self := self w; opened := opened w; published := published w;
         closed := closed w; sent := sent w ++ [audio]; log := log w |} in
    match answer with
    | Some e => (Raise e, w')
    | None => (Return tt, w')
    end.

(** ** Python built-ins used by the bridge *)

(** [x < y] on scores. *)
Definition Qltb (x y : Q) : bool := negb (Qle_bool y x).

Section Sorted.
Context {A : Type} (key : A -> Q).

(** Insertion in front of the first element whose key is not smaller:
    [x] stays before the elements equal to it that were behind it. *)
Fixpoint insort (x : A) (l : list A) : list A :=
  match l with
  | [] => [x]
  | y :: l' => if Qltb (key y) (key x) then y :: insort x l' else x :: y :: l'
  end.

(** A stable ascending sort that compares keys with [<] only, as
    [list.sort] does. *)
Definition stable_sort (l : list A) : list A := foldr insort [] l.

(** [sorted(l, key=key, reverse=reverse)].  With [reverse=True] the list is
    reversed, sorted ascending by the stable sort, and reversed again,
    which is how [list.sort] keeps equal elements in their original
    order. *)
Definition sorted (reverse : bool) (l : list A) : list A :=
  if reverse then rev (stable_sort (rev l)) else stable_sort l.
Definition ascending (a b : A) : Prop := (key a <= key b)%Q.
Definition descending (a b : A) : Prop := (key b <= key a)%Q.

(** The elements whose key equals [v], in the order of the list. *)
Definition with_key (v : Q) (l : list A) : list A :=
  List.filter (fun a => Qeq_bool (key a) v) l.

End Sorted.

(** Library functions whose code is not part of the repository: the base64
    codec as the bridge calls it, and [round(score, 2)].
    - [b64encode data] is [base64.b64encode(data).decode("utf-8")];
    - [b64decode s] is [base64.b64decode(s.encode("utf-8"))], [None] when it
      raises [binascii.Error]. *)
Class Runtime := {
  b64encode : bytes -> string;
  b64decode : string -> option bytes;
  round2 : Q -> Q;
}.

(** A concrete codec after RFC 4648 and the non-validating decoder of
    [binascii.a2b_base64], to run the bridge on concrete inputs. *)
Module Base64.

Definition alphabet : string :=
  "ABCDEFGHIJKLMNOPQRSTUVWXYZabcdefghijklmnopqrstuvwxyz0123456789+/".

Definition b64char (n : N) : ascii :=
  match String.get (N.to_nat n) alphabet with
  | Some c => c
  | None => "="%char
  end.

Fixpoint encode (data : bytes) : string :=
  match data with
  | [] => EmptyString
  | [a] =>
      let x := Byte.to_N a in
      String (b64char (N.shiftr x 2))
        (String (b64char (N.shiftl (N.land x 3) 4)) "==")
  | [a; b] =>
      let x := Byte.to_N a in
      let y := Byte.to_N b in
      String (b64char (N.shiftr x 2))
        (String (b64char (N.lor (N.shiftl (N.land x 3) 4) (N.shiftr y 4)))
           (String (b64char (N.shiftl (N.land y 15) 2)) "="))
  | a :: b :: c :: rest =>
      let x := Byte.to_N a in
      let y := Byte.to_N b in
      let z := Byte.to_N c in
      String (b64char (N.shiftr x 2))
        (String (b64char (N.lor (N.shiftl (N.land x 3) 4) (N.shiftr y 4)))
           (String (b64char (N.lor (N.shiftl (N.land y 15) 2) (N.shiftr z 6)))
              (String (b64char (N.land z 63)) (encode rest))))
  end.

(** Value of a character of the alphabet, [None] for any other. *)
Definition table_a2b (c : ascii) : option N :=
  let n := N_of_ascii c in
  if (65 <=? n)%N && (n <=? 90)%N then Some (n - 65)%N
  else if (97 <=? n)%N && (n <=? 122)%N then Some (n - 71)%N
  else if (48 <=? n)%N && (n <=? 57)%N then Some (n + 4)%N
  else if (n =? 43)%N then Some 62%N
  else if (n =? 47)%N then Some 63%N
  else None.

Definition to_byte (n : N) : Byte.byte :=
  match Byte.of_N (n mod 256) with
  | Some b => b
  | None => Byte.x00
  end.

(** The decoding loop: characters outside the alphabet are skipped, a
    complete pad sequence ends the input, a dangling group is an error. *)
Fixpoint a2b (s : string) (quad_pos : nat) (leftchar : N) (pads : nat)
    (out : bytes) : option bytes :=
  match s with
  | EmptyString => if Nat.eqb quad_pos 0 then Some out else None
  | String c rest =>
      if Ascii.eqb c "="%char then
        if Nat.leb 2 quad_pos then
          if Nat.leb 4 (quad_pos + S pads) then Some out
          else a2b rest quad_pos leftchar (S pads) out
        else a2b rest quad_pos leftchar pads out
      else
        match table_a2b c with
        | None => a2b rest quad_pos leftchar pads out
        | Some this_ch =>
            match quad_pos with
            | 0 => a2b rest 1 this_ch 0 out
            | 1 =>
                a2b rest 2 (N.land this_ch 15) 0
                  (out ++ [to_byte (N.lor (N.shiftl leftchar 2) (N.shiftr this_ch 4))])
            | 2 =>
                a2b rest 3 (N.land this_ch 3) 0
                  (out ++ [to_byte (N.lor (N.shiftl leftchar 4) (N.shiftr this_ch 2))])
            | _ =>
                a2b rest 0 0%N 0
                  (out ++ [to_byte (N.lor (N.shiftl leftchar 6) this_ch)])
            end
        end
  end.

Definition decode (s : string) : option bytes := a2b s 0 0%N 0 [].

(** [round(q, 2)] on the exact value: the nearest multiple of 1/100, a tie
    going to the even one. *)
Definition round_half_even (q : Q) : Z :=
  let f := Qfloor q in
  let r := (q - inject_Z f)%Q in
  match (r ?= 1 # 2)%Q with
  | Lt => f
  | Gt => (f + 1)%Z
  | Eq => if Z.even f then f else (f + 1)%Z
  end.

Definition round_2 (q : Q) : Q := Qred (round_half_even (q * 100) # 100).

End Base64.

#[export] Instance python_runtime : Runtime :=
  {| b64encode := Base64.encode;
     b64decode := Base64.decode;
     round2 := Base64.round_2 |}.

Definition ascii_bytes (s : string) : bytes := list_byte_of_string s.

(** How the socket's asynchronous iterator stops after the events it
    yields: it is exhausted (the session is over), or the [await] raises
    ([CancelledError] when the task is cancelled, a transport error). *)
Inductive stream_end :=
| exhausted
| interrupted (e : exn).

(** Program points of an outbound pump: not started, about to test the
    loop condition, suspended in [await ...get_output_audio()], returned. *)
Inductive pump_pc :=
| PumpStart
| PumpTop
| PumpAwaitGet
| PumpDone.

(** Truth value of a [bytes] or of an optional [bytes]. *)
Definition truthy (audio : option bytes) : bool :=
  match audio with
  | Some (_ :: _) => true
  | _ => false
  end.

(** * bot.py *)
Module bot.

Module HumeEVIHandler.
Section Methods.
Context {rt : Runtime}.

Definition connect (handshake : option exn) : M unit :=
  logger INFO Connecting;;
  h <- chat_connect handshake;;
  modify_self (set_socket (Some h));;
  modify_self (set_running true);;
  logger INFO Connected.

Definition disconnect (aexit : option exn) : M unit :=
  modify_self (set_running false);;
  b <- get_self;;
  match socket b with
  | Some h =>
      try_except (socket___aexit__ h aexit)
        (fun e => if is_Exception e then ret tt else raise e)
  | None => ret tt
  end;;
  logger INFO Disconnected.

Definition send_audio (audio_data : bytes) (answer : option exn) : M unit :=
  b <- get_self;;
  match socket b, _running b with
  | Some h, true => send_publish h (b64encode audio_data) answer
  | _, _ => ret tt
  end.

(** The head of the queue when there is one; with an empty queue the
    wait times out and [None] is returned (a chunk that arrives during the
    wait is a step of the producer before this one). *)
Definition get_output_audio : M (option bytes) :=
  b <- get_self;;
  match _output_queue b with
  | [] => ret None
  | audio :: q => modify_self (set_output_queue q);; ret (Some audio)
  end.

Definition _handle_message (m : message) : M unit :=
  match m with
  | chat_metadata chat_id => logger INFO (ChatStarted chat_id)
  | user_message content scores =>
      logger INFO (UserSaid (default "" content));;
      match scores with
      | Some ((_ :: _) as scores) =>
          let top := take 3 (sorted snd true scores) in
          logger DEBUG (Emotions top)
      | _ => ret tt
      end
  | assistant_message content => logger INFO (MelloSaid (default "" content))
  | audio_output data =>
      match data with
      | Some ((String _ _) as data) =>
          match b64decode data with
          | Some audio_bytes =>
              modify_self
                (fun b => set_output_queue (_output_queue b ++ [audio_bytes]) b)
          | None => raise BinasciiError
          end
      | _ => ret tt
      end
  | user_interruption => logger DEBUG UserInterrupted
  | error _ msg => logger ERROR (EVIError None msg)
  | other_type _ => ret tt
  end.

(** [async for message in self.socket: ...] over the events the socket
    yields. *)
Fixpoint async_for (stream : list message) (fin : stream_end) : M unit :=
  match stream with
  | [] =>
      match fin with
      | exhausted => ret tt
      | interrupted e => raise e
      end
  | message :: rest =>
      _handle_message message;;
      b <- get_self;;
      if negb (_running b) then ret tt else async_for rest fin
  end.

(** Iterating [None] (no socket yet) is a [TypeError]. *)
Definition process_messages (stream : list message) (fin : stream_end)
    : M unit :=
  try_except
    (b <- get_self;;
     match socket b with
     | None => raise TypeError
     | Some _ => async_for stream fin
     end)
    (fun e =>
       match e with
       | CancelledError => ret tt
       | _ => logger ERROR (MessageError e)
       end).

End Methods.
End HumeEVIHandler.

Section Functions.
Context {rt : Runtime}.

(** [_forward_whatsapp_to_hume]: one frame of [transport.input()], its
    [audio] attribute ([None] when absent) and the answer of the socket
    should it be sent. *)
Fixpoint forward_frames (frames : list (option bytes * option exn)) : M unit :=
  match frames with
  | [] => ret tt
  | (audio, answer) :: rest =>
      (if truthy audio
       then HumeEVIHandler.send_audio (default [] audio) answer
       else ret tt);;
      forward_frames rest
  end.

Definition _forward_whatsapp_to_hume
    (frames : list (option bytes * option exn)) (fin : stream_end) : M unit :=
  logger DEBUG ForwardingStarted;;
  try_except
    (forward_frames frames;;
     match fin with
     | exhausted => ret tt
     | interrupted e => raise e
     end)
    (fun e =>
       match e with
       | CancelledError => ret tt
       | _ => logger ERROR (ForwardingError e)
       end).

(** [_forward_hume_to_whatsapp], one resumption at a time.  From
    [PumpTop] the loop condition [hume._running] is read and the pump
    suspends in [get_output_audio]; from [PumpAwaitGet] the wait is over,
    with a chunk or with a timeout, and a non-empty chunk goes to
    [transport.send_audio], whose [answer] is given; an exception ends
    the pump, logged unless it is a cancellation. *)
Definition pump_step (answer : option exn) (pc : pump_pc) : M pump_pc :=
  match pc with
  | PumpStart => logger DEBUG ForwardingStarted;; ret PumpTop
  | PumpTop =>
      b <- get_self;;
      if _running b then ret PumpAwaitGet else ret PumpDone
  | PumpAwaitGet =>
      try_except
        (audio <- HumeEVIHandler.get_output_audio;;
         (if truthy audio
          then transport_send_audio (default [] audio) answer
          else ret tt);;
         ret PumpTop)
        (fun e =>
           match e with
           | CancelledError => ret PumpDone
           | _ => logger ERROR (ForwardingError e);; ret PumpDone
           end)
  | PumpDone => ret PumpDone
  end.

(** The pump run alone for at most [fuel] resumptions. *)
Fixpoint _forward_hume_to_whatsapp (fuel : nat) (pc : pump_pc) : M pump_pc :=
  match fuel with
  | 0 => ret pc
  | S fuel' =>
      match pc with
      | PumpDone => ret PumpDone
      | _ => pc' <- pump_step None pc;; _forward_hume_to_whatsapp fuel' pc'
      end
  end.

(** [not v] for the result [v] of [os.getenv]: [None] and the empty string
    are false. *)
Definition falsy (v : option string) : bool :=
  match v with
  | Some (String _ _) => false
  | _ => true
  end.

(** [run_bot] up to its configuration guard; [call] is the rest of the
    function (bridge, transport, tasks and the final [disconnect]). *)
Definition run_bot (environ : gmap string string)
    (call : string -> string -> M unit) : M unit :=
  logger INFO BotStarting;;
  let hume_api_key := environ !! "HUME_API_KEY" in
  let hume_config_id := environ !! "HUME_CONFIG_ID" in
  if falsy hume_api_key || falsy hume_config_id then
    logger ERROR ConfigRequired
  else
    call (default "" hume_api_key) (default "" hume_config_id).

End Functions.

End bot.

(** * bot_hume_evi.py *)
Module bot_hume_evi.

Section Functions.
Context {rt : Runtime}.

(** [emotion_scores] is the dictionary as its items in iteration order
    (keys distinct); so is the result. *)
Definition extract_top_emotions (emotion_scores : list (string * Q)) (n : nat)
    : list (string * Q) :=
  match emotion_scores with
  | [] => []
  | _ =>
      let sorted_emotions := sorted snd true emotion_scores in
      map (fun '(emotion, score) => (emotion, round2 score))
        (take n sorted_emotions)
  end.

(** [run_bot] up to its configuration guard; [call] is the rest. *)
Definition run_bot (environ : gmap string string)
    (call : string -> string -> M unit) : M unit :=
  logger INFO BotStarting;;
  let hume_api_key := environ !! "HUME_API_KEY" in
  let hume_config_id := environ !! "HUME_CONFIG_ID" in
  if bot.falsy hume_api_key || bot.falsy hume_config_id then
    raise (ValueError ["HUME_API_KEY and HUME_CONFIG_ID required"])
  else
    call (default "" hume_api_key) (default "" hume_config_id).
End Functions.

Module HumeEVIBot.
Section Methods.
Context {rt : Runtime}.

Definition connect (handshake : option exn) : M unit :=
  logger INFO Connecting;;
  h <- chat_connect handshake;;
  modify_self (set_socket (Some h));;
  modify_self (set_running true);;
  logger INFO Connected.

Definition disconnect (aexit : option exn) : M unit :=
  modify_self (set_running false);;
  b <- get_self;;
  match socket b with
  | Some h => socket___aexit__ h aexit
  | None => ret tt
  end;;
  logger INFO Disconnected.

Definition send_audio (audio_data : bytes) (answer : option exn) : M unit :=
  b <- get_self;;
  match socket b, _running b with
  | Some h, true => send_publish h (b64encode audio_data) answer
  | _, _ => ret tt
  end.

Definition get_audio_output : M (option bytes) :=
  b <- get_self;;
  match _output_queue b with
  | [] => ret None
  | audio :: q => modify_self (set_output_queue q);; ret (Some audio)
  end.

Definition _handle_message (m : message) : M unit :=
  match m with
  | chat_metadata chat_id => logger INFO (ChatStarted chat_id)
  | user_message content scores =>
      logger INFO (UserSaid (default "" content));;
      match scores with
      | Some ((_ :: _) as scores) =>
          let emotions := extract_top_emotions scores 3 in
          logger DEBUG (Emotions emotions)
      | _ => ret tt
      end
  | assistant_message content => logger INFO (MelloSaid (default "" content))
  | audio_output data =>
      match data with
      | Some ((String _ _) as data) =>
          match b64decode data with
          | Some audio_bytes =>
              modify_self
                (fun b => set_output_queue (_output_queue b ++ [audio_bytes]) b)
          | None => raise BinasciiError
          end
      | _ => ret tt
      end
  | user_interruption => logger DEBUG UserInterrupted
  | error code msg => logger ERROR (EVIError code msg)
  | other_type type => logger DEBUG (UnknownMessage type)
  end.

Fixpoint async_for (stream : list message) (fin : stream_end) : M unit :=
  match stream with
  | [] =>
      match fin with
      | exhausted => ret tt
      | interrupted e => raise e
      end
  | message :: rest =>
      _handle_message message;;
      b <- get_self;;
      if negb (_running b) then ret tt else async_for rest fin
  end.

Definition process_messages (stream : list message) (fin : stream_end)
    : M unit :=
  logger INFO ProcessorStarting;;
  try_finally
    (try_except
       (b <- get_self;;
        match socket b with
        | None => raise TypeError
        | Some _ => async_for stream fin
        end)
       (fun e =>
          if is_Exception e then logger ERROR (MessageError e) else raise e))
    (logger INFO ProcessorStopped).

End Methods.
End HumeEVIBot.

End bot_hume_evi.

(** * server.py: the module body up to the validation of the environment *)
Module server.

(** [required_vars], in insertion order: name and [os.getenv(name)]. *)
Definition required_vars (environ : gmap string string)
    : list (string * option string) :=
  [ ("WHATSAPP_TOKEN", environ !! "WHATSAPP_TOKEN");
    ("WHATSAPP_WEBHOOK_VERIFICATION_TOKEN",
     environ !! "WHATSAPP_WEBHOOK_VERIFICATION_TOKEN");
    ("WHATSAPP_PHONE_NUMBER_ID", environ !! "WHATSAPP_PHONE_NUMBER_ID") ].

Definition missing_vars (environ : gmap string string) : list string :=
  map fst (filter (fun nv => bot.falsy (snd nv) = true) (required_vars environ)).

(** Importing the module: it raises when a required variable is missing;
    only when it returns is the [__main__] block reached and the server
    started. *)
Definition module_body (environ : gmap string string) : outcome unit :=
  match missing_vars environ with
  | [] => Return tt
  | missing => Raise (ValueError missing)
  end.

(** ** The rest of the module: the registry of calls and the endpoints *)

(** A task made by [asyncio.create_task], numbered in the order of
    creation. *)
Definition task := nat.

(** [active_calls], a dictionary from call identifier to task, as its items
    in iteration order: a key is set in place when present, appended
    otherwise. *)
Definition registry := list (string * task).

Fixpoint setitem (d : registry) (k : string) (v : task) : registry :=
  match d with
  | [] => [(k, v)]
  | (k', v') :: d' =>
      if String.eqb k' k then (k', v) :: d' else (k', v') :: setitem d' k v
  end.

(** [d.get(k)]. *)
Fixpoint get (d : registry) (k : string) : option task :=
  match d with
  | [] => None
  | (k', v') :: d' => if String.eqb k' k then Some v' else get d' k
  end.

(** [d.pop(k, None)], for the dictionary left. *)
Fixpoint pop (d : registry) (k : string) : registry :=
  match d with
  | [] => []
  | (k', v') :: d' => if String.eqb k' k then d' else (k', v') :: pop d' k
  end.

Inductive server_text :=
| Starting
| ClientInitialized
| CleaningUp
| CancellingCall (call_id : string)
| ShutdownComplete
| VerificationRequest
| WebhookVerified
| VerificationFailed (e : exn)
| InvalidObjectType (object : string)
| WebhookReceived
| CallConnected (call_id : string)
| CallEnded (call_id : string)
| StartFailed (call_id : string) (e : exn)
| DisconnectFailed (e : exn)
| WebhookProcessed
| InvalidWebhookFormat (e : exn)
| WebhookProcessingError (e : exn).

(** The globals of the module and what its collaborators have seen: the
    registry, whether [whatsapp_client] is set, the tasks created and the
    [task.cancel()] calls, the [connection.disconnect()] calls by call
    identifier, the number of [terminate_all_calls()] calls, and the log. *)
Record state := State {
  active_calls : registry;
  whatsapp_client : bool;
  created : nat;
  cancelled : list task;
  disconnected : list string;
  terminated : nat;
  records : list (level * server_text);
}.

(** The module once imported. *)
Definition imported : state :=
  {| active_calls := []; whatsapp_client := false; created := 0;
     cancelled := []; disconnected := []; terminated := 0; records := [] |}.

Definition info (l : level) (t : server_text) (st : state) : state :=
  {| active_calls := active_calls st; whatsapp_client := whatsapp_client st;
     created := created st; cancelled := cancelled st;
     disconnected := disconnected st; terminated := terminated st;
     records := records st ++ [(l, t)] |}.

Definition set_active_calls (d : registry) (st : state) : state :=
  {| active_calls := d; whatsapp_client := whatsapp_client st;
     created := created st; cancelled := cancelled st;
     disconnected := disconnected st; terminated := terminated st;
     records := records st |}.

(** What an endpoint gives back: a body, an [HTTPException], or an
    exception it lets through. *)
Inductive detail :=
| Text (s : string)
| StrOf (e : exn).

Inductive reply (A : Type) :=
| Body (a : A)
| HTTPException (status_code : nat) (d : detail)
| Propagated (e : exn).
Arguments Body {A} a.
Arguments HTTPException {A} status_code d.
Arguments Propagated {A} e.

(** [lifespan] up to its [yield]. *)
Definition lifespan_startup (st : state) : state :=
  let st := info INFO Starting st in
  let st :=
    {| active_calls := active_calls st; whatsapp_client := true;
       created := created st; cancelled := cancelled st;
       disconnected := disconnected st; terminated := terminated st;
       records := records st |} in
  info INFO ClientInitialized st.

(** [for call_id, task in active_calls.items(): ...; task.cancel()]. *)
Fixpoint cancel_all (items : registry) (st : state) : state :=
  match items with
  | [] => st
  | (call_id, t) :: rest =>
      let st := info INFO (CancellingCall call_id) st in
      cancel_all rest
        {| active_calls := active_calls st; whatsapp_client := whatsapp_client st;
           created := created st; cancelled := cancelled st ++ [t];
           disconnected := disconnected st; terminated := terminated st;
           records := records st |}
  end.

(** [lifespan] after its [yield]; [terminate] is the answer of
    [terminate_all_calls()]. *)
Definition lifespan_cleanup (terminate : option exn) (st : state)
    : outcome unit * state :=
  let st := info INFO CleaningUp st in
  let st := cancel_all (active_calls st) st in
  if whatsapp_client st then
    let st :=
      {| active_calls := active_calls st; whatsapp_client := whatsapp_client st;
         created := created st; cancelled := cancelled st;
         disconnected := disconnected st; terminated := S (terminated st);
         records := records st |} in
    match terminate with
    | Some e => (Raise e, st)
    | None => (Return tt, info INFO ShutdownComplete st)
    end
  else (Return tt, info INFO ShutdownComplete st).

(** [health_check]: status, service and the number of active calls. *)
Definition health_check (st : state) : string * string * nat :=
  ("healthy", "mello-phone-agent", length (active_calls st)).

(** [verify_webhook]; [answer] is what [handle_verify_webhook_request]
    does.  Without a client the attribute lookup on [None] fails. *)
Definition verify_webhook (answer : outcome string) (st : state)
    : reply string * state :=
  let st := info DEBUG VerificationRequest st in
  if whatsapp_client st then
    match answer with
    | Return result => (Body result, info INFO WebhookVerified st)
    | Raise (ValueError d) =>
        (HTTPException 403 (Text "Verification failed"),
         info WARNING (VerificationFailed (ValueError d)) st)
    | Raise e => (Propagated e, st)
    end
  else (Propagated (RemoteException "AttributeError"), st).

(** [cleanup_call], the callback run when the task of [call_id] is done. *)
Definition cleanup_call (call_id : string) (st : state) : state :=
  info INFO (CallEnded call_id)
    (set_active_calls (pop (active_calls st) call_id) st).

(** [connection_callback] for a connection whose [pc_id] is [call_id];
    [create], [add_done] and [disconnect] are the answers of
    [asyncio.create_task], [task.add_done_callback] and
    [connection.disconnect]. *)
Definition connection_callback (call_id : string)
    (create add_done disconnect : option exn) (st : state)
    : outcome unit * state :=
  let st := info INFO (CallConnected call_id) st in
  let failed (e : exn) (st : state) : outcome unit * state :=
    if is_Exception e then
      let st := info ERROR (StartFailed call_id e) st in
      let st :=
        {| active_calls := active_calls st; whatsapp_client := whatsapp_client st;
           created := created st; cancelled := cancelled st;
           disconnected := disconnected st ++ [call_id];
           terminated := terminated st; records := records st |} in
      match disconnect with
      | None => (Return tt, st)
      | Some e' =>
          if is_Exception e' then (Return tt, info ERROR (DisconnectFailed e') st)
          else (Raise e', st)
      end
    else (Raise e, st) in
  match create with
  | Some e => failed e st
  | None =>
      let t := created st in
      let st :=
        {| active_calls := setitem (active_calls st) call_id t;
           whatsapp_client := whatsapp_client st;
           created := S (created st); cancelled := cancelled st;
           disconnected := disconnected st; terminated := terminated st;
           records := records st |} in
      match add_done with
      | Some e => failed e st
      | None => (Return tt, st)
      end
  end.

(** One call of the connection callback by the client. *)
Definition callback_call : Type :=
  string * option exn * option exn * option exn.

(** The callbacks the client makes while handling a request; it lets
    through what a callback raises. *)
Fixpoint run_callbacks (calls : list callback_call) (st : state)
    : outcome unit * state :=
  match calls with
  | [] => (Return tt, st)
  | (call_id, create, add_done, disconnect) :: rest =>
      match connection_callback call_id create add_done disconnect st with
      | (Return _, st') => run_callbacks rest st'
      | (Raise e, st') => (Raise e, st')
      end
  end.

(** [handle_webhook]; [object] is [body.object], [calls] are the callbacks
    that [handle_webhook_request] makes and [answer] is how it ends. *)
Definition handle_webhook (object : string) (calls : list callback_call)
    (answer : option exn) (st : state) : reply string * state :=
  if negb (String.eqb object "whatsapp_business_account") then
    (HTTPException 400 (Text "Invalid object type"),
     info WARNING (InvalidObjectType object) st)
  else
    let st := info INFO WebhookReceived st in
    let failed (e : exn) (st : state) : reply string * state :=
      match e with
      | ValueError d =>
          (HTTPException 400 (StrOf e), info WARNING (InvalidWebhookFormat e) st)
      | CancelledError => (Propagated e, st)
      | _ =>
          (HTTPException 500 (Text "Internal server error"),
           info ERROR (WebhookProcessingError e) st)
      end in
    if whatsapp_client st then
      match run_callbacks calls st with
      | (Raise e, st') => failed e st'
      | (Return _, st') =>
          match answer with
          | Some e => failed e st'
          | None => (Body "success", info DEBUG WebhookProcessed st')
          end
      end
    else failed (RemoteException "AttributeError") st.

(** What happens to the server once imported: it starts, requests
    arrive, tasks of calls complete, it shuts down. *)
Inductive event :=
| startup
| webhook (object : string) (calls : list callback_call) (answer : option exn)
| verification (answer : outcome string)
| task_done (call_id : string)
| shutdown (terminate : option exn).

Definition serve_step (ev : event) (st : state) : state :=
  match ev with
  | startup => lifespan_startup st
  | webhook object calls answer => snd (handle_webhook object calls answer st)
  | verification answer => snd (verify_webhook answer st)
  | task_done call_id => cleanup_call call_id st
  | shutdown terminate => snd (lifespan_cleanup terminate st)
  end.

Definition serve (evs : list event) (st : state) : state :=
  foldl (fun st ev => serve_step ev st) st evs.

(** The keys of the registry are distinct, its tasks are distinct and were
    created, and so were the tasks cancelled. *)
Definition registry_ok (st : state) : Prop :=
  NoDup (map fst (active_calls st))
  /\ NoDup (map snd (active_calls st))
  /\ Forall (fun kv => snd kv < created st) (active_calls st)
  /\ Forall (fun t => t < created st) (cancelled st).

End server.

(** * One call: the tasks of [bot.run_bot] interleaved *)

(** Between two suspension points a task runs alone.  An [action] is one such
    uninterrupted piece of work of one of the three tasks of a call. *)
Inductive action :=
| call_send_audio (audio : bytes) (answer : option exn)
    (** the inbound pump calls [hume.send_audio(frame.audio)] *)
| deliver (m : message)
    (** the event loop receives [m] from the socket and handles it *)
| resume_pump (answer : option exn).
    (** the outbound pump is resumed *)

Section Interleaving.
Context {rt : Runtime}.

Definition step (a : action) (st : world * pump_pc) : world * pump_pc :=
  let '(w, pc) := st in
  match a with
  | call_send_audio audio answer =>
      (snd (bot.HumeEVIHandler.send_audio audio answer w), pc)
  | deliver m => (snd (bot.HumeEVIHandler._handle_message m w), pc)
  | resume_pump answer =>
      match bot.pump_step answer pc w with
      | (Return pc', w') => (w', pc')
      | (Raise _, w') => (w', PumpDone)
      end
  end.

Definition run (acts : list action) (st : world * pump_pc) : world * pump_pc :=
  foldl (fun st a => step a st) st acts.

(** [n] successive calls of [get_output_audio], as the outbound pump makes
    them, with what each returned. *)
Fixpoint poll (n : nat) : M (list (option bytes)) :=
  match n with
  | 0 => ret []
  | S n' =>
      audio <- bot.HumeEVIHandler.get_output_audio;;
      later <- poll n';;
      ret (audio :: later)
  end.

(** The same method called once per answer, whatever each call does. *)
Fixpoint calls {A} (f : option exn -> M A) (answers : list (option exn))
    (w : world) : list (outcome A) * world :=
  match answers with
  | [] => ([], w)
  | answer :: rest =>
      let '(r, w') := f answer w in
      let '(rs, w'') := calls f rest w' in
      (r :: rs, w'')
  end.

(** The decoded payloads of the [audio_output] events of a stream that
    carry data, in the order of arrival. *)
Fixpoint audio_payloads (stream : list message) : list bytes :=
  match stream with
  | [] => []
  | audio_output (Some ((String _ _) as data)) :: rest =>
      match b64decode data with
      | Some audio_bytes => audio_bytes :: audio_payloads rest
      | None => audio_payloads rest
      end
  | _ :: rest => audio_payloads rest
  end.

(** Every [audio_output] event of the stream carries valid base64. *)
Definition decodable (m : message) : Prop :=
  match m with
  | audio_output (Some data) => is_Some (b64decode data)
  | _ => True
  end.

End Interleaving.

(** The bridge is Active: a socket is set and the running flag is up. *)
Definition Active (w : world) : Prop :=
  is_Some (socket (self w)) /\ _running (self w) = true.

(** The bridge is Idle: as constructed, never connected. *)
Definition Idle (w : world) : Prop :=
  socket (self w) = None /\ _running (self w) = false.

(** Only the output queue and the log differ between [w] and [w']. *)
Definition same_session (w w' : world) : Prop :=
  socket (self w') = socket (self w)
  /\ _running (self w') = _running (self w)
  /\ opened w' = opened w
  /\ published w' = published w
  /\ closed w' = closed w
  /\ sent w' = sent w.

(** ** Concrete bridges *)

(** A bridge connected by [HumeEVIHandler.connect], the handshake having
    succeeded. *)
Definition connected_world : world :=
  snd (bot.HumeEVIHandler.connect None fresh_world).

(** Two chunks of audio around an interruption: "hi", then "hello". *)
Definition two_chunks : list message :=
  [audio_output (Some "aGk="); user_interruption; audio_output (Some "aGVsbG8=")].

(** An answer that is not a cancellation. *)
Definition ordinary (answer : option exn) : Prop :=
  match answer with
  | Some e => is_Exception e = true
  | None => True
  end.

(** How many chunks a pump may still send once the running flag is down. *)
Definition in_flight (pc : pump_pc) : nat :=
  match pc with
  | PumpAwaitGet => 1
  | _ => 0
  end.

(** ** Statements that the code is checked against *)

(** [N] calls of [disconnect] close the session at most once. *)
Definition disconnect_closes_at_most_once : Prop :=
  forall (answers : list (option exn)) (w : world),
    length (closed (snd (calls bot.HumeEVIHandler.disconnect answers w)))
    <= S (length (closed w)).

(** [connect] on a bridge that is not idle fails and opens no session. *)
Definition connect_rejects_non_idle : Prop :=
  forall (handshake : option exn) (w : world),
    ~ Idle w ->
    raised (fst (bot.HumeEVIHandler.connect handshake w)) = true
    /\ opened (snd (bot.HumeEVIHandler.connect handshake w)) = opened w.

(** The event loop of an active bridge, which can only end by exhaustion
    of the stream or by an exception, leaves the running flag cleared. *)
Definition loop_end_clears_running {rt : Runtime} : Prop :=
  forall (stream : list message) (fin : stream_end) (w : world),
    Active w ->
    _running (self (snd (bot.HumeEVIHandler.process_messages stream fin w)))
    = false.

(** An [error] event takes an active bridge out of the active state: the
    running flag is cleared or the session is closed. *)
Definition error_event_ends_call {rt : Runtime} : Prop :=
  forall (code msg : option string) (w : world),
    Active w ->
    _running
      (self (snd (bot.HumeEVIHandler._handle_message (error code msg) w)))
    = false
    \/ closed (snd (bot.HumeEVIHandler._handle_message (error code msg) w))
       <> closed w.

(** Once [disconnect] has returned, whatever the tasks of the call do next,
    nothing more is published to the socket or sent to the transport. *)
Definition no_forwarding_after_disconnect {rt : Runtime} : Prop :=
  forall (aexit : option exn) (w : world) (pc : pump_pc) (acts : list action),
    fst (bot.HumeEVIHandler.disconnect aexit w) = Return tt ->
    published (fst (run acts (snd (bot.HumeEVIHandler.disconnect aexit w), pc)))
    = published (snd (bot.HumeEVIHandler.disconnect aexit w))
    /\ sent (fst (run acts (snd (bot.HumeEVIHandler.disconnect aexit w), pc)))
       = sent (snd (bot.HumeEVIHandler.disconnect aexit w)).

(** The configuration the service needs: the EVI key and configuration
    identifier read by [run_bot], and the WhatsApp credentials. *)
Definition required_configuration : list string :=
  ["HUME_API_KEY"; "HUME_CONFIG_ID"; "WHATSAPP_TOKEN";
   "WHATSAPP_WEBHOOK_VERIFICATION_TOKEN"; "WHATSAPP_PHONE_NUMBER_ID"].

(** A missing required variable makes the server module raise on import. *)
Definition missing_configuration_is_fatal : Prop :=
  forall (environ : gmap string string) (name : string),
    In name required_configuration ->
    bot.falsy (environ !! name) = true ->
    raised (server.module_body environ) = true.

(** An environment with the WhatsApp credentials and nothing else. *)
Definition whatsapp_only : gmap string string :=
  <["WHATSAPP_TOKEN" := "token"]>
    (<["WHATSAPP_WEBHOOK_VERIFICATION_TOKEN" := "verify"]>
       (<["WHATSAPP_PHONE_NUMBER_ID" := "1555"]> ∅)).

(** The scores of the example: joy 0.9, calm 0.4, anger 0.1, sadness 0.3. *)
Definition example_scores : list (string * Q) :=
  [("joy", 9 # 10); ("calm", 2 # 5); ("anger", 1 # 10); ("sadness", 3 # 10)].

(** ** Schedules and call sequences *)

(** The chunks that are not empty, in order. *)
Definition nonempty (chunks : list bytes) : list bytes :=
  List.filter (fun audio => truthy (Some audio)) chunks.


(** The chunks given to [send_audio] in a schedule, in order. *)
Fixpoint offered (acts : list action) : list bytes :=
  match acts with
  | [] => []
  | call_send_audio audio _ :: rest => audio :: offered rest
  | _ :: rest => offered rest
  end.


(** The audio of the frames that [_forward_whatsapp_to_hume] sends: frames
    without an [audio] attribute or with empty audio are skipped. *)
Fixpoint frame_chunks (frames : list (option bytes * option exn)) : list bytes :=
  match frames with
  | [] => []
  | (Some ((_ :: _) as audio), _) :: rest => audio :: frame_chunks rest
  | _ :: rest => frame_chunks rest
  end.

(** The socket accepts every frame. *)
Definition socket_accepts (frame : option bytes * option exn) : Prop :=
  snd frame = None.

(** A call of a method of the bridge by its owner. *)
Inductive api_call :=
| api_connect (handshake : option exn)
| api_disconnect (aexit : option exn)
| api_send_audio (audio_data : bytes) (answer : option exn)
| api_get_output_audio
| api_process_messages (stream : list message) (fin : stream_end).

Section ApiCalls.
Context {rt : Runtime}.

Definition api_step (c : api_call) (w : world) : world :=
  match c with
  | api_connect handshake => snd (bot.HumeEVIHandler.connect handshake w)
  | api_disconnect aexit => snd (bot.HumeEVIHandler.disconnect aexit w)
  | api_send_audio audio_data answer =>
      snd (bot.HumeEVIHandler.send_audio audio_data answer w)
  | api_get_output_audio => snd (bot.HumeEVIHandler.get_output_audio w)
  | api_process_messages stream fin =>
      snd (bot.HumeEVIHandler.process_messages stream fin w)
  end.

(** Any sequence of calls, each run to its end, whatever it returns. *)
Definition api_run (cs : list api_call) (w : world) : world :=
  foldl (fun w c => api_step c w) w cs.

End ApiCalls.

(** What holds of a bridge however it was used: a raised running flag
    comes with a socket, the socket is the session opened last, and the
    sessions published to or closed were opened, the publications being in
    the order of the sessions. *)
Definition well_formed (w : world) : Prop :=
  (_running (self w) = true -> is_Some (socket (self w)))
  /\ (forall h : session, socket (self w) = Some h -> S h = opened w)
  /\ Forall (fun h => h < opened w) (closed w)
  /\ Forall (fun p => fst p < opened w) (published w)
  /\ StronglySorted le (map fst (published w)).

(** * [run_bot] after its configuration guard *)

(** Log records of [run_bot] and of the pumps of bot_hume_evi.py that the
    bridge does not write. *)
Inductive call_text :=
| BotError (e : exn)
| SessionEnded
| CallerConnected
| CallerDisconnected
| NoPeerConnection
| ForwardingCancelled.

(** A call: the world of its bridge and the records above, each with the
    number of records of the bridge logged before it, which places it among
    them. *)
Record call_state := CallState {
  bridge_world : world;
  call_log : list (nat * level * call_text);
}.

Definition note (l : level) (t : call_text) (cs : call_state) : call_state :=
  {| bridge_world := bridge_world cs;
     call_log := call_log cs ++ [(length (log (bridge_world cs)), l, t)] |}.

Definition set_world (w : world) (cs : call_state) : call_state :=
  {| bridge_world := w; call_log := call_log cs |}.

(** Program points of a task that consumes a stream: not started, waiting
    for the next item, returned. *)
Inductive task_pc :=
| TaskStart
| TaskWaiting
| TaskDone.

(** How an [await] of [run_bot] on its tasks ends: it returns, or an
    exception surfaces there (the cancellation of [run_bot]). *)
Inductive wait_end :=
| returned
| surfaced (e : exn).

(** [except Exception as e: <log>] followed by [finally: await
    disconnect(); <log>], around a body that ended with [r]. *)
Definition except_finally (disconnect : option exn -> M unit)
    (aexit : option exn) (r : outcome unit) (cs : call_state)
    : outcome unit * call_state :=
  let '(r, cs) :=
    match r with
    | Raise e =>
        if is_Exception e then (Return tt, note ERROR (BotError e) cs)
        else (Raise e, cs)
    | Return _ => (Return tt, cs)
    end in
  match disconnect aexit (bridge_world cs) with
  | (Raise e, w) => (Raise e, set_world w cs)
  | (Return _, w) => (r, note INFO SessionEnded (set_world w cs))
  end.

(** The body's result once [except Exception] has caught what it can. *)
Definition caught (r : outcome unit) : outcome unit :=
  match r with
  | Raise e => if is_Exception e then Return tt else Raise e
  | Return _ => Return tt
  end.

(** ** bot.py *)
Module bot_call.
Section Functions.
Context {rt : Runtime}.

(** The three tasks of a call: where the event loop, the inbound pump and
    the outbound pump stand. *)
Record tasks := Tasks {
  call_of : call_state;
  hume_messages : task_pc;
  wa_to_hume : task_pc;
  hume_to_wa : pump_pc;
}.

Definition on_world (f : world -> world) (t : tasks) : tasks :=
  {| call_of := set_world (f (bridge_world (call_of t))) (call_of t);
     hume_messages := hume_messages t; wa_to_hume := wa_to_hume t;
     hume_to_wa := hume_to_wa t |}.

Definition set_hume_messages (pc : task_pc) (t : tasks) : tasks :=
  {| call_of := call_of t; hume_messages := pc; wa_to_hume := wa_to_hume t;
     hume_to_wa := hume_to_wa t |}.

Definition set_wa_to_hume (pc : task_pc) (t : tasks) : tasks :=
  {| call_of := call_of t; hume_messages := hume_messages t; wa_to_hume := pc;
     hume_to_wa := hume_to_wa t |}.

Definition set_hume_to_wa (pc : pump_pc) (t : tasks) : tasks :=
  {| call_of := call_of t; hume_messages := hume_messages t;
     wa_to_hume := wa_to_hume t; hume_to_wa := pc |}.

(** What happens while [run_bot] waits: a task runs up to its next
    suspension, or the transport reports that the caller is connected. *)
Inductive call_event :=
| messages_start
| got_message (m : message)
| messages_end (fin : stream_end)
| frames_start
| got_frame (audio : option bytes) (answer : option exn)
| frames_end (fin : stream_end)
| pump_resumed (answer : option exn)
| client_connected.

(** The [except] clauses of [process_messages]. *)
Definition messages_failed (e : exn) (t : tasks) : tasks :=
  set_hume_messages TaskDone
    match e with
    | CancelledError => t
    | _ => on_world (fun w => snd (logger ERROR (MessageError e) w)) t
    end.

(** The [except] clauses of [_forward_whatsapp_to_hume]. *)
Definition frames_failed (e : exn) (t : tasks) : tasks :=
  set_wa_to_hume TaskDone
    match e with
    | CancelledError => t
    | _ => on_world (fun w => snd (logger ERROR (ForwardingError e) w)) t
    end.

Definition call_step (ev : call_event) (t : tasks) : tasks :=
  let w := bridge_world (call_of t) in
  match ev with
  | messages_start =>
      match hume_messages t with
      | TaskStart =>
          match socket (self w) with
          | None => messages_failed TypeError t
          | Some _ => set_hume_messages TaskWaiting t
          end
      | _ => t
      end
  | got_message m =>
      match hume_messages t with
      | TaskWaiting =>
          match bot.HumeEVIHandler._handle_message m w with
          | (Raise e, w1) => messages_failed e (on_world (fun _ => w1) t)
          | (Return _, w1) =>
              if negb (_running (self w1))
              then set_hume_messages TaskDone (on_world (fun _ => w1) t)
              else on_world (fun _ => w1) t
          end
      | _ => t
      end
  | messages_end fin =>
      match hume_messages t with
      | TaskWaiting =>
          match fin with
          | exhausted => set_hume_messages TaskDone t
          | interrupted e => messages_failed e t
          end
      | _ => t
      end
  | frames_start =>
      match wa_to_hume t with
      | TaskStart =>
          set_wa_to_hume TaskWaiting
            (on_world (fun w => snd (logger DEBUG ForwardingStarted w)) t)
      | _ => t
      end
  | got_frame audio answer =>
      match wa_to_hume t with
      | TaskWaiting =>
          if truthy audio then
            match bot.HumeEVIHandler.send_audio (default [] audio) answer w with
            | (Raise e, w1) => frames_failed e (on_world (fun _ => w1) t)
            | (Return _, w1) => on_world (fun _ => w1) t
            end
          else t
      | _ => t
      end
  | frames_end fin =>
      match wa_to_hume t with
      | TaskWaiting =>
          match fin with
          | exhausted => set_wa_to_hume TaskDone t
          | interrupted e => frames_failed e t
          end
      | _ => t
      end
  | pump_resumed answer =>
      match bot.pump_step answer (hume_to_wa t) w with
      | (Return pc, w1) => set_hume_to_wa pc (on_world (fun _ => w1) t)
      | (Raise _, w1) => set_hume_to_wa PumpDone (on_world (fun _ => w1) t)
      end
  | client_connected =>
      {| call_of := note INFO CallerConnected (call_of t);
         hume_messages := hume_messages t; wa_to_hume := wa_to_hume t;
         hume_to_wa := hume_to_wa t |}
  end.

Definition run_tasks (evs : list call_event) (t : tasks) : tasks :=
  foldl (fun t ev => call_step ev t) t evs.

(** [task.cancel()] and [await task] for the three tasks: each swallows
    the cancellation and returns. *)
Definition cancel_tasks (t : tasks) : tasks :=
  {| call_of := call_of t; hume_messages := TaskDone; wa_to_hume := TaskDone;
     hume_to_wa := PumpDone |}.

(** The [except] and [finally] clauses of [run_bot]. *)
Definition finish (aexit : option exn) (r : outcome unit) (t : tasks)
    : outcome unit * tasks :=
  let '(r, cs) :=
    except_finally bot.HumeEVIHandler.disconnect aexit r (call_of t) in
  (r, {| call_of := cs; hume_messages := hume_messages t;
         wa_to_hume := wa_to_hume t; hume_to_wa := hume_to_wa t |}).

(** [run_bot] from the creation of the bridge on.  [transport_init] and
    [handshake] are the answers of [SmallWebRTCTransport(...)] and of the
    handshake of [connect]; [during] is what the tasks do while [run_bot]
    waits for the caller to disconnect; the wait [returned] when the caller
    disconnected, and the tasks are cancelled and awaited, doing
    [winding_down] meanwhile, or an exception [surfaced] in it; [aexit] is
    the answer to the [__aexit__] of [disconnect]. *)
Definition call (transport_init handshake : option exn)
    (during : list call_event) (wait : wait_end)
    (winding_down : list call_event) (aexit : option exn)
    (w : world) : outcome unit * tasks :=
  let t :=
    {| call_of := {| bridge_world := with_self (fun _ => __init__) w;
                     call_log := [] |};
       hume_messages := TaskStart; wa_to_hume := TaskStart;
       hume_to_wa := PumpStart |} in
  match transport_init with
  | Some e => (Raise e, t)
  | None =>
      match bot.HumeEVIHandler.connect handshake (bridge_world (call_of t)) with
      | (Raise e, w1) => finish aexit (Raise e) (on_world (fun _ => w1) t)
      | (Return _, w1) =>
          let t := run_tasks during (on_world (fun _ => w1) t) in
          match wait with
          | returned =>
              let t :=
                {| call_of := note INFO CallerDisconnected (call_of t);
                   hume_messages := hume_messages t; wa_to_hume := wa_to_hume t;
                   hume_to_wa := hume_to_wa t |} in
              finish aexit (Return tt) (cancel_tasks (run_tasks winding_down t))
          | surfaced e => finish aexit (Raise e) t
          end
      end
  end.

(** The whole of [run_bot]. *)
Definition run_bot (environ : gmap string string)
    (transport_init handshake : option exn) (during : list call_event)
    (wait : wait_end) (winding_down : list call_event) (aexit : option exn)
    : M unit :=
  bot.run_bot environ
    (fun _ _ w =>
       let '(r, t) :=
         call transport_init handshake during wait winding_down aexit w in
       (r, bridge_world (call_of t))).

End Functions.
End bot_call.

(** ** bot_hume_evi.py *)
Module bot_hume_evi_call.
Section Functions.
Context {rt : Runtime}.

(** Program points of [_forward_webrtc_to_hume]: not started, about to
    test the loop condition, suspended in [asyncio.sleep], returned. *)
Inductive inbound_pc :=
| InStart
| InTop
| InSleep
| InDone.

(** The three coroutines given to [asyncio.gather]. *)
Record gathered := Gathered {
  call_of : call_state;
  messages : task_pc;
  inbound : inbound_pc;
  outbound : pump_pc;
}.

Definition on_world (f : world -> world) (g : gathered) : gathered :=
  {| call_of := set_world (f (bridge_world (call_of g))) (call_of g);
     messages := messages g; inbound := inbound g; outbound := outbound g |}.

Definition noted (l : level) (t : call_text) (g : gathered) : gathered :=
  {| call_of := note l t (call_of g);
     messages := messages g; inbound := inbound g; outbound := outbound g |}.

Definition set_messages (pc : task_pc) (g : gathered) : gathered :=
  {| call_of := call_of g; messages := pc; inbound := inbound g;
     outbound := outbound g |}.

Definition set_inbound (pc : inbound_pc) (g : gathered) : gathered :=
  {| call_of := call_of g; messages := messages g; inbound := pc;
     outbound := outbound g |}.

Definition set_outbound (pc : pump_pc) (g : gathered) : gathered :=
  {| call_of := call_of g; messages := messages g; inbound := inbound g;
     outbound := pc |}.

(** The [except] and [finally] clauses of [process_messages]. *)
Definition messages_stopped (e : option exn) (g : gathered) : gathered :=
  set_messages TaskDone
    (on_world (fun w => snd (logger INFO ProcessorStopped w))
       match e with
       | Some e =>
           if is_Exception e
           then on_world (fun w => snd (logger ERROR (MessageError e) w)) g
           else g
       | None => g
       end).

(** [_forward_webrtc_to_hume], one resumption at a time; [has_pc] tells
    whether the connection has a [_pc], [resume] is what the [await] it is
    suspended in raises, if anything. *)
Definition _forward_webrtc_to_hume (has_pc : bool) (resume : option exn)
    (g : gathered) : gathered :=
  match inbound g with
  | InStart =>
      let g := on_world (fun w => snd (logger DEBUG ForwardingStarted w)) g in
      if has_pc then set_inbound InTop g
      else set_inbound InDone (noted WARNING NoPeerConnection g)
  | InTop =>
      if _running (self (bridge_world (call_of g)))
      then set_inbound InSleep g else set_inbound InDone g
  | InSleep =>
      match resume with
      | None => set_inbound InTop g
      | Some CancelledError =>
          set_inbound InDone (noted DEBUG ForwardingCancelled g)
      | Some e =>
          set_inbound InDone
            (on_world (fun w => snd (logger ERROR (ForwardingError e) w)) g)
      end
  | InDone => g
  end.

(** [_forward_hume_to_webrtc], one resumption at a time: a chunk taken
    from the queue goes nowhere ([pass]). *)
Definition _forward_hume_to_webrtc (resume : option exn) (g : gathered)
    : gathered :=
  match outbound g with
  | PumpStart =>
      set_outbound PumpTop
        (on_world (fun w => snd (logger DEBUG ForwardingStarted w)) g)
  | PumpTop =>
      if _running (self (bridge_world (call_of g)))
      then set_outbound PumpAwaitGet g else set_outbound PumpDone g
  | PumpAwaitGet =>
      match resume with
      | None =>
          set_outbound PumpTop
            (on_world
               (fun w => snd (bot_hume_evi.HumeEVIBot.get_audio_output w)) g)
      | Some CancelledError =>
          set_outbound PumpDone (noted DEBUG ForwardingCancelled g)
      | Some e =>
          set_outbound PumpDone
            (on_world (fun w => snd (logger ERROR (ForwardingError e) w)) g)
      end
  | PumpDone => g
  end.

(** A resumption of one of the three coroutines. *)
Inductive call_event :=
| messages_start
| got_message (m : message)
| messages_end (fin : stream_end)
| resume_inbound (has_pc : bool) (resume : option exn)
| resume_outbound (resume : option exn).

Definition call_step (ev : call_event) (g : gathered) : gathered :=
  let w := bridge_world (call_of g) in
  match ev with
  | messages_start =>
      match messages g with
      | TaskStart =>
          let g := on_world (fun w => snd (logger INFO ProcessorStarting w)) g in
          match socket (self w) with
          | None => messages_stopped (Some TypeError) g
          | Some _ => set_messages TaskWaiting g
          end
      | _ => g
      end
  | got_message m =>
      match messages g with
      | TaskWaiting =>
          match bot_hume_evi.HumeEVIBot._handle_message m w with
          | (Raise e, w1) => messages_stopped (Some e) (on_world (fun _ => w1) g)
          | (Return _, w1) =>
              if negb (_running (self w1))
              then messages_stopped None (on_world (fun _ => w1) g)
              else on_world (fun _ => w1) g
          end
      | _ => g
      end
  | messages_end fin =>
      match messages g with
      | TaskWaiting =>
          match fin with
          | exhausted => messages_stopped None g
          | interrupted e => messages_stopped (Some e) g
          end
      | _ => g
      end
  | resume_inbound has_pc resume => _forward_webrtc_to_hume has_pc resume g
  | resume_outbound resume => _forward_hume_to_webrtc resume g
  end.

Definition gather (during : list call_event) (g : gathered) : gathered :=
  foldl (fun g ev => call_step ev g) g during.

(** No resumption of a pump carries an exception: nothing is cancelled. *)
Definition undisturbed (ev : call_event) : Prop :=
  match ev with
  | resume_inbound _ (Some _) | resume_outbound (Some _) => False
  | _ => True
  end.

(** The inbound pump finds the peer connection. *)
Definition with_peer (ev : call_event) : Prop :=
  match ev with
  | resume_inbound false _ => False
  | _ => True
  end.

(** The [except] and [finally] clauses of [run_bot]. *)
Definition finish (aexit : option exn) (r : outcome unit) (g : gathered)
    : outcome unit * gathered :=
  let '(r, cs) :=
    except_finally bot_hume_evi.HumeEVIBot.disconnect aexit r (call_of g) in
  (r, {| call_of := cs; messages := messages g; inbound := inbound g;
         outbound := outbound g |}).

(** [run_bot] from the creation of the bridge on; [during] is what the
    three coroutines do while [run_bot] awaits [asyncio.gather], and [wait]
    is how that [await] ends. *)
Definition call (handshake : option exn) (during : list call_event)
    (wait : wait_end) (aexit : option exn) (w : world)
    : outcome unit * gathered :=
  let g :=
    {| call_of := {| bridge_world := with_self (fun _ => __init__) w;
                     call_log := [] |};
       messages := TaskStart; inbound := InStart; outbound := PumpStart |} in
  match bot_hume_evi.HumeEVIBot.connect handshake (bridge_world (call_of g)) with
  | (Raise e, w1) => finish aexit (Raise e) (on_world (fun _ => w1) g)
  | (Return _, w1) =>
      finish aexit
        match wait with returned => Return tt | surfaced e => Raise e end
        (gather during (on_world (fun _ => w1) g))
  end.

(** The whole of [run_bot]. *)
Definition run_bot (environ : gmap string string) (handshake : option exn)
    (during : list call_event) (wait : wait_end) (aexit : option exn) : M unit :=
  bot_hume_evi.run_bot environ
    (fun _ _ w =>
       let '(r, g) := call handshake during wait aexit w in
       (r, bridge_world (call_of g))).

End Functions.
End bot_hume_evi_call.

(** What the tasks of a call leave alone: the socket field, the running
    flag, the sessions opened and the sessions closed. *)
Definition session_state (w : world)
    : option session * bool * nat * list session :=
  (socket (self w), _running (self w), opened w, closed w).

(** The text published for a list of chunks on a bridge, none when it is
    not active. *)
Definition publications {rt : Runtime} (w : world) (chunks : list bytes)
    : list (session * string) :=
  match socket (self w), _running (self w) with
  | Some h, true => map (fun audio => (h, b64encode audio)) chunks
  | _, _ => []
  end.

(** What a bridge exchanges with the outside: its session, the texts
    published to Hume and the chunks sent to the caller. *)
Definition traffic (w : world)
    : (option session * bool * nat * list session)
      * list (session * string) * list bytes :=
  (session_state w, published w, sent w).

(** ** Connection callbacks *)

(** The bot of the connection could not be started: [create_task] or
    [add_done_callback] raised. *)
Definition start_failed (c : server.callback_call) : bool :=
  match c with
  | (_, None, None, _) => false
  | _ => true
  end.

(** No answer given to the callback is a cancellation. *)
Definition uncancelled (c : server.callback_call) : Prop :=
  match c with
  | (_, create, add_done, disconnect) =>
      ordinary create /\ ordinary add_done /\ ordinary disconnect
  end.

(** The call identifier of the connection. *)
Definition pc_id (c : server.callback_call) : string :=
  match c with
  | (call_id, _, _, _) => call_id
  end.

(** The task was created: [create_task] returned. *)
Definition task_created (c : server.callback_call) : bool :=
  match c with
  | (_, None, _, _) => true
  | _ => false
  end.

(** * Properties *)

(** ** The concrete codec on examples *)

Example b64encode_hi : Base64.encode (ascii_bytes "hi") = "aGk=".
Proof. reflexivity. Qed.

Example b64decode_hi : Base64.decode "aGk=" = Some (ascii_bytes "hi").
Proof. reflexivity. Qed.

Example b64decode_skips_newline :
  Base64.decode (String "010"%char "aGVs" ++ String "010"%char "bG8=")
  = Some (ascii_bytes "hello").
Proof. reflexivity. Qed.

Example b64decode_bad_padding : Base64.decode "aGk" = None.
Proof. reflexivity. Qed.

Example b64decode_only_pads : Base64.decode "====" = Some [].
Proof. reflexivity. Qed.

Example round_2_examples :
  Base64.round_2 (9 # 10) = (9 # 10)%Q /\ Base64.round_2 (1234 # 1000) = (123 # 100)%Q
  /\ Base64.round_2 (125 # 1000) = (3 # 25)%Q.
Proof. repeat split; reflexivity. Qed.


Ltac unfold_py :=
  unfold bind, ret, raise, try_except, try_finally, get_self, modify_self,
    logger, chat_connect, send_publish, socket___aexit__, transport_send_audio,
    with_self, set_socket, set_running, set_output_queue in *.

Ltac destruct_world w :=
  let b := fresh "b" in
  destruct w as [b ? ? ? ? ?]; destruct b as [? ? ?].

Lemma same_session_refl w : same_session w w.
Proof. repeat split. Qed.

Lemma same_session_trans w1 w2 w3 :
  same_session w1 w2 -> same_session w2 w3 -> same_session w1 w3.
Proof.
  unfold same_session.
  intros (?&?&?&?&?&?) (?&?&?&?&?&?); repeat split; congruence.
Qed.

#[local] Hint Resolve same_session_refl : core.

Section HandlerFacts.
Context {rt : Runtime}.
Import bot.HumeEVIHandler.

(** What handling one event does to the bridge: the session is untouched,
    and the queue grows by the payload of the event, or the event is an
    [audio_output] that does not decode and the handler raises. *)
Lemma _handle_message_queue (m : message) (w : world) :
  same_session w (snd (_handle_message m w))
  /\ ((fst (_handle_message m w) = Return tt
       /\ _output_queue (self (snd (_handle_message m w)))
          = _output_queue (self w) ++ audio_payloads [m])
      \/ (fst (_handle_message m w) = Raise BinasciiError
          /\ snd (_handle_message m w) = w
          /\ ~ decodable m)).
Proof.
  destruct m as [id|content scores|content|data| |code msg|ty]; simpl.
  - unfold_py; simpl. split; [done|]. left. by rewrite app_nil_r.
  - destruct scores as [[|p scores]|]; unfold_py; simpl;
      (split; [done|]; left; by rewrite app_nil_r).
  - unfold_py; simpl. split; [done|]. left. by rewrite app_nil_r.
  - destruct data as [[|c data]|].
    + unfold_py; simpl. split; [done|]. left. by rewrite app_nil_r.
    + destruct (b64decode (String c data)) as [audio_bytes|] eqn:Hdec;
        unfold_py; simpl.
      * split; [done|]. by left.
      * split; [done|]. right. repeat split.
        by intros [? ?].
    + unfold_py; simpl. split; [done|]. left. by rewrite app_nil_r.
  - unfold_py; simpl. split; [done|]. left. by rewrite app_nil_r.
  - unfold_py; simpl. split; [done|]. left. by rewrite app_nil_r.
  - unfold_py; simpl. split; [done|]. left. by rewrite app_nil_r.
Qed.

Lemma audio_payloads_cons (m : message) (stream : list message) :
  audio_payloads (m :: stream) = audio_payloads [m] ++ audio_payloads stream.
Proof.
  destruct m as [| | |[[|c data]|]| | |]; simpl; try done.
  by destruct (b64decode (String c data)).
Qed.

End HandlerFacts.

Section LoopFacts.
Context {rt : Runtime}.
Import bot.HumeEVIHandler.

Lemma async_for_cons (m : message) (rest : list message) (fin : stream_end)
    (w : world) :
  async_for (m :: rest) fin w
  = match _handle_message m w with
    | (Return _, w1) =>
        if negb (_running (self w1)) then (Return tt, w1)
        else async_for rest fin w1
    | (Raise e, w1) => (Raise e, w1)
    end.
Proof.
  cbn [async_for]. unfold bind at 1.
  destruct (_handle_message m w) as [[[]|e] w1]; [|done].
  unfold bind, get_self, ret. by destruct (_running (self w1)).
Qed.

(** The loop enqueues the payloads of a prefix of the stream, in order,
    and touches nothing else of the session. *)
Lemma async_for_prefix (stream : list message) (fin : stream_end) (w : world) :
  same_session w (snd (async_for stream fin w))
  /\ exists k, k <= length stream
     /\ _output_queue (self (snd (async_for stream fin w)))
        = _output_queue (self w) ++ audio_payloads (take k stream).
Proof.
  revert w. induction stream as [|m rest IH]; intros w.
  - split; [by destruct fin|]. exists 0. split; [done|].
    destruct fin; simpl; by rewrite app_nil_r.
  - rewrite async_for_cons.
    destruct (_handle_message_queue m w) as [Hs Hq].
    destruct (_handle_message m w) as [r w1]; simpl in Hs, Hq.
    destruct Hq as [[-> Hq]|(-> & -> & _)].
    + destruct (negb (_running (self w1))).
      * split; [done|]. exists 1. split; [simpl; lia|].
        simpl take. by rewrite take_0.
      * destruct (IH w1) as [Hs1 (k & Hk & Hq1)].
        split; [by eapply same_session_trans|].
        exists (S k). split; [simpl; lia|].
        rewrite Hq1, Hq. simpl take.
        by rewrite (audio_payloads_cons m (take k rest)), app_assoc.
    + split; [done|]. exists 0. split; [lia|]. simpl. by rewrite app_nil_r.
Qed.

(** While the running flag stays up and every payload decodes, the whole
    stream is consumed. *)
Lemma async_for_all (stream : list message) (fin : stream_end) (w : world) :
  _running (self w) = true ->
  Forall decodable stream ->
  fst (async_for stream fin w)
  = match fin with exhausted => Return tt | interrupted e => Raise e end
  /\ _output_queue (self (snd (async_for stream fin w)))
     = _output_queue (self w) ++ audio_payloads stream.
Proof.
  revert w. induction stream as [|m rest IH]; intros w Hrun Hdec.
  - destruct fin; simpl; by rewrite app_nil_r.
  - apply Forall_cons in Hdec as [Hm Hrest].
    rewrite async_for_cons.
    destruct (_handle_message_queue m w) as [Hs Hq].
    destruct (_handle_message m w) as [r w1]; simpl in Hs, Hq.
    destruct Hq as [[-> Hq]|(_ & _ & Hbad)]; [|done].
    destruct Hs as (_ & Hr & _).
    rewrite Hr, Hrun. simpl negb. cbv iota.
    destruct (IH w1) as [Hret Hq1]; [congruence|done|].
    split; [done|].
    by rewrite Hq1, Hq, (audio_payloads_cons m rest), app_assoc.
Qed.

Lemma process_messages_loop (stream : list message) (fin : stream_end)
    (w : world) (h : session) :
  socket (self w) = Some h ->
  process_messages stream fin w
  = match async_for stream fin w with
    | (Return _, w1) => (Return tt, w1)
    | (Raise CancelledError, w1) => (Return tt, w1)
    | (Raise e, w1) => logger ERROR (MessageError e) w1
    end.
Proof.
  intros Hsock. unfold process_messages, try_except, bind at 1, get_self.
  rewrite Hsock.
  destruct (async_for stream fin w) as [[[]|e] w1]; [done|].
  by destruct e.
Qed.

Lemma process_messages_no_socket (stream : list message) (fin : stream_end)
    (w : world) :
  socket (self w) = None ->
  process_messages stream fin w = logger ERROR (MessageError TypeError) w.
Proof.
  intros Hsock. unfold process_messages, try_except, bind at 1, get_self.
  by rewrite Hsock.
Qed.

(** [process_messages] never raises, and changes only the queue and the
    log. *)
Lemma process_messages_frame (stream : list message) (fin : stream_end)
    (w : world) :
  fst (process_messages stream fin w) = Return tt
  /\ same_session w (snd (process_messages stream fin w))
  /\ exists k, k <= length stream
     /\ _output_queue (self (snd (process_messages stream fin w)))
        = _output_queue (self w) ++ audio_payloads (take k stream).
Proof.
  destruct (socket (self w)) as [h|] eqn:Hsock.
  - rewrite (process_messages_loop _ _ _ h Hsock).
    destruct (async_for_prefix stream fin w) as [Hs Hq].
    destruct (async_for stream fin w) as [[[]|e] w1]; simpl in Hs, Hq.
    + done.
    + destruct e; done.
  - rewrite (process_messages_no_socket _ _ _ Hsock). simpl.
    split; [done|]. split; [done|].
    exists 0. split; [lia|]. simpl. by rewrite app_nil_r.
Qed.

(** On an active bridge whose stream decodes, every payload is enqueued. *)
Lemma process_messages_all (stream : list message) (fin : stream_end)
    (w : world) :
  Active w -> Forall decodable stream ->
  _output_queue (self (snd (process_messages stream fin w)))
  = _output_queue (self w) ++ audio_payloads stream.
Proof.
  intros [[h Hsock] Hrun] Hdec.
  rewrite (process_messages_loop _ _ _ h Hsock).
  destruct (async_for_all stream fin w Hrun Hdec) as [Hr Hq].
  destruct (async_for stream fin w) as [r w1].
  simpl in Hr, Hq. subst r.
  destruct fin as [|[]]; simpl; done.
Qed.

Lemma get_output_audio_eq (w : world) :
  get_output_audio w
  = match _output_queue (self w) with
    | [] => (Return None, w)
    | audio :: q => (Return (Some audio), with_self (set_output_queue q) w)
    end.
Proof.
  unfold get_output_audio, bind, get_self.
  by destruct (_output_queue (self w)).
Qed.

Lemma poll_S (n : nat) (w : world) :
  poll (S n) w
  = match get_output_audio w with
    | (Return audio, w0) =>
        match poll n w0 with
        | (Return later, w1) => (Return (audio :: later), w1)
        | (Raise e, w1) => (Raise e, w1)
        end
    | (Raise e, w0) => (Raise e, w0)
    end.
Proof. reflexivity. Qed.

(** Polling returns the chunks of the queue from its head, then times
    out. *)
Lemma poll_queue (n : nat) (w : world) :
  fst (poll n w)
  = Return (map Some (take n (_output_queue (self w)))
            ++ replicate (n - length (_output_queue (self w))) None)
  /\ _output_queue (self (snd (poll n w))) = drop n (_output_queue (self w))
  /\ same_session w (snd (poll n w)).
Proof.
  revert w. induction n as [|n IH]; intros w.
  - simpl. by rewrite drop_0.
  - rewrite poll_S, get_output_audio_eq.
    destruct (_output_queue (self w)) as [|audio q] eqn:Hq.
    + destruct (IH w) as (Hr & Hd & Hs). rewrite Hq in Hr, Hd.
      destruct (poll n w) as [r w1]; simpl in *. subst r.
      rewrite take_nil, drop_nil in *. simpl.
      by rewrite Nat.sub_0_r.
    + set (w0 := with_self (set_output_queue q) w).
      destruct (IH w0) as (Hr & Hd & Hs).
      destruct (poll n w0) as [r w1]; simpl in *. subst r.
      split; [done|]. split; [done|].
      eapply same_session_trans; [|exact Hs]. by subst w0.
Qed.

Lemma pump_step_top (answer : option exn) (w : world) :
  bot.pump_step answer PumpTop w
  = (Return (if _running (self w) then PumpAwaitGet else PumpDone), w).
Proof.
  cbn [bot.pump_step]. unfold bind, get_self, ret.
  by destruct (_running (self w)).
Qed.

Lemma pump_step_chunk (w : world) (audio : bytes) (q : list bytes) :
  _output_queue (self w) = audio :: q ->
  bot.pump_step None PumpAwaitGet w
  = (Return PumpTop,
     if truthy (Some audio)
     then snd (transport_send_audio audio None (with_self (set_output_queue q) w))
     else with_self (set_output_queue q) w).
Proof.
  intros Hq. cbn [bot.pump_step]. unfold try_except, bind at 1.
  rewrite get_output_audio_eq, Hq.
  unfold bind, ret, transport_send_audio.
  by destruct audio.
Qed.

Lemma _forward_hume_to_whatsapp_S (fuel : nat) (pc : pump_pc) (w : world) :
  pc <> PumpDone ->
  bot._forward_hume_to_whatsapp (S fuel) pc w
  = match bot.pump_step None pc w with
    | (Return pc', w') => bot._forward_hume_to_whatsapp fuel pc' w'
    | (Raise e, w') => (Raise e, w')
    end.
Proof. by destruct pc. Qed.

(** A running pump takes the chunks of the queue from its head and hands
    the non-empty ones to the transport, in that order. *)
Lemma pump_drains_in_order (q : list bytes) (w : world) :
  _running (self w) = true ->
  _output_queue (self w) = q ->
  fst (bot._forward_hume_to_whatsapp (length q + length q) PumpTop w)
  = Return PumpTop
  /\ sent (snd (bot._forward_hume_to_whatsapp (length q + length q) PumpTop w))
     = sent w ++ List.filter (fun audio => truthy (Some audio)) q
  /\ _output_queue
       (self (snd (bot._forward_hume_to_whatsapp (length q + length q) PumpTop w)))
     = [].
Proof.
  revert w. induction q as [|audio q IH]; intros w Hrun Hq.
  - simpl. by rewrite app_nil_r.
  - cbn [length]. rewrite Nat.add_succ_r. cbn [Nat.add].
    rewrite _forward_hume_to_whatsapp_S, pump_step_top, Hrun by done.
    rewrite _forward_hume_to_whatsapp_S, (pump_step_chunk w audio q Hq) by done.
    cbn [List.filter].
    destruct (truthy (Some audio)).
    + destruct (IH (snd (transport_send_audio audio None
                           (with_self (set_output_queue q) w))))
        as (Hr & Hs & Hq1); [done|done|].
      rewrite Hr, Hs, Hq1. cbn [transport_send_audio snd sent].
      by rewrite <- app_assoc.
    + destruct (IH (with_self (set_output_queue q) w)) as (Hr & Hs & Hq1);
        [done|done|].
      by rewrite Hr, Hs, Hq1.
Qed.

End LoopFacts.

(** ** The output buffer is first in, first out *)

(** C1: whatever events the event loop of [HumeEVIHandler] is given, the
    output queue afterwards is the queue before followed by the decoded
    payloads of the [audio_output] events of a prefix of the stream, in the
    order of arrival (the prefix is the whole stream when the bridge is
    active and every payload decodes); successive [get_output_audio] calls
    return the chunks of the queue from its head, in that order, each once,
    then time out; and a running outbound pump hands the non-empty chunks
    of the queue to the transport in that same order. *)
Theorem audio_output_fifo {rt : Runtime} (stream : list message)
    (fin : stream_end) (w : world) :
  (exists k, k <= length stream
     /\ _output_queue (self (snd (bot.HumeEVIHandler.process_messages stream fin w)))
        = _output_queue (self w) ++ audio_payloads (take k stream))
  /\ (Active w -> Forall decodable stream ->
      _output_queue (self (snd (bot.HumeEVIHandler.process_messages stream fin w)))
      = _output_queue (self w) ++ audio_payloads stream)
  /\ (forall (n : nat) (w' : world),
        fst (poll n w')
        = Return (map Some (take n (_output_queue (self w')))
                  ++ replicate (n - length (_output_queue (self w'))) None)
        /\ _output_queue (self (snd (poll n w'))) = drop n (_output_queue (self w')))
  /\ (forall w' : world,
        _running (self w') = true ->
        sent (snd (bot._forward_hume_to_whatsapp
                     (length (_output_queue (self w'))
                      + length (_output_queue (self w'))) PumpTop w'))
        = sent w'
          ++ List.filter (fun audio => truthy (Some audio)) (_output_queue (self w'))).
Proof.
  split; [|split; [|split]].
  - by destruct (process_messages_frame stream fin w) as (_ & _ & Hk).
  - apply process_messages_all.
  - intros n w'. destruct (poll_queue n w') as (Hr & Hd & _). done.
  - intros w' Hrun.
    by destruct (pump_drains_in_order (_output_queue (self w')) w' Hrun)
      as (_ & Hs & _).
Qed.

Lemma audio_output_fifo_witness :
  Active connected_world
  /\ Forall decodable two_chunks
  /\ _output_queue
       (self (snd (bot.HumeEVIHandler.process_messages two_chunks exhausted
                     connected_world)))
     = _output_queue (self connected_world) ++ audio_payloads two_chunks
  /\ sent (snd (bot._forward_hume_to_whatsapp (2 + 2) PumpTop
                  (snd (bot.HumeEVIHandler.process_messages two_chunks exhausted
                          connected_world))))
     = [] ++ [ascii_bytes "hi"; ascii_bytes "hello"].
Proof.
  assert (Ha : Active connected_world).
  { split; [exists 0; reflexivity | reflexivity]. }
  assert (Hd : Forall decodable two_chunks).
  { repeat constructor; simpl; eexists; reflexivity. }
  destruct (audio_output_fifo two_chunks exhausted connected_world)
    as (_ & Hall & _ & Hpump).
  split; [exact Ha|]. split; [exact Hd|]. split; [exact (Hall Ha Hd)|].
  exact (Hpump (snd (bot.HumeEVIHandler.process_messages two_chunks exhausted
                       connected_world)) eq_refl).
Defined.

(** ** An [audio_output] event enqueues exactly its decoded payload *)

(** C10: handling an [audio_output] event whose [data] is absent or empty
    changes nothing; with non-empty [data] that decodes, exactly the decoded
    bytes are appended to the output queue and nothing else changes; the
    queue changes in no other case ([data] that does not decode makes the
    handler raise with the queue as it was).  [HumeEVIBot] does the same. *)
Theorem audio_output_enqueues_decoded {rt : Runtime} (data : option string)
    (w : world) :
  bot_hume_evi.HumeEVIBot._handle_message (audio_output data) w
  = bot.HumeEVIHandler._handle_message (audio_output data) w
  /\ (data = None \/ data = Some "" ->
      bot.HumeEVIHandler._handle_message (audio_output data) w = (Return tt, w))
  /\ (forall (d : string) (audio_bytes : bytes),
        data = Some d -> d <> "" -> b64decode d = Some audio_bytes ->
        fst (bot.HumeEVIHandler._handle_message (audio_output data) w) = Return tt
        /\ _output_queue
             (self (snd (bot.HumeEVIHandler._handle_message (audio_output data) w)))
           = _output_queue (self w) ++ [audio_bytes]
        /\ same_session w
             (snd (bot.HumeEVIHandler._handle_message (audio_output data) w))
        /\ log (snd (bot.HumeEVIHandler._handle_message (audio_output data) w))
           = log w)
  /\ (_output_queue
        (self (snd (bot.HumeEVIHandler._handle_message (audio_output data) w)))
      <> _output_queue (self w) ->
      exists (d : string) (audio_bytes : bytes),
        data = Some d /\ d <> "" /\ b64decode d = Some audio_bytes
        /\ _output_queue
             (self (snd (bot.HumeEVIHandler._handle_message (audio_output data) w)))
           = _output_queue (self w) ++ [audio_bytes]).
Proof.
  split; [done|]. split; [|split].
  - by intros [->| ->].
  - intros d audio_bytes -> Hne Hdec.
    destruct d as [|c d]; [done|]. simpl. rewrite Hdec. by unfold_py.
  - destruct data as [[|c d]|]; simpl; [done| |done].
    destruct (b64decode (String c d)) as [audio_bytes|] eqn:Hdec;
      unfold_py; simpl; [|done].
    intros _. by exists (String c d), audio_bytes.
Qed.

Lemma audio_output_enqueues_decoded_witness :
  bot.HumeEVIHandler._handle_message (audio_output None) connected_world
  = (Return tt, connected_world)
  /\ _output_queue
       (self (snd (bot.HumeEVIHandler._handle_message (audio_output (Some "aGk="))
                     connected_world)))
     = _output_queue (self connected_world) ++ [ascii_bytes "hi"]
  /\ exists (d : string) (audio_bytes : bytes),
       Some "aGk=" = Some d /\ d <> "" /\ b64decode d = Some audio_bytes
       /\ _output_queue
            (self (snd (bot.HumeEVIHandler._handle_message
                          (audio_output (Some "aGk=")) connected_world)))
          = _output_queue (self connected_world) ++ [audio_bytes].
Proof.
  split; [|split].
  - apply (audio_output_enqueues_decoded None connected_world).
    left; reflexivity.
  - destruct (audio_output_enqueues_decoded (Some "aGk=") connected_world)
      as (_ & _ & H & _).
    apply (H "aGk=" (ascii_bytes "hi")); [reflexivity | discriminate | reflexivity].
  - destruct (audio_output_enqueues_decoded (Some "aGk=") connected_world)
      as (_ & _ & _ & H).
    apply H. discriminate.
Defined.

(** ** [send_audio] forwards exactly when the bridge is active *)

Lemma app_singleton_neq {A} (l : list A) (x : A) : l ++ [x] <> l.
Proof.
  intros H. apply (f_equal length) in H. rewrite length_app in H. simpl in H. lia.
Qed.

Lemma Active_dec (w : world) :
  {h | socket (self w) = Some h /\ _running (self w) = true}
  + {socket (self w) = None \/ _running (self w) = false}.
Proof.
  destruct (socket (self w)) as [h|]; [|right; by left].
  destruct (_running (self w)); [left; by exists h | right; by right].
Qed.

Lemma send_audio_active {rt : Runtime} (audio_data : bytes) (answer : option exn)
    (w : world) (h : session) :
  socket (self w) = Some h -> _running (self w) = true ->
  bot.HumeEVIHandler.send_audio audio_data answer w
  = send_publish h (b64encode audio_data) answer w.
Proof.
  intros Hs Hr. unfold bot.HumeEVIHandler.send_audio, bind, get_self.
  by rewrite Hs, Hr.
Qed.

Lemma send_audio_inactive {rt : Runtime} (audio_data : bytes)
    (answer : option exn) (w : world) :
  socket (self w) = None \/ _running (self w) = false ->
  bot.HumeEVIHandler.send_audio audio_data answer w = (Return tt, w).
Proof.
  intros H. unfold bot.HumeEVIHandler.send_audio, bind, get_self.
  destruct (socket (self w)) as [h|], (_running (self w)); try done.
  by destruct H.
Qed.

(** What one call of [HumeEVIHandler.disconnect] does. *)
Lemma disconnect_effect (aexit : option exn) (w : world) :
  closed (snd (bot.HumeEVIHandler.disconnect aexit w))
  = closed w ++ match socket (self w) with Some h => [h] | None => [] end
  /\ _running (self (snd (bot.HumeEVIHandler.disconnect aexit w))) = false
  /\ socket (self (snd (bot.HumeEVIHandler.disconnect aexit w))) = socket (self w)
  /\ _output_queue (self (snd (bot.HumeEVIHandler.disconnect aexit w)))
     = _output_queue (self w)
  /\ opened (snd (bot.HumeEVIHandler.disconnect aexit w)) = opened w
  /\ published (snd (bot.HumeEVIHandler.disconnect aexit w)) = published w
  /\ sent (snd (bot.HumeEVIHandler.disconnect aexit w)) = sent w
  /\ fst (bot.HumeEVIHandler.disconnect aexit w)
     = match socket (self w), aexit with
       | Some _, Some e => if is_Exception e then Return tt else Raise e
       | _, _ => Return tt
       end.
Proof.
  unfold bot.HumeEVIHandler.disconnect. destruct_world w. unfold_py. simpl.
  destruct socket0 as [h|]; simpl; [|by rewrite app_nil_r].
  destruct aexit as [e|]; simpl; [|done].
  destruct e; simpl; done.
Qed.

(** What one call of [HumeEVIBot.disconnect] does. *)
Lemma bot_disconnect_effect (aexit : option exn) (w : world) :
  closed (snd (bot_hume_evi.HumeEVIBot.disconnect aexit w))
  = closed w ++ match socket (self w) with Some h => [h] | None => [] end
  /\ _running (self (snd (bot_hume_evi.HumeEVIBot.disconnect aexit w))) = false
  /\ socket (self (snd (bot_hume_evi.HumeEVIBot.disconnect aexit w)))
     = socket (self w)
  /\ fst (bot_hume_evi.HumeEVIBot.disconnect aexit w)
     = match socket (self w), aexit with
       | Some _, Some e => Raise e
       | _, _ => Return tt
       end.
Proof.
  unfold bot_hume_evi.HumeEVIBot.disconnect. destruct_world w. unfold_py. simpl.
  destruct socket0 as [h|]; simpl; [|by rewrite app_nil_r].
  destruct aexit as [e|]; simpl; done.
Qed.

(** C2: [send_audio] publishes on the socket if and only if the bridge is
    active (a socket is set and the running flag is up); when it is active,
    exactly the base64 text of the chunk is published on the current socket
    and the answer of the socket is the result; when it is not, the call
    returns normally and changes nothing, in particular after [disconnect],
    when the socket field still holds the closed session.  [HumeEVIBot] has
    the same method. *)
Theorem send_audio_iff_active {rt : Runtime} (audio_data : bytes)
    (answer : option exn) (w : world) :
  bot_hume_evi.HumeEVIBot.send_audio audio_data answer w
  = bot.HumeEVIHandler.send_audio audio_data answer w
  /\ (published (snd (bot.HumeEVIHandler.send_audio audio_data answer w))
      <> published w <-> Active w)
  /\ (forall h : session,
        socket (self w) = Some h -> _running (self w) = true ->
        published (snd (bot.HumeEVIHandler.send_audio audio_data answer w))
        = published w ++ [(h, b64encode audio_data)]
        /\ fst (bot.HumeEVIHandler.send_audio audio_data answer w)
           = match answer with None => Return tt | Some e => Raise e end)
  /\ (~ Active w ->
      bot.HumeEVIHandler.send_audio audio_data answer w = (Return tt, w))
  /\ (forall aexit : option exn,
        bot.HumeEVIHandler.send_audio audio_data answer
          (snd (bot.HumeEVIHandler.disconnect aexit w))
        = (Return tt, snd (bot.HumeEVIHandler.disconnect aexit w))).
Proof.
  split; [done|].
  assert (Hact : forall h, socket (self w) = Some h -> _running (self w) = true ->
     published (snd (bot.HumeEVIHandler.send_audio audio_data answer w))
     = published w ++ [(h, b64encode audio_data)]
     /\ fst (bot.HumeEVIHandler.send_audio audio_data answer w)
        = match answer with None => Return tt | Some e => Raise e end).
  { intros h Hs Hr. rewrite (send_audio_active _ _ _ h Hs Hr).
    unfold send_publish. by destruct answer. }
  assert (Hin : ~ Active w ->
     bot.HumeEVIHandler.send_audio audio_data answer w = (Return tt, w)).
  { intros Hn. apply send_audio_inactive.
    destruct (Active_dec w) as [(h & Hs & Hr)|H]; [|done].
    destruct Hn. split; [by exists h | done]. }
  split; [|split; [exact Hact|split; [exact Hin|]]].
  - split.
    + intros Hne. destruct (Active_dec w) as [(h & Hs & Hr)|H].
      * split; [by exists h | done].
      * by rewrite (send_audio_inactive _ _ _ H) in Hne.
    + intros [[h Hs] Hr]. destruct (Hact h Hs Hr) as [-> _].
      apply app_singleton_neq.
  - intros aexit. apply send_audio_inactive. right.
    by destruct (disconnect_effect aexit w) as (_ & Hr & _).
Qed.

Lemma send_audio_iff_active_witness :
  published (snd (bot.HumeEVIHandler.send_audio (ascii_bytes "hi") None
                    connected_world))
  = [(0, "aGk=")]
  /\ bot.HumeEVIHandler.send_audio (ascii_bytes "hi") None fresh_world
     = (Return tt, fresh_world).
Proof.
  split.
  - destruct (send_audio_iff_active (ascii_bytes "hi") None connected_world)
      as (_ & _ & H & _).
    apply (H 0); reflexivity.
  - destruct (send_audio_iff_active (ascii_bytes "hi") None fresh_world)
      as (_ & _ & _ & H & _).
    apply H. intros [[h Hs] _]. discriminate Hs.
Defined.

(** ** Repeated [disconnect] *)

Lemma calls_cons {A} (f : option exn -> M A) (answer : option exn)
    (rest : list (option exn)) (w : world) :
  calls f (answer :: rest) w
  = (fst (f answer w) :: fst (calls f rest (snd (f answer w))),
     snd (calls f rest (snd (f answer w)))).
Proof.
  simpl. destruct (f answer w) as [r w1]. simpl.
  by destruct (calls f rest w1).
Qed.

Lemma disconnect_calls (answers : list (option exn)) (w : world) :
  closed (snd (calls bot.HumeEVIHandler.disconnect answers w))
  = closed w ++ match socket (self w) with
                | Some h => replicate (length answers) h
                | None => []
                end
  /\ socket (self (snd (calls bot.HumeEVIHandler.disconnect answers w)))
     = socket (self w)
  /\ _output_queue (self (snd (calls bot.HumeEVIHandler.disconnect answers w)))
     = _output_queue (self w)
  /\ (answers <> [] ->
      _running (self (snd (calls bot.HumeEVIHandler.disconnect answers w))) = false)
  /\ (Forall ordinary answers ->
      Forall (eq (Return tt)) (fst (calls bot.HumeEVIHandler.disconnect answers w))).
Proof.
  revert w. induction answers as [|answer rest IH]; intros w.
  - simpl. repeat split; try done. by destruct (socket (self w)); rewrite app_nil_r.
  - rewrite calls_cons. simpl fst. simpl snd.
    destruct (disconnect_effect answer w)
      as (Hc & Hr & Hs & Hq & _ & _ & _ & Hret).
    destruct (IH (snd (bot.HumeEVIHandler.disconnect answer w)))
      as (Hc' & Hs' & Hq' & Hr' & Hret').
    rewrite Hc', Hs', Hq', Hc, Hs, Hq.
    split; [|split; [done|split; [done|split]]].
    + destruct (socket (self w)) as [h|]; simpl; [|by rewrite !app_nil_r].
      by rewrite <- app_assoc.
    + intros _. destruct rest as [|a rest]; [exact Hr | by apply Hr'].
    + intros Hord. apply Forall_cons in Hord as [Ho Hord].
      constructor; [|by apply Hret'].
      rewrite Hret. destruct (socket (self w)), answer as [e|]; try done.
      simpl in Ho. by rewrite Ho.
Qed.

Lemma bot_disconnect_calls (answers : list (option exn)) (w : world) :
  closed (snd (calls bot_hume_evi.HumeEVIBot.disconnect answers w))
  = closed w ++ match socket (self w) with
                | Some h => replicate (length answers) h
                | None => []
                end
  /\ socket (self (snd (calls bot_hume_evi.HumeEVIBot.disconnect answers w)))
     = socket (self w)
  /\ (is_Some (socket (self w)) ->
      fst (calls bot_hume_evi.HumeEVIBot.disconnect answers w)
      = map (fun answer => match answer with
                           | Some e => Raise e
                           | None => Return tt
                           end) answers).
Proof.
  revert w. induction answers as [|answer rest IH]; intros w.
  - simpl. repeat split; try done. by destruct (socket (self w)); rewrite app_nil_r.
  - rewrite calls_cons. simpl fst. simpl snd.
    destruct (bot_disconnect_effect answer w) as (Hc & Hr & Hs & Hret).
    destruct (IH (snd (bot_hume_evi.HumeEVIBot.disconnect answer w)))
      as (Hc' & Hs' & Hret').
    rewrite Hc', Hs', Hc, Hs.
    split; [|split; [done|]].
    + destruct (socket (self w)) as [h|]; simpl; [|by rewrite !app_nil_r].
      by rewrite <- app_assoc.
    + intros Hsome. rewrite Hret', Hret by (by rewrite Hs).
      destruct Hsome as [h ->]. by destruct answer.
Qed.

(** C3, as the code has it: every call of [disconnect] on a bridge whose
    socket field is set calls [__aexit__] on that socket again, so [N] calls
    close [N] times (and none when no socket was ever set); the calls leave
    the socket field and the output queue as they were and the running flag
    down; [HumeEVIHandler.disconnect] returns normally whenever the answer of
    [__aexit__] is a return or an ordinary exception, while
    [HumeEVIBot.disconnect] raises what [__aexit__] raises. *)
Theorem disconnect_closes_every_time (answers : list (option exn)) (w : world) :
  closed (snd (calls bot.HumeEVIHandler.disconnect answers w))
  = closed w ++ match socket (self w) with
                | Some h => replicate (length answers) h
                | None => []
                end
  /\ closed (snd (calls bot_hume_evi.HumeEVIBot.disconnect answers w))
     = closed (snd (calls bot.HumeEVIHandler.disconnect answers w))
  /\ socket (self (snd (calls bot.HumeEVIHandler.disconnect answers w)))
     = socket (self w)
  /\ _output_queue (self (snd (calls bot.HumeEVIHandler.disconnect answers w)))
     = _output_queue (self w)
  /\ (answers <> [] ->
      _running (self (snd (calls bot.HumeEVIHandler.disconnect answers w))) = false)
  /\ (Forall ordinary answers ->
      Forall (eq (Return tt)) (fst (calls bot.HumeEVIHandler.disconnect answers w)))
  /\ (is_Some (socket (self w)) ->
      fst (calls bot_hume_evi.HumeEVIBot.disconnect answers w)
      = map (fun answer => match answer with
                           | Some e => Raise e
                           | None => Return tt
                           end) answers).
Proof.
  destruct (disconnect_calls answers w) as (Hc & Hs & Hq & Hr & Hret).
  destruct (bot_disconnect_calls answers w) as (Hc' & _ & Hret').
  repeat split; try done. by rewrite Hc, Hc'.
Qed.

Lemma disconnect_closes_every_time_witness :
  _running
    (self (snd (calls bot.HumeEVIHandler.disconnect
                  [None; Some (RemoteException "ConnectionClosed")]
                  connected_world))) = false
  /\ Forall (eq (Return tt))
       (fst (calls bot.HumeEVIHandler.disconnect
               [None; Some (RemoteException "ConnectionClosed")]
               connected_world))
  /\ fst (calls bot_hume_evi.HumeEVIBot.disconnect
            [None; Some (RemoteException "ConnectionClosed")] connected_world)
     = [Return tt; Raise (RemoteException "ConnectionClosed")].
Proof.
  destruct (disconnect_closes_every_time
              [None; Some (RemoteException "ConnectionClosed")] connected_world)
    as (_ & _ & _ & _ & Hr & Hret & Hbot).
  split; [apply Hr; discriminate|].
  split; [apply Hret; repeat constructor|].
  apply Hbot. exists 0. reflexivity.
Defined.

(** C3, as stated, fails: two calls of [disconnect] on a connected bridge
    call [__aexit__] twice. *)
Lemma disconnect_twice_closes_twice :
  closed connected_world = []
  /\ closed (snd (calls bot.HumeEVIHandler.disconnect [None; None] connected_world))
     = [0; 0]
  /\ ~ disconnect_closes_at_most_once.
Proof.
  split; [reflexivity|]. split; [reflexivity|].
  intros H. specialize (H [None; None] connected_world).
  vm_compute in H. lia.
Qed.

(** ** [connect] has no guard *)

Lemma connect_effect (handshake : option exn) (w : world) :
  match handshake with
  | None =>
      fst (bot.HumeEVIHandler.connect handshake w) = Return tt
      /\ socket (self (snd (bot.HumeEVIHandler.connect handshake w)))
         = Some (opened w)
      /\ opened (snd (bot.HumeEVIHandler.connect handshake w)) = S (opened w)
      /\ _running (self (snd (bot.HumeEVIHandler.connect handshake w))) = true
  | Some e =>
      fst (bot.HumeEVIHandler.connect handshake w) = Raise e
      /\ self (snd (bot.HumeEVIHandler.connect handshake w)) = self w
      /\ opened (snd (bot.HumeEVIHandler.connect handshake w)) = opened w
  end
  /\ _output_queue (self (snd (bot.HumeEVIHandler.connect handshake w)))
     = _output_queue (self w)
  /\ closed (snd (bot.HumeEVIHandler.connect handshake w)) = closed w
  /\ published (snd (bot.HumeEVIHandler.connect handshake w)) = published w.
Proof.
  unfold bot.HumeEVIHandler.connect. destruct_world w. unfold_py.
  destruct handshake; simpl; done.
Qed.

(** C9, as the code has it: [connect] does not look at the state of the
    bridge.  On any bridge, when the handshake succeeds it returns normally,
    a new session is opened, the socket field is replaced by the new session
    and the running flag is set, no earlier session being closed; when the
    handshake raises, [connect] raises the same exception and the fields of
    the bridge and the number of sessions are as before.  [HumeEVIBot.connect]
    does the same. *)
Theorem connect_unguarded (handshake : option exn) (w : world) :
  bot_hume_evi.HumeEVIBot.connect handshake w
  = bot.HumeEVIHandler.connect handshake w
  /\ match handshake with
     | None =>
         fst (bot.HumeEVIHandler.connect handshake w) = Return tt
         /\ socket (self (snd (bot.HumeEVIHandler.connect handshake w)))
            = Some (opened w)
         /\ opened (snd (bot.HumeEVIHandler.connect handshake w)) = S (opened w)
         /\ _running (self (snd (bot.HumeEVIHandler.connect handshake w))) = true
     | Some e =>
         fst (bot.HumeEVIHandler.connect handshake w) = Raise e
         /\ self (snd (bot.HumeEVIHandler.connect handshake w)) = self w
         /\ opened (snd (bot.HumeEVIHandler.connect handshake w)) = opened w
     end
  /\ _output_queue (self (snd (bot.HumeEVIHandler.connect handshake w)))
     = _output_queue (self w)
  /\ closed (snd (bot.HumeEVIHandler.connect handshake w)) = closed w
  /\ published (snd (bot.HumeEVIHandler.connect handshake w)) = published w.
Proof. split; [done | apply connect_effect]. Qed.

(** C9, as stated, fails: [connect] on a connected bridge returns normally
    and a second session is opened. *)
Lemma connect_twice_opens_two_sessions :
  socket (self connected_world) = Some 0
  /\ fst (bot.HumeEVIHandler.connect None connected_world) = Return tt
  /\ opened (snd (bot.HumeEVIHandler.connect None connected_world)) = 2
  /\ socket (self (snd (bot.HumeEVIHandler.connect None connected_world))) = Some 1
  /\ closed (snd (bot.HumeEVIHandler.connect None connected_world)) = []
  /\ ~ connect_rejects_non_idle.
Proof.
  repeat (split; [reflexivity|]).
  intros H. destruct (H None connected_world) as [Hraised _].
  - intros [Hsock _]. discriminate Hsock.
  - discriminate Hraised.
Qed.

(** ** The end of the event loop, and [error] events *)

Section BotLoopFacts.
Context {rt : Runtime}.
Import bot_hume_evi.HumeEVIBot.

Lemma bot_handle_message_session (m : message) (w : world) :
  same_session w (snd (_handle_message m w)).
Proof.
  destruct m as [id|content [[|p scores]|]|content|[[|c data]|]| |code msg|ty];
    simpl; unfold_py; simpl; try done.
  destruct (b64decode (String c data)); done.
Qed.

Lemma bot_async_for_session (stream : list message) (fin : stream_end)
    (w : world) :
  same_session w (snd (async_for stream fin w)).
Proof.
  revert w. induction stream as [|m rest IH]; intros w.
  - by destruct fin.
  - cbn [async_for]. unfold bind at 1.
    pose proof (bot_handle_message_session m w) as Hs.
    destruct (_handle_message m w) as [[[]|e] w1]; simpl in Hs; [|done].
    unfold bind, get_self, ret.
    destruct (negb (_running (self w1))); [done|].
    eapply same_session_trans; [exact Hs | apply IH].
Qed.

Lemma bot_process_messages_eq (stream : list message) (fin : stream_end)
    (w : world) :
  process_messages stream fin w
  = match socket (self w) with
    | Some _ =>
        match async_for stream fin (snd (logger INFO ProcessorStarting w)) with
        | (Return _, w1) => (Return tt, snd (logger INFO ProcessorStopped w1))
        | (Raise e, w1) =>
            if is_Exception e
            then (Return tt,
                  snd (logger INFO ProcessorStopped
                         (snd (logger ERROR (MessageError e) w1))))
            else (Raise e, snd (logger INFO ProcessorStopped w1))
        end
    | None =>
        (Return tt,
         snd (logger INFO ProcessorStopped
                (snd (logger ERROR (MessageError TypeError)
                        (snd (logger INFO ProcessorStarting w))))))
    end.
Proof.
  unfold process_messages, try_finally, try_except, bind, get_self, logger.
  cbn [self snd].
  destruct (socket (self w)) as [h|]; [|reflexivity].
  match goal with |- context [async_for stream fin ?w0] =>
    destruct (async_for stream fin w0) as [[[]|e] w1] end; [reflexivity|].
  destruct e; reflexivity.
Qed.

Lemma logger_session (l : level) (t : log_text) (w : world) :
  same_session w (snd (logger l t w))
  /\ last (log (snd (logger l t w))) = Some (l, t).
Proof. split; [done | apply last_snoc]. Qed.

Lemma bot_process_messages_frame (stream : list message) (fin : stream_end)
    (w : world) :
  same_session w (snd (process_messages stream fin w))
  /\ last (log (snd (process_messages stream fin w))) = Some (INFO, ProcessorStopped)
  /\ (fst (process_messages stream fin w) = Return tt
      \/ fst (process_messages stream fin w) = Raise CancelledError).
Proof.
  rewrite bot_process_messages_eq.
  destruct (socket (self w)) as [h|].
  - pose proof (bot_async_for_session stream fin
                  (snd (logger INFO ProcessorStarting w))) as Hs.
    destruct (async_for stream fin (snd (logger INFO ProcessorStarting w)))
      as [[[]|e] w1]; cbn [snd] in Hs.
    + split; [|split; [apply logger_session | by left]].
      eapply same_session_trans; [|apply logger_session].
      eapply same_session_trans; [apply logger_session | exact Hs].
    + destruct e; cbn [is_Exception];
        (split; [|split; [apply logger_session | (by left) || (by right)]]);
        (eapply same_session_trans; [|apply logger_session]);
        try (eapply same_session_trans; [|apply logger_session]);
        (eapply same_session_trans; [apply logger_session | exact Hs]).
  - split; [|split; [apply logger_session | by left]].
    done.
Qed.

End BotLoopFacts.

(** C4, as the code has it: the event loop never writes the running flag.
    When [process_messages] ends, by exhaustion of the stream or by an
    exception, the running flag, the socket field and the traces of the
    session are as before: nothing is closed, [disconnect] is not called.
    [HumeEVIHandler.process_messages] always returns normally, and when the
    loop of an active bridge ends by an ordinary exception that exception is
    the last record logged; with no event and an exhausted stream it changes
    nothing at all.  [HumeEVIBot.process_messages] logs that the processor
    stopped as its last record and lets only a cancellation through. *)
Theorem process_messages_leaves_running {rt : Runtime} (stream : list message)
    (fin : stream_end) (w : world) :
  fst (bot.HumeEVIHandler.process_messages stream fin w) = Return tt
  /\ same_session w (snd (bot.HumeEVIHandler.process_messages stream fin w))
  /\ (forall e : exn,
        Active w -> Forall decodable stream -> is_Exception e = true ->
        last (log (snd (bot.HumeEVIHandler.process_messages stream
                          (interrupted e) w)))
        = Some (ERROR, MessageError e))
  /\ (is_Some (socket (self w)) ->
      bot.HumeEVIHandler.process_messages [] exhausted w = (Return tt, w))
  /\ same_session w (snd (bot_hume_evi.HumeEVIBot.process_messages stream fin w))
  /\ last (log (snd (bot_hume_evi.HumeEVIBot.process_messages stream fin w)))
     = Some (INFO, ProcessorStopped)
  /\ (fst (bot_hume_evi.HumeEVIBot.process_messages stream fin w) = Return tt
      \/ fst (bot_hume_evi.HumeEVIBot.process_messages stream fin w)
         = Raise CancelledError).
Proof.
  destruct (process_messages_frame stream fin w) as (Hret & Hs & _).
  split; [done|]. split; [done|]. split; [|split].
  - intros e [[h Hsock] Hrun] Hdec He.
    rewrite (process_messages_loop _ _ _ h Hsock).
    destruct (async_for_all stream (interrupted e) w Hrun Hdec) as [Hr _].
    destruct (bot.HumeEVIHandler.async_for stream (interrupted e) w) as [r w1].
    simpl in Hr. subst r. destruct e; try done; apply last_snoc.
  - intros [h Hsock]. by rewrite (process_messages_loop _ _ _ h Hsock).
  - apply bot_process_messages_frame.
Qed.

Lemma process_messages_leaves_running_witness :
  last (log (snd (bot.HumeEVIHandler.process_messages two_chunks
                    (interrupted (RemoteException "ConnectionClosed"))
                    connected_world)))
  = Some (ERROR, MessageError (RemoteException "ConnectionClosed"))
  /\ bot.HumeEVIHandler.process_messages [] exhausted connected_world
     = (Return tt, connected_world).
Proof.
  destruct (process_messages_leaves_running two_chunks exhausted connected_world)
    as (_ & _ & Hexn & Hend & _).
  split.
  - apply Hexn.
    + split; [exists 0; reflexivity | reflexivity].
    + repeat constructor; simpl; eexists; reflexivity.
    + reflexivity.
  - apply Hend. exists 0. reflexivity.
Defined.

(** C4, as stated, fails: the stream of a connected bridge is exhausted at
    once, and the running flag is still up when the loop has returned. *)
Lemma exhausted_loop_keeps_running :
  _running
    (self (snd (bot.HumeEVIHandler.process_messages [] exhausted connected_world)))
  = true
  /\ _running
       (self (snd (bot.HumeEVIHandler.process_messages two_chunks
                     (interrupted (RemoteException "ConnectionClosed"))
                     connected_world)))
     = true
  /\ ~ loop_end_clears_running.
Proof.
  split; [reflexivity|]. split; [reflexivity|].
  intros H. specialize (H [] exhausted connected_world).
  assert (Ha : Active connected_world).
  { split; [exists 0; reflexivity | reflexivity]. }
  specialize (H Ha). discriminate H.
Qed.

(** C5, as the code has it: an [error] event is logged and nothing else
    happens.  Handling it returns normally and adds one ERROR record to the
    log ([HumeEVIHandler] logs the message, [HumeEVIBot] the code and the
    message); the bridge and the traces of the session are unchanged, so an
    active bridge stays active and nothing is closed; and the loop goes on:
    on an active bridge the events that follow the error are handled and
    their audio is enqueued. *)
Theorem error_event_only_logged {rt : Runtime} (code msg : option string)
    (w : world) :
  bot.HumeEVIHandler._handle_message (error code msg) w
  = logger ERROR (EVIError None msg) w
  /\ bot_hume_evi.HumeEVIBot._handle_message (error code msg) w
     = logger ERROR (EVIError code msg) w
  /\ self (snd (bot.HumeEVIHandler._handle_message (error code msg) w)) = self w
  /\ same_session w (snd (bot.HumeEVIHandler._handle_message (error code msg) w))
  /\ (Active w -> Active (snd (bot.HumeEVIHandler._handle_message (error code msg) w)))
  /\ (forall (rest : list message) (fin : stream_end),
        Active w -> Forall decodable rest ->
        _output_queue
          (self (snd (bot.HumeEVIHandler.process_messages
                        (error code msg :: rest) fin w)))
        = _output_queue (self w) ++ audio_payloads rest).
Proof.
  split; [done|]. split; [done|]. split; [done|]. split; [done|]. split; [done|].
  intros rest fin Ha Hdec.
  rewrite (process_messages_all (error code msg :: rest) fin w Ha); [done|].
  by constructor.
Qed.

Lemma error_event_only_logged_witness :
  Active (snd (bot.HumeEVIHandler._handle_message
                 (error (Some "internal") (Some "x")) connected_world))
  /\ _output_queue
       (self (snd (bot.HumeEVIHandler.process_messages
                     (error (Some "internal") (Some "x") :: two_chunks)
                     exhausted connected_world)))
     = [ascii_bytes "hi"; ascii_bytes "hello"].
Proof.
  assert (Ha : Active connected_world).
  { split; [exists 0; reflexivity | reflexivity]. }
  destruct (error_event_only_logged (Some "internal") (Some "x") connected_world)
    as (_ & _ & _ & _ & Hact & Hloop).
  split; [exact (Hact Ha)|].
  apply (Hloop two_chunks exhausted Ha).
  repeat constructor; simpl; eexists; reflexivity.
Defined.

(** C5, as stated, fails: after an [error] event a connected bridge still
    has its running flag up and nothing has been closed. *)
Lemma error_event_keeps_call_active :
  _running
    (self (snd (bot.HumeEVIHandler._handle_message
                  (error (Some "internal") (Some "x")) connected_world)))
  = true
  /\ closed (snd (bot.HumeEVIHandler._handle_message
                    (error (Some "internal") (Some "x")) connected_world))
     = []
  /\ ~ error_event_ends_call.
Proof.
  split; [reflexivity|]. split; [reflexivity|].
  intros H.
  destruct (H (Some "internal") (Some "x") connected_world) as [Hrun|Hclosed].
  - split; [exists 0; reflexivity | reflexivity].
  - discriminate Hrun.
  - by apply Hclosed.
Qed.

(** ** After [disconnect] *)

Section AfterDisconnect.
Context {rt : Runtime}.

Lemma pump_step_stopped (answer : option exn) (pc : pump_pc) (w : world) :
  _running (self w) = false ->
  exists (pc' : pump_pc) (w' : world) (l : list bytes),
    step (resume_pump answer) (w, pc) = (w', pc')
    /\ _running (self w') = false
    /\ published w' = published w
    /\ sent w' = sent w ++ l
    /\ length l <= in_flight pc
    /\ in_flight pc' = 0.
Proof.
  intros Hrun.
  assert (Hnil : forall l : list bytes, l = l ++ []) by (intros; by rewrite app_nil_r).
  destruct pc; cbn [step bot.pump_step in_flight].
  - unfold bind, logger, ret.
    eexists PumpTop, _, []. repeat split; cbn; auto.
  - unfold bind, get_self, ret. rewrite Hrun.
    exists PumpDone, w, []. repeat split; cbn; auto.
  - unfold try_except, bind at 1. rewrite get_output_audio_eq.
    destruct (_output_queue (self w)) as [|audio q] eqn:Hq;
      [|destruct audio as [|b audio]; [|destruct answer as [e|]; [destruct e|]]];
      unfold bind, ret, transport_send_audio, logger, raise; cbn.
    + exists PumpTop, w, []. repeat split; cbn; auto.
    + eexists PumpTop, _, []. repeat split; cbn; auto.
    + eexists PumpDone, _, [b :: audio]. repeat split; cbn; auto.
    + eexists PumpDone, _, [b :: audio]. repeat split; cbn; auto.
    + eexists PumpDone, _, [b :: audio]. repeat split; cbn; auto.
    + eexists PumpDone, _, [b :: audio]. repeat split; cbn; auto.
    + eexists PumpDone, _, [b :: audio]. repeat split; cbn; auto.
    + eexists PumpTop, _, [b :: audio]. repeat split; cbn; auto.
  - exists PumpDone, w, []. repeat split; cbn; auto.
Qed.

(** With the running flag down, the tasks publish nothing, and the
    transport receives at most the chunk of a pump that was waiting. *)
Lemma run_stopped (acts : list action) (w : world) (pc : pump_pc) :
  _running (self w) = false ->
  published (fst (run acts (w, pc))) = published w
  /\ exists l : list bytes,
       sent (fst (run acts (w, pc))) = sent w ++ l
       /\ length l <= in_flight pc.
Proof.
  revert w pc. induction acts as [|a acts IH]; intros w pc Hrun.
  - simpl. split; [done|]. exists []. rewrite app_nil_r. split; [done|simpl; lia].
  - unfold run. cbn [foldl]. fold (run acts (step a (w, pc))).
    destruct a as [audio answer|m|answer].
    + cbn [step]. rewrite (send_audio_inactive audio answer w) by (by right).
      cbn [snd]. by apply IH.
    + cbn [step].
      destruct (_handle_message_queue m w) as [(_ & Hr & _ & Hp & _ & Hsent) _].
      destruct (IH (snd (bot.HumeEVIHandler._handle_message m w)) pc)
        as [Hp' (l & Hl & Hlen)]; [congruence|].
      rewrite Hp', Hp. split; [done|]. exists l. by rewrite Hl, Hsent.
    + destruct (pump_step_stopped answer pc w Hrun)
        as (pc' & w' & l & -> & Hr & Hp & Hs & Hlen & Hpc').
      destruct (IH w' pc' Hr) as [Hp' (l' & Hl' & Hlen')].
      rewrite Hp', Hp. split; [done|].
      exists (l ++ l'). rewrite Hl', Hs, app_assoc, length_app.
      split; [done|lia].
Qed.

(** With the running flag down, the inbound pump publishes none of the
    frames it reads. *)
Lemma forward_frames_stopped (frames : list (option bytes * option exn))
    (w : world) :
  _running (self w) = false -> bot.forward_frames frames w = (Return tt, w).
Proof.
  intros Hrun. induction frames as [|[audio answer] rest IH]; [done|].
  cbn [bot.forward_frames]. unfold bind at 1.
  destruct (truthy audio).
  - by rewrite send_audio_inactive by (by right).
  - done.
Qed.

End AfterDisconnect.

(** C6, as the code has it: once [disconnect] has been called, whatever the
    three tasks of the call do next, in any order, [send_audio] publishes
    nothing on the socket; an outbound pump that is at its loop test or has
    returned sends nothing to the transport; a pump that was suspended in
    [get_output_audio] when [disconnect] was called may still send the one
    chunk it is given, and nothing after it; the inbound pump publishes none
    of the frames it reads. *)
Theorem after_disconnect_at_most_one_chunk {rt : Runtime} (aexit : option exn)
    (w : world) (pc : pump_pc) (acts : list action) :
  published (fst (run acts (snd (bot.HumeEVIHandler.disconnect aexit w), pc)))
  = published (snd (bot.HumeEVIHandler.disconnect aexit w))
  /\ (pc <> PumpAwaitGet ->
      sent (fst (run acts (snd (bot.HumeEVIHandler.disconnect aexit w), pc)))
      = sent (snd (bot.HumeEVIHandler.disconnect aexit w)))
  /\ (exists l : list bytes,
        sent (fst (run acts (snd (bot.HumeEVIHandler.disconnect aexit w), pc)))
        = sent (snd (bot.HumeEVIHandler.disconnect aexit w)) ++ l
        /\ length l <= 1)
  /\ (forall frames : list (option bytes * option exn),
        bot.forward_frames frames (snd (bot.HumeEVIHandler.disconnect aexit w))
        = (Return tt, snd (bot.HumeEVIHandler.disconnect aexit w))).
Proof.
  destruct (disconnect_effect aexit w) as (_ & Hrun & _).
  destruct (run_stopped acts _ pc Hrun) as [Hp (l & Hl & Hlen)].
  split; [done|]. split; [|split].
  - intros Hpc. rewrite Hl.
    destruct pc; try done; destruct l; simpl in Hlen; try lia;
      by rewrite app_nil_r.
  - exists l. split; [done|]. destruct pc; simpl in Hlen; lia.
  - intros frames. by apply forward_frames_stopped.
Qed.

Lemma after_disconnect_at_most_one_chunk_witness :
  sent (fst (run [deliver (audio_output (Some "aGk=")); resume_pump None;
                  call_send_audio (ascii_bytes "hi") None]
               (snd (bot.HumeEVIHandler.disconnect None connected_world), PumpTop)))
  = sent (snd (bot.HumeEVIHandler.disconnect None connected_world)).
Proof.
  apply (after_disconnect_at_most_one_chunk None connected_world PumpTop).
  discriminate.
Defined.

(** C6, as stated, fails: the outbound pump of a connected bridge is
    suspended in [get_output_audio]; [disconnect] returns; the event loop
    then handles one more [audio_output] event and the pump, resumed with
    that chunk, sends it to the transport. *)
Lemma pump_in_flight_forwards_after_disconnect :
  run [resume_pump None] (connected_world, PumpTop)
  = (connected_world, PumpAwaitGet)
  /\ fst (bot.HumeEVIHandler.disconnect None connected_world) = Return tt
  /\ sent (snd (bot.HumeEVIHandler.disconnect None connected_world)) = []
  /\ sent (fst (run [deliver (audio_output (Some "aGk=")); resume_pump None]
                  (snd (bot.HumeEVIHandler.disconnect None connected_world),
                   PumpAwaitGet)))
     = [ascii_bytes "hi"]
  /\ ~ no_forwarding_after_disconnect.
Proof.
  repeat (split; [reflexivity|]).
  intros H.
  destruct (H None connected_world PumpAwaitGet
              [deliver (audio_output (Some "aGk=")); resume_pump None]) as [_ Hs].
  - reflexivity.
  - vm_compute in Hs. discriminate Hs.
Qed.

(** ** [sorted(..., reverse=True)] and the top three emotions *)

Lemma Qltb_lt (x y : Q) : Qltb x y = true <-> (x < y)%Q.
Proof.
  unfold Qltb. rewrite negb_true_iff, <- not_true_iff_false, Qle_bool_iff.
  split; [apply Qnot_le_lt | apply Qlt_not_le].
Qed.

Lemma Qltb_ge (x y : Q) : Qltb x y = false <-> (y <= x)%Q.
Proof.
  unfold Qltb. by rewrite negb_false_iff, Qle_bool_iff.
Qed.

Section SortedFacts.
Context {A : Type} (key : A -> Q).

Lemma insort_perm (x : A) (l : list A) : Permutation (insort key x l) (x :: l).
Proof.
  induction l as [|y l IH]; simpl; [done|].
  destruct (Qltb (key y) (key x)); [|done].
  rewrite IH. apply perm_swap.
Qed.

Lemma insort_ascending (x : A) (l : list A) :
  StronglySorted (ascending key) l -> StronglySorted (ascending key) (insort key x l).
Proof.
  induction l as [|y l IH]; simpl; intros Hs.
  - repeat constructor.
  - apply StronglySorted_inv in Hs as [Hs Hy].
    destruct (Qltb (key y) (key x)) eqn:Hlt.
    + constructor; [by apply IH|].
      apply Qltb_lt, Qlt_le_weak in Hlt.
      rewrite (insort_perm x l). by constructor.
    + apply Qltb_ge in Hlt.
      constructor; [by constructor|].
      constructor; [done|].
      eapply Forall_impl; [exact Hy|].
      intros z Hz. unfold ascending in *. by eapply Qle_trans.
Qed.

Lemma insort_with_key (v : Q) (x : A) (l : list A) :
  with_key key v (insort key x l) = with_key key v (x :: l).
Proof.
  unfold with_key. induction l as [|y l IH]; [done|].
  cbn [insort]. destruct (Qltb (key y) (key x)) eqn:Hlt; [|done].
  cbn [List.filter] in *. rewrite IH.
  destruct (Qeq_bool (key y) v) eqn:Hy, (Qeq_bool (key x) v) eqn:Hx; try done.
  apply Qltb_lt in Hlt. apply Qeq_bool_iff in Hy, Hx.
  rewrite Hy, Hx in Hlt. by apply Qlt_irrefl in Hlt.
Qed.

Lemma stable_sort_perm (l : list A) : Permutation (stable_sort key l) l.
Proof.
  induction l as [|x l IH]; simpl; [done|].
  by rewrite insort_perm, IH.
Qed.

Lemma stable_sort_ascending (l : list A) :
  StronglySorted (ascending key) (stable_sort key l).
Proof.
  induction l as [|x l IH]; simpl; [constructor|].
  by apply insort_ascending.
Qed.

Lemma stable_sort_with_key (v : Q) (l : list A) :
  with_key key v (stable_sort key l) = with_key key v l.
Proof.
  induction l as [|x l IH]; [done|].
  cbn [stable_sort foldr]. fold (stable_sort key l).
  rewrite insort_with_key. unfold with_key in *. cbn [List.filter].
  by rewrite IH.
Qed.

Lemma rev_descending (l : list A) :
  StronglySorted (ascending key) l -> StronglySorted (descending key) (rev l).
Proof.
  induction 1 as [|x l Hs IH Hx]; simpl; [constructor|].
  apply StronglySorted_app_2; [|done|repeat constructor].
  intros a b Ha Hb. apply list_elem_of_singleton in Hb as ->.
  rewrite Forall_forall in Hx. apply Hx.
  apply list_elem_of_In in Ha. apply in_rev in Ha. by apply list_elem_of_In.
Qed.

(** [sorted(l, key=key, reverse=True)] is the stable descending sort of
    [l]: a permutation of [l], in descending order of the keys, in which
    the elements of equal key keep the order they have in [l]. *)
Lemma sorted_reverse_spec (l : list A) :
  Permutation (sorted key true l) l
  /\ StronglySorted (descending key) (sorted key true l)
  /\ forall v : Q, with_key key v (sorted key true l) = with_key key v l.
Proof.
  unfold sorted. split; [|split].
  - by rewrite <- Permutation_rev, stable_sort_perm, <- Permutation_rev.
  - apply rev_descending, stable_sort_ascending.
  - intros v. unfold with_key.
    rewrite List.filter_rev. fold (with_key key v (stable_sort key (rev l))).
    rewrite stable_sort_with_key. unfold with_key.
    by rewrite List.filter_rev, rev_involutive.
Qed.

End SortedFacts.

(** C8: for every score mapping, the ranking computed for a [user_message]
    is the stable descending sort of its items (a permutation of the items,
    in descending order of score, entries of equal score in their original
    iteration order), and the emotions derived are its first three entries
    (all of them when there are fewer), so that no entry left out has a
    higher score than an entry kept; [HumeEVIHandler] logs exactly these,
    [extract_top_emotions] returns them with each score rounded to two
    digits.  For joy 0.9, calm 0.4, anger 0.1, sadness 0.3 the result is joy
    0.9, calm 0.4, sadness 0.3, in this order. *)
Theorem top_three_by_descending_score {rt : Runtime} (scores : list (string * Q)) :
  Permutation (sorted snd true scores) scores
  /\ StronglySorted (descending snd) (sorted snd true scores)
  /\ (forall v : Q,
        with_key snd v (sorted snd true scores) = with_key snd v scores)
  /\ length (take 3 (sorted snd true scores)) = Nat.min 3 (length scores)
  /\ (forall a b : string * Q,
        a ∈ take 3 (sorted snd true scores) ->
        b ∈ drop 3 (sorted snd true scores) ->
        (snd b <= snd a)%Q)
  /\ (forall (content : option string) (p : string * Q) (w : world),
        log (snd (bot.HumeEVIHandler._handle_message
                    (user_message content (Some (p :: scores))) w))
        = log w ++ [(INFO, UserSaid (default "" content));
                    (DEBUG, Emotions (take 3 (sorted snd true (p :: scores))))])
  /\ bot_hume_evi.extract_top_emotions scores 3
     = map (fun p => (fst p, round2 (snd p))) (take 3 (sorted snd true scores))
  /\ take 3 (sorted snd true example_scores)
     = [("joy", 9 # 10); ("calm", 2 # 5); ("sadness", 3 # 10)]
  /\ @bot_hume_evi.extract_top_emotions python_runtime example_scores 3
     = [("joy", 9 # 10); ("calm", 2 # 5); ("sadness", 3 # 10)].
Proof.
  destruct (sorted_reverse_spec snd scores) as (Hperm & Hdesc & Hstable).
  split; [done|]. split; [done|]. split; [done|].
  split; [|split; [|split; [|split; [|split]]]].
  - rewrite length_take, (Permutation_length Hperm). lia.
  - intros a b Ha Hb.
    rewrite <- (take_drop 3 (sorted snd true scores)) in Hdesc.
    apply StronglySorted_app in Hdesc as (H & _ & _).
    by apply (H a b).
  - intros content p w. unfold bot.HumeEVIHandler._handle_message.
    unfold_py. simpl. by rewrite <- app_assoc.
  - unfold bot_hume_evi.extract_top_emotions.
    destruct scores as [|p scores]; [done|].
    apply map_ext. by intros [e s].
  - reflexivity.
  - reflexivity.
Qed.

Lemma top_three_by_descending_score_witness :
  (snd ("anger", 1 # 10) <= snd ("joy", 9 # 10))%Q.
Proof.
  destruct (@top_three_by_descending_score python_runtime example_scores)
    as (_ & _ & _ & _ & H & _).
  apply (H ("joy", 9 # 10) ("anger", 1 # 10)).
  - vm_compute. apply list_elem_of_here.
  - vm_compute. apply list_elem_of_here.
Defined.

Example ties_keep_iteration_order :
  take 3 (sorted snd true
            [("calm", 1 # 2); ("joy", 9 # 10); ("awe", 1 # 2); ("fear", 2 # 4);
             ("pride", 1 # 2)])
  = [("joy", 9 # 10); ("calm", 1 # 2); ("awe", 1 # 2)].
Proof. reflexivity. Qed.

(** ** Configuration *)

Lemma module_body_cases (environ : gmap string string) :
  server.missing_vars environ
  = (if bot.falsy (environ !! "WHATSAPP_TOKEN") then ["WHATSAPP_TOKEN"] else [])
    ++ (if bot.falsy (environ !! "WHATSAPP_WEBHOOK_VERIFICATION_TOKEN")
        then ["WHATSAPP_WEBHOOK_VERIFICATION_TOKEN"] else [])
    ++ (if bot.falsy (environ !! "WHATSAPP_PHONE_NUMBER_ID")
        then ["WHATSAPP_PHONE_NUMBER_ID"] else []).
Proof.
  unfold server.missing_vars, server.required_vars.
  rewrite !filter_cons, filter_nil. cbn [snd].
  destruct (bot.falsy (environ !! "WHATSAPP_TOKEN")),
    (bot.falsy (environ !! "WHATSAPP_WEBHOOK_VERIFICATION_TOKEN")),
    (bot.falsy (environ !! "WHATSAPP_PHONE_NUMBER_ID"));
    repeat case_decide; try done.
Qed.

Lemma module_body_missing (environ : gmap string string) :
  server.module_body environ
  = match server.missing_vars environ with
    | [] => Return tt
    | _ => Raise (ValueError (server.missing_vars environ))
    end.
Proof.
  unfold server.module_body. by destruct (server.missing_vars environ).
Qed.

(** C7, as the code has it: the server module checks the three WhatsApp
    credentials when it is imported, and nothing else.  It returns, and the
    server can start, exactly when the three are set and non-empty; otherwise
    it raises a [ValueError] that names the missing ones in order.  The EVI
    key and configuration identifier are not read at start-up, setting or
    removing them does not change the outcome: they are read by [run_bot] for
    each call, which, when one is missing or empty, logs an error and returns
    without running the call in bot.py, and raises a [ValueError] in
    bot_hume_evi.py. *)
Theorem whatsapp_credentials_checked_at_startup (environ : gmap string string) :
  (server.module_body environ = Return tt
   <-> bot.falsy (environ !! "WHATSAPP_TOKEN") = false
       /\ bot.falsy (environ !! "WHATSAPP_WEBHOOK_VERIFICATION_TOKEN") = false
       /\ bot.falsy (environ !! "WHATSAPP_PHONE_NUMBER_ID") = false)
  /\ (server.module_body environ = Return tt
      \/ (server.missing_vars environ <> []
          /\ server.module_body environ
             = Raise (ValueError (server.missing_vars environ))))
  /\ server.missing_vars environ
     = (if bot.falsy (environ !! "WHATSAPP_TOKEN") then ["WHATSAPP_TOKEN"] else [])
       ++ (if bot.falsy (environ !! "WHATSAPP_WEBHOOK_VERIFICATION_TOKEN")
           then ["WHATSAPP_WEBHOOK_VERIFICATION_TOKEN"] else [])
       ++ (if bot.falsy (environ !! "WHATSAPP_PHONE_NUMBER_ID")
           then ["WHATSAPP_PHONE_NUMBER_ID"] else [])
  /\ (forall (name value : string),
        name = "HUME_API_KEY" \/ name = "HUME_CONFIG_ID" ->
        server.module_body (<[name := value]> environ) = server.module_body environ
        /\ server.module_body (delete name environ) = server.module_body environ)
  /\ (forall (call : string -> string -> M unit) (w : world),
        bot.falsy (environ !! "HUME_API_KEY") = true
        \/ bot.falsy (environ !! "HUME_CONFIG_ID") = true ->
        bot.run_bot environ call w
        = (Return tt,
           snd (logger ERROR ConfigRequired (snd (logger INFO BotStarting w))))
        /\ bot_hume_evi.run_bot environ call w
           = (Raise (ValueError ["HUME_API_KEY and HUME_CONFIG_ID required"]),
              snd (logger INFO BotStarting w))).
Proof.
  split; [|split; [|split; [apply module_body_cases|split]]].
  - rewrite module_body_missing, module_body_cases.
    destruct (bot.falsy (environ !! "WHATSAPP_TOKEN")),
      (bot.falsy (environ !! "WHATSAPP_WEBHOOK_VERIFICATION_TOKEN")),
      (bot.falsy (environ !! "WHATSAPP_PHONE_NUMBER_ID")); simpl;
      split; try done; intros (? & ? & ?); done.
  - rewrite module_body_missing.
    destruct (server.missing_vars environ); [by left | by right].
  - intros name value Hname.
    rewrite !module_body_missing, !module_body_cases.
    destruct Hname as [-> | ->];
      rewrite !lookup_insert_ne, !lookup_delete_ne by done; done.
  - intros call w Hmissing.
    unfold bot.run_bot, bot_hume_evi.run_bot, bind, logger, raise. cbn [snd].
    destruct (bot.falsy (environ !! "HUME_API_KEY")); [done|].
    destruct Hmissing as [?| ->]; done.
Qed.

Lemma whatsapp_credentials_checked_at_startup_witness :
  server.module_body (<["HUME_API_KEY" := "key"]> whatsapp_only)
  = server.module_body whatsapp_only
  /\ bot.run_bot whatsapp_only (fun _ _ => ret tt) fresh_world
     = (Return tt,
        snd (logger ERROR ConfigRequired (snd (logger INFO BotStarting fresh_world)))).
Proof.
  destruct (whatsapp_credentials_checked_at_startup whatsapp_only)
    as (_ & _ & _ & Hkey & Hcall).
  split.
  - apply (Hkey "HUME_API_KEY" "key"). left; reflexivity.
  - apply (Hcall (fun _ _ => ret tt) fresh_world). left; reflexivity.
Defined.

(** C7, as stated, fails: with the WhatsApp credentials set and no EVI key,
    the server module is imported without error, so the server starts. *)
Lemma server_starts_without_hume_key :
  whatsapp_only !! "HUME_API_KEY" = None
  /\ server.module_body whatsapp_only = Return tt
  /\ ~ missing_configuration_is_fatal.
Proof.
  split; [reflexivity|]. split; [reflexivity|].
  intros H. specialize (H whatsapp_only "HUME_API_KEY").
  assert (Hstart : server.module_body whatsapp_only = Return tt) by reflexivity.
  rewrite Hstart in H. simpl in H.
  assert (Hgo : false = true); [|discriminate Hgo].
  apply H; [by left | reflexivity].
Qed.

Example missing_whatsapp_token_is_fatal :
  server.module_body (delete "WHATSAPP_TOKEN" whatsapp_only)
  = Raise (ValueError ["WHATSAPP_TOKEN"]).
Proof. reflexivity. Qed.

Example missing_hume_key_is_per_call :
  server.module_body whatsapp_only = Return tt
  /\ fst (bot.run_bot whatsapp_only (fun _ _ => raise TypeError) fresh_world)
     = Return tt
  /\ log (snd (bot.run_bot whatsapp_only (fun _ _ => raise TypeError) fresh_world))
     = [(INFO, BotStarting); (ERROR, ConfigRequired)].
Proof. repeat split. Qed.

(** * Further properties of the code *)

(** ** The three tasks of a call under any schedule *)

Section Schedules.
Context {rt : Runtime}.



(** One resumption of the outbound pump: the session is untouched, a chunk
    leaves the queue only to go to the transport or because it is empty,
    and the pump returns only when the flag is down or the transport
    raised. *)
Lemma resume_pump_effect (answer : option exn) (pc : pump_pc) (w : world) :
  socket (self (fst (step (resume_pump answer) (w, pc)))) = socket (self w)
  /\ _running (self (fst (step (resume_pump answer) (w, pc)))) = _running (self w)
  /\ opened (fst (step (resume_pump answer) (w, pc))) = opened w
  /\ closed (fst (step (resume_pump answer) (w, pc))) = closed w
  /\ published (fst (step (resume_pump answer) (w, pc))) = published w
  /\ sent (fst (step (resume_pump answer) (w, pc)))
     ++ nonempty (_output_queue (self (fst (step (resume_pump answer) (w, pc)))))
     = sent w ++ nonempty (_output_queue (self w))
  /\ (answer = None -> _running (self w) = true -> pc <> PumpDone ->
      snd (step (resume_pump answer) (w, pc)) <> PumpDone).
Proof.
  destruct pc; cbn [step bot.pump_step].
  - unfold bind, logger, ret. cbn. repeat split; done.
  - unfold bind, get_self, ret.
    destruct (_running (self w)) eqn:Hrun; cbn; repeat split; done.
  - unfold try_except, bind at 1. rewrite get_output_audio_eq.
    destruct (_output_queue (self w)) as [|audio q] eqn:Hq;
      [|destruct audio as [|b audio]; [|destruct answer as [e|]; [destruct e|]]];
      unfold bind, ret, transport_send_audio, logger, raise, nonempty; cbn;
      rewrite ?Hq; cbn; repeat split; rewrite ?Hq; cbn; try done;
      by rewrite <- app_assoc.
  - cbn. repeat split; done.
Qed.

Lemma send_audio_effect (audio : bytes) (answer : option exn) (w : world) :
  self (snd (bot.HumeEVIHandler.send_audio audio answer w)) = self w
  /\ opened (snd (bot.HumeEVIHandler.send_audio audio answer w)) = opened w
  /\ closed (snd (bot.HumeEVIHandler.send_audio audio answer w)) = closed w
  /\ sent (snd (bot.HumeEVIHandler.send_audio audio answer w)) = sent w
  /\ published (snd (bot.HumeEVIHandler.send_audio audio answer w))
     = published w
       ++ match socket (self w), _running (self w) with
          | Some h, true => [(h, b64encode audio)]
          | _, _ => []
          end.
Proof.
  unfold bot.HumeEVIHandler.send_audio, bind, get_self, send_publish, ret.
  destruct (socket (self w)) as [h|], (_running (self w)), answer; cbn;
    rewrite ?app_nil_r; done.
Qed.

(** Whatever the schedule, the tasks leave the socket field, the running
    flag and the sessions alone. *)
Lemma run_session (acts : list action) (w : world) (pc : pump_pc) :
  socket (self (fst (run acts (w, pc)))) = socket (self w)
  /\ _running (self (fst (run acts (w, pc)))) = _running (self w)
  /\ opened (fst (run acts (w, pc))) = opened w
  /\ closed (fst (run acts (w, pc))) = closed w.
Proof.
  revert w pc. induction acts as [|a acts IH]; intros w pc; [done|].
  unfold run. cbn [foldl]. fold (run acts (step a (w, pc))).
  destruct (step a (w, pc)) as [w1 pc1] eqn:Hstep.
  destruct (IH w1 pc1) as (Hs & Hr & Ho & Hc). rewrite Hs, Hr, Ho, Hc.
  destruct a as [audio answer|m|answer].
  - cbn [step] in Hstep. injection Hstep as <- <-.
    destruct (send_audio_effect audio answer w) as (Hself & ? & ? & _).
    by rewrite Hself.
  - cbn [step] in Hstep. injection Hstep as <- <-.
    by destruct (_handle_message_queue m w) as [(? & ? & ? & _ & ? & _) _].
  - pose proof (resume_pump_effect answer pc w) as H. rewrite Hstep in H.
    cbn [fst] in H. by destruct H as (? & ? & ? & ? & _).
Qed.

Lemma run_cons (a : action) (acts : list action) (st : world * pump_pc) :
  run (a :: acts) st = run acts (step a st).
Proof. reflexivity. Qed.

End Schedules.


(** X2: under any schedule the tasks of a call never change the socket
    field or the running flag and never open or close a session; what is
    published on the socket is, on an active bridge, exactly the base64 text
    of each chunk given to [send_audio], in the order of the calls, and
    nothing on a bridge that is not active. *)
Theorem tasks_publish_offered_chunks {rt : Runtime} (acts : list action)
    (w : world) (pc : pump_pc) :
  socket (self (fst (run acts (w, pc)))) = socket (self w)
  /\ _running (self (fst (run acts (w, pc)))) = _running (self w)
  /\ opened (fst (run acts (w, pc))) = opened w
  /\ closed (fst (run acts (w, pc))) = closed w
  /\ published (fst (run acts (w, pc)))
     = published w
       ++ match socket (self w), _running (self w) with
          | Some h, true => map (fun audio => (h, b64encode audio)) (offered acts)
          | _, _ => []
          end.
Proof.
  destruct (run_session acts w pc) as (Hs & Hr & Ho & Hc).
  repeat (split; [done|]). clear Hs Hr Ho Hc.
  revert w pc. induction acts as [|a acts IH]; intros w pc.
  - cbn. destruct (socket (self w)), (_running (self w)); by rewrite app_nil_r.
  - rewrite run_cons.
    destruct (step a (w, pc)) as [w1 pc1] eqn:Hstep. rewrite IH.
    destruct a as [audio answer|m|answer].
    + cbn [step] in Hstep. injection Hstep as <- <-. cbn [offered].
      destruct (send_audio_effect audio answer w) as (Hself & _ & _ & _ & Hpub).
      rewrite Hself, Hpub.
      destruct (socket (self w)), (_running (self w));
        rewrite <- ?app_assoc; done.
    + cbn [step] in Hstep. injection Hstep as <- <-. cbn [offered].
      destruct (_handle_message_queue m w) as [(Hs & Hr & _ & Hp & _) _].
      by rewrite Hs, Hr, Hp.
    + cbn [offered].
      pose proof (resume_pump_effect answer pc w) as H. rewrite Hstep in H.
      cbn [fst] in H. destruct H as (Hs & Hr & _ & _ & Hp & _).
      by rewrite Hs, Hr, Hp.
Qed.



(** ** The inbound pump *)

Section InboundPump.
Context {rt : Runtime}.

Lemma forward_frames_cons (audio : option bytes) (answer : option exn)
    (rest : list (option bytes * option exn)) (w : world) :
  bot.forward_frames ((audio, answer) :: rest) w
  = if truthy audio
    then match bot.HumeEVIHandler.send_audio (default [] audio) answer w with
         | (Return _, w1) => bot.forward_frames rest w1
         | (Raise e, w1) => (Raise e, w1)
         end
    else bot.forward_frames rest w.
Proof.
  cbn [bot.forward_frames]. unfold bind at 1.
  destruct (truthy audio); [|done].
  by destruct (bot.HumeEVIHandler.send_audio (default [] audio) answer w)
    as [[[]|e] w1].
Qed.

Lemma frame_chunks_cons (audio : option bytes) (answer : option exn)
    (rest : list (option bytes * option exn)) :
  frame_chunks ((audio, answer) :: rest)
  = (if truthy audio then [default [] audio] else []) ++ frame_chunks rest.
Proof. by destruct audio as [[|b audio]|]. Qed.

Lemma publications_self (w w' : world) (chunks : list bytes) :
  self w' = self w -> publications w' chunks = publications w chunks.
Proof. unfold publications. by intros ->. Qed.

Lemma publications_app (w : world) (l1 l2 : list bytes) :
  publications w (l1 ++ l2) = publications w l1 ++ publications w l2.
Proof.
  unfold publications.
  destruct (socket (self w)), (_running (self w)); try done. apply map_app.
Qed.

Lemma forward_frames_effect (frames : list (option bytes * option exn))
    (w : world) :
  self (snd (bot.forward_frames frames w)) = self w
  /\ opened (snd (bot.forward_frames frames w)) = opened w
  /\ closed (snd (bot.forward_frames frames w)) = closed w
  /\ sent (snd (bot.forward_frames frames w)) = sent w
  /\ log (snd (bot.forward_frames frames w)) = log w
  /\ (exists k, k <= length frames
      /\ published (snd (bot.forward_frames frames w))
         = published w ++ publications w (frame_chunks (take k frames)))
  /\ (Forall socket_accepts frames ->
      fst (bot.forward_frames frames w) = Return tt
      /\ published (snd (bot.forward_frames frames w))
         = published w ++ publications w (frame_chunks frames)).
Proof.
  revert w. induction frames as [|[audio answer] rest IH]; intros w.
  - cbn. repeat split; try done.
    + exists 0. split; [done|]. unfold publications.
      destruct (socket (self w)), (_running (self w)); by rewrite app_nil_r.
    + unfold publications.
      destruct (socket (self w)), (_running (self w)); by rewrite app_nil_r.
  - rewrite forward_frames_cons.
    destruct (truthy audio) eqn:Htruthy.
    + destruct (send_audio_effect (default [] audio) answer w)
        as (Hself & Ho & Hc & Hs & Hp).
      assert (Hlog : log (snd (bot.HumeEVIHandler.send_audio (default [] audio)
                                 answer w)) = log w).
      { unfold bot.HumeEVIHandler.send_audio, bind, get_self, send_publish, ret.
        by destruct (socket (self w)), (_running (self w)), answer. }
      assert (Hone : published (snd (bot.HumeEVIHandler.send_audio
                                       (default [] audio) answer w))
                     = published w ++ publications w [default [] audio]).
      { rewrite Hp. unfold publications.
        by destruct (socket (self w)), (_running (self w)). }
      assert (Hret : answer = None ->
                fst (bot.HumeEVIHandler.send_audio (default [] audio) answer w)
                = Return tt).
      { intros ->.
        unfold bot.HumeEVIHandler.send_audio, bind, get_self, send_publish, ret.
        by destruct (socket (self w)), (_running (self w)). }
      destruct (bot.HumeEVIHandler.send_audio (default [] audio) answer w)
        as [[[]|e] w1]; cbn [fst snd] in *.
      * destruct (IH w1) as (Hself1 & Ho1 & Hc1 & Hs1 & Hl1 & (k & Hk & Hp1) & Hall).
        split; [congruence|]. do 4 (split; [congruence|]). split.
        -- exists (S k). split; [cbn; lia|].
           cbn [take]. rewrite frame_chunks_cons, Htruthy, publications_app.
           rewrite Hp1, Hone, (publications_self w w1) by done.
           by rewrite <- app_assoc.
        -- intros Hacc. apply Forall_cons in Hacc as [_ Hacc].
           destruct (Hall Hacc) as [Hr Hp2]. split; [done|].
           rewrite frame_chunks_cons, Htruthy, publications_app.
           rewrite Hp2, Hone, (publications_self w w1) by done.
           by rewrite <- app_assoc.
      * do 5 (split; [done|]). split.
        -- exists 1. split; [cbn; lia|].
           cbn [take]. rewrite take_0, frame_chunks_cons, Htruthy. cbn [frame_chunks].
           by rewrite app_nil_r.
        -- intros Hacc. apply Forall_cons in Hacc as [Ha _].
           unfold socket_accepts in Ha. cbn in Ha. by specialize (Hret Ha).
    + destruct (IH w) as (Hself1 & Ho1 & Hc1 & Hs1 & Hl1 & (k & Hk & Hp1) & Hall).
      do 5 (split; [done|]). split.
      * exists (S k). split; [cbn; lia|].
        cbn [take]. by rewrite frame_chunks_cons, Htruthy.
      * intros Hacc. apply Forall_cons in Hacc as [_ Hacc].
        rewrite frame_chunks_cons, Htruthy. by apply Hall.
Qed.

Lemma _forward_whatsapp_to_hume_eq (frames : list (option bytes * option exn))
    (fin : stream_end) (w : world) :
  bot._forward_whatsapp_to_hume frames fin w
  = match bot.forward_frames frames (snd (logger DEBUG ForwardingStarted w)) with
    | (Return _, w1) =>
        match fin with
        | exhausted | interrupted CancelledError => (Return tt, w1)
        | interrupted e => logger ERROR (ForwardingError e) w1
        end
    | (Raise CancelledError, w1) => (Return tt, w1)
    | (Raise e, w1) => logger ERROR (ForwardingError e) w1
    end.
Proof.
  unfold bot._forward_whatsapp_to_hume, bind at 1, logger at 1, try_except,
    bind at 1.
  cbn [snd logger].
  match goal with |- context [bot.forward_frames frames ?w0] =>
    destruct (bot.forward_frames frames w0) as [[[]|e] w1] end.
  - destruct fin as [|[]]; reflexivity.
  - destruct e; reflexivity.
Qed.

End InboundPump.

(** X4: on an active bridge whose socket accepts every frame,
    [_forward_whatsapp_to_hume] publishes the base64 text of the audio of
    each frame that has non-empty audio, on the current socket, in the order
    of the frames, and nothing for the frames without audio. *)
Theorem inbound_pump_in_order {rt : Runtime}
    (frames : list (option bytes * option exn)) (fin : stream_end) (w : world)
    (h : session) :
  socket (self w) = Some h ->
  _running (self w) = true ->
  Forall socket_accepts frames ->
  published (snd (bot._forward_whatsapp_to_hume frames fin w))
  = published w ++ map (fun audio => (h, b64encode audio)) (frame_chunks frames).
Proof.
  intros Hs Hr Hacc. rewrite _forward_whatsapp_to_hume_eq.
  destruct (forward_frames_effect frames (snd (logger DEBUG ForwardingStarted w)))
    as (_ & _ & _ & _ & _ & _ & Hall).
  destruct (Hall Hacc) as [Hret Hp].
  destruct (bot.forward_frames frames (snd (logger DEBUG ForwardingStarted w)))
    as [r w1]. cbn [fst snd] in *. subst r.
  assert (Hpub : published w1
                 = published w
                   ++ map (fun audio => (h, b64encode audio)) (frame_chunks frames)).
  { rewrite Hp. unfold publications. cbn. by rewrite Hs, Hr. }
  destruct fin as [|[]]; cbn; done.
Qed.

Lemma inbound_pump_in_order_witness :
  published
    (snd (bot._forward_whatsapp_to_hume
            [(Some (ascii_bytes "hi"), None); (None, None); (Some [], None);
             (Some (ascii_bytes "hello"), None)]
            exhausted connected_world))
  = published connected_world
    ++ map (fun audio => (0, b64encode audio))
         (frame_chunks
            [(Some (ascii_bytes "hi"), None); (None, None); (Some [], None);
             (Some (ascii_bytes "hello"), None)]).
Proof.
  apply inbound_pump_in_order.
  - reflexivity.
  - reflexivity.
  - repeat constructor.
Defined.

(** X5: [_forward_whatsapp_to_hume] always returns normally, whatever the
    frames, the answers of the socket and the way the frame stream ends: a
    cancellation is swallowed, any other exception is logged.  It leaves the
    bridge, the sessions and the transport untouched, and what it has
    published is the text of the audio of a prefix of the frames (it stops
    at the first [send_audio] that raises), nothing when the bridge is not
    active. *)
Theorem inbound_pump_contains_failures {rt : Runtime}
    (frames : list (option bytes * option exn)) (fin : stream_end) (w : world) :
  fst (bot._forward_whatsapp_to_hume frames fin w) = Return tt
  /\ self (snd (bot._forward_whatsapp_to_hume frames fin w)) = self w
  /\ opened (snd (bot._forward_whatsapp_to_hume frames fin w)) = opened w
  /\ closed (snd (bot._forward_whatsapp_to_hume frames fin w)) = closed w
  /\ sent (snd (bot._forward_whatsapp_to_hume frames fin w)) = sent w
  /\ exists k, k <= length frames
     /\ published (snd (bot._forward_whatsapp_to_hume frames fin w))
        = published w
          ++ match socket (self w), _running (self w) with
             | Some h, true =>
                 map (fun audio => (h, b64encode audio))
                   (frame_chunks (take k frames))
             | _, _ => []
             end.
Proof.
  rewrite _forward_whatsapp_to_hume_eq.
  destruct (forward_frames_effect frames (snd (logger DEBUG ForwardingStarted w)))
    as (Hself & Ho & Hc & Hs & _ & (k & Hk & Hp) & _).
  destruct (bot.forward_frames frames (snd (logger DEBUG ForwardingStarted w)))
    as [r w1]. cbn [fst snd] in *.
  unfold publications in Hp. cbn in Hself, Ho, Hc, Hs, Hp.
  assert (Hgoal : forall (r' : outcome unit) (w2 : world),
            r' = Return tt -> self w2 = self w1 -> opened w2 = opened w1 ->
            closed w2 = closed w1 -> sent w2 = sent w1 ->
            published w2 = published w1 ->
            fst (r', w2) = Return tt
            /\ self (snd (r', w2)) = self w
            /\ opened (snd (r', w2)) = opened w
            /\ closed (snd (r', w2)) = closed w
            /\ sent (snd (r', w2)) = sent w
            /\ exists k, k <= length frames
               /\ published (snd (r', w2))
                  = published w
                    ++ match socket (self w), _running (self w) with
                       | Some h, true =>
                           map (fun audio => (h, b64encode audio))
                             (frame_chunks (take k frames))
                       | _, _ => []
                       end).
  { intros r' w2 -> H1 H2 H3 H4 H5. cbn [fst snd].
    split; [done|]. do 4 (split; [congruence|]).
    exists k. split; [done|]. by rewrite H5, Hp. }
  destruct r as [[]|e].
  - destruct fin as [|[]]; by apply Hgoal.
  - destruct e; by apply Hgoal.
Qed.

(** ** The bridge however it is used *)

Section WellFormed.
Context {rt : Runtime}.

Lemma well_formed_same (w w' : world) :
  socket (self w') = socket (self w) ->
  _running (self w') = _running (self w) ->
  opened w' = opened w ->
  closed w' = closed w ->
  published w' = published w ->
  well_formed w -> well_formed w'.
Proof.
  unfold well_formed. intros -> -> -> -> ->. done.
Qed.

Lemma api_step_well_formed (c : api_call) (w : world) :
  well_formed w -> well_formed (api_step c w).
Proof.
  intros Hwf. destruct c as [handshake|aexit|audio answer| |stream fin];
    cbn [api_step].
  - destruct (connect_effect handshake w) as (Hcase & _ & Hc & Hp).
    destruct Hwf as (H1 & H2 & H3 & H4 & H5).
    destruct handshake as [e|].
    + destruct Hcase as (_ & Hself & Ho).
      apply (well_formed_same w); try done; by rewrite ?Hself.
    + destruct Hcase as (_ & Hs & Ho & Hr).
      unfold well_formed. rewrite Hs, Ho, Hr, Hc, Hp.
      split; [by eexists|]. split; [by intros ? [= ->]|].
      split; [|split; [|done]].
      * eapply Forall_impl; [exact H3|]. intros x Hx. cbn in *. lia.
      * eapply Forall_impl; [exact H4|]. intros x Hx. cbn in *. lia.
  - destruct (disconnect_effect aexit w) as (Hc & Hr & Hs & _ & Ho & Hp & _).
    destruct Hwf as (H1 & H2 & H3 & H4 & H5).
    unfold well_formed. rewrite Hc, Hr, Hs, Ho, Hp.
    split; [done|]. split; [done|]. split; [|done].
    apply Forall_app. split; [done|].
    destruct (socket (self w)) as [h|] eqn:Hsock; [|done].
    constructor; [|done]. specialize (H2 h eq_refl). lia.
  - destruct (send_audio_effect audio answer w) as (Hself & Ho & Hc & _ & Hp).
    destruct Hwf as (H1 & H2 & H3 & H4 & H5).
    unfold well_formed. rewrite Hself, Ho, Hc, Hp.
    split; [done|]. split; [done|]. split; [done|].
    destruct (socket (self w)) as [h|] eqn:Hsock; [|by rewrite app_nil_r].
    destruct (_running (self w)); [|by rewrite app_nil_r].
    specialize (H2 h eq_refl). split.
    + apply Forall_app. split; [done|]. constructor; [cbn; lia|done].
    + rewrite map_app. apply StronglySorted_app_2; [|done|repeat constructor].
      intros x1 x2 Hx1 Hx2. cbn in Hx2. apply list_elem_of_singleton in Hx2 as ->.
      apply list_elem_of_fmap in Hx1 as (p & -> & Hin).
      rewrite Forall_forall in H4. specialize (H4 p Hin). cbn in H4.
      unfold session in *. lia.
  - rewrite get_output_audio_eq.
    destruct (_output_queue (self w)); [done|].
    by apply (well_formed_same w).
  - destruct (process_messages_frame stream fin w)
      as (_ & (Hs & Hr & Ho & Hp & Hc & _) & _).
    by apply (well_formed_same w).
Qed.

Lemma api_run_well_formed (cs : list api_call) (w : world) :
  well_formed w -> well_formed (api_run cs w).
Proof.
  revert w. induction cs as [|c cs IH]; intros w Hwf; [done|].
  apply (IH (api_step c w)). by apply api_step_well_formed.
Qed.

End WellFormed.

(** X6: however the methods of a bridge are called (connect, disconnect,
    send_audio, get_output_audio and process_messages, in any order, any
    number of times, failing or not), starting from a new bridge: when the
    running flag is up a socket is set; the socket field holds the session
    opened last; every session closed or published to was opened; and the
    publications are in the order of the sessions, so that nothing is ever
    published on a session once a later one has been published to. *)
Theorem bridge_well_formed {rt : Runtime} (cs : list api_call) :
  well_formed (api_run cs fresh_world).
Proof.
  apply api_run_well_formed.
  unfold well_formed, fresh_world, __init__. cbn.
  repeat split; try done; constructor.
Qed.

(** ** [extract_top_emotions] for any [n] *)

Lemma NoDup_take_fst {A B} (n : nat) (l : list (A * B)) :
  NoDup (map fst l) -> NoDup (map fst (take n l)).
Proof.
  intros H. rewrite <- (take_drop n l), map_app in H.
  by apply NoDup_app in H as (H & _ & _).
Qed.

(** X7: [extract_top_emotions scores n] returns [min n (len scores)] entries;
    they are [n] entries of highest score, each with its score rounded: the
    items split into the entries kept, in the order returned, and the
    others, none of which has a higher score than an entry kept; and when
    the names of [scores] are distinct, as the keys of a dictionary are, so
    are the names returned, so that the dictionary built has that many
    keys. *)
Theorem extract_top_emotions_top_n {rt : Runtime} (scores : list (string * Q))
    (n : nat) :
  length (bot_hume_evi.extract_top_emotions scores n) = Nat.min n (length scores)
  /\ (NoDup (map fst scores) ->
      NoDup (map fst (bot_hume_evi.extract_top_emotions scores n)))
  /\ exists kept others : list (string * Q),
       Permutation (kept ++ others) scores
       /\ bot_hume_evi.extract_top_emotions scores n
          = map (fun p => (fst p, round2 (snd p))) kept
       /\ forall a b : string * Q, a ∈ kept -> b ∈ others -> (snd b <= snd a)%Q.
Proof.
  destruct (sorted_reverse_spec snd scores) as (Hperm & Hdesc & _).
  assert (Heq : bot_hume_evi.extract_top_emotions scores n
                = map (fun p => (fst p, round2 (snd p)))
                    (take n (sorted snd true scores))).
  { unfold bot_hume_evi.extract_top_emotions.
    destruct scores as [|p scores]; [by destruct n|].
    apply map_ext. by intros [e s]. }
  split; [|split].
  - rewrite Heq, length_map, length_take, (Permutation_length Hperm). lia.
  - intros Hnodup. rewrite Heq, map_map. cbn [fst].
    apply NoDup_take_fst.
    by rewrite (Permutation_map fst Hperm).
  - exists (take n (sorted snd true scores)), (drop n (sorted snd true scores)).
    split; [by rewrite take_drop|]. split; [done|].
    intros a b Ha Hb.
    rewrite <- (take_drop n (sorted snd true scores)) in Hdesc.
    apply StronglySorted_app in Hdesc as (H & _ & _).
    by apply (H a b).
Qed.

Lemma extract_top_emotions_top_n_witness :
  NoDup (map fst (@bot_hume_evi.extract_top_emotions python_runtime
                    example_scores 2)).
Proof.
  apply (@extract_top_emotions_top_n python_runtime example_scores 2).
  apply (bool_decide_unpack _). vm_compute. exact I.
Defined.

(** ** The two bridge classes *)

Section TwoClasses.
Context {rt : Runtime}.




End TwoClasses.


(** ** server.py: the registry of calls *)

Section Registry.
Import server.

Lemma eqb_refl_string (k : string) : String.eqb k k = true.
Proof. apply String.eqb_refl. Qed.

Lemma get_setitem_eq (d : registry) (k : string) (v : task) :
  get (setitem d k v) k = Some v.
Proof.
  induction d as [|[k' v'] d IH]; cbn.
  - by rewrite String.eqb_refl.
  - destruct (String.eqb k' k) eqn:E; cbn; rewrite E; done.
Qed.

Lemma get_setitem_ne (d : registry) (k k' : string) (v : task) :
  k <> k' -> get (setitem d k v) k' = get d k'.
Proof.
  intros Hne. induction d as [|[k0 v0] d IH]; cbn.
  - destruct (String.eqb k k') eqn:E; [|done].
    by apply String.eqb_eq in E.
  - destruct (String.eqb k0 k) eqn:E; cbn; [|by rewrite IH].
    apply String.eqb_eq in E as ->.
    destruct (String.eqb k k') eqn:E'; [|done].
    by apply String.eqb_eq in E'.
Qed.

Lemma length_setitem (d : registry) (k : string) (v : task) :
  length (setitem d k v)
  = match get d k with Some _ => length d | None => S (length d) end.
Proof.
  induction d as [|[k' v'] d IH]; cbn; [done|].
  destruct (String.eqb k' k); cbn; [done|].
  rewrite IH. by destruct (get d k).
Qed.

Lemma get_None_keys (d : registry) (k : string) :
  get d k = None <-> k ∉ map fst d.
Proof.
  induction d as [|[k' v'] d IH]; cbn.
  - split; [intros _; apply not_elem_of_nil | done].
  - rewrite not_elem_of_cons.
    destruct (String.eqb k' k) eqn:E.
    + apply String.eqb_eq in E as ->. split; [done | by intros [? _]].
    + apply String.eqb_neq in E. rewrite IH. split; [by intros ? | by intros [_ ?]].
Qed.

Lemma get_Some_elem (d : registry) (k : string) (v : task) :
  get d k = Some v -> (k, v) ∈ d.
Proof.
  induction d as [|[k' v'] d IH]; cbn; [done|].
  destruct (String.eqb k' k) eqn:E.
  - apply String.eqb_eq in E as ->. intros [= ->]. apply list_elem_of_here.
  - intros H. apply list_elem_of_further. by apply IH.
Qed.

Lemma setitem_elem (d : registry) (k : string) (v : task) (kv : string * task) :
  kv ∈ setitem d k v -> kv = (k, v) \/ kv ∈ d.
Proof.
  induction d as [|[k' v'] d IH]; cbn.
  - intros H. apply list_elem_of_singleton in H. by left.
  - destruct (String.eqb k' k) eqn:E.
    + apply String.eqb_eq in E as ->.
      intros H. apply elem_of_cons in H as [->|H]; [by left|].
      right. by apply list_elem_of_further.
    + intros H. apply elem_of_cons in H as [->|H].
      * right. apply list_elem_of_here.
      * destruct (IH H) as [?|?]; [by left|]. right. by apply list_elem_of_further.
Qed.

Lemma keys_setitem (d : registry) (k : string) (v : task) :
  map fst (setitem d k v)
  = match get d k with Some _ => map fst d | None => map fst d ++ [k] end.
Proof.
  induction d as [|[k' v'] d IH]; cbn; [done|].
  destruct (String.eqb k' k) eqn:E; cbn.
  - by apply String.eqb_eq in E as ->.
  - rewrite IH. by destruct (get d k).
Qed.

Lemma pop_elem (d : registry) (k : string) (kv : string * task) :
  kv ∈ pop d k -> kv ∈ d.
Proof.
  induction d as [|[k' v'] d IH]; cbn; [done|].
  destruct (String.eqb k' k).
  - apply list_elem_of_further.
  - intros H. apply elem_of_cons in H as [->|H]; [apply list_elem_of_here|].
    apply list_elem_of_further. by apply IH.
Qed.

Lemma get_pop_ne (d : registry) (k k' : string) :
  k <> k' -> get (pop d k) k' = get d k'.
Proof.
  intros Hne. induction d as [|[k0 v0] d IH]; cbn; [done|].
  destruct (String.eqb k0 k) eqn:E; cbn.
  - apply String.eqb_eq in E as ->.
    destruct (String.eqb k k') eqn:E'; [|done].
    by apply String.eqb_eq in E'.
  - by rewrite IH.
Qed.

Lemma get_pop_eq (d : registry) (k : string) :
  NoDup (map fst d) -> get (pop d k) k = None.
Proof.
  induction d as [|[k' v'] d IH]; cbn; [done|].
  intros Hnd. apply NoDup_cons in Hnd as [Hk Hnd].
  destruct (String.eqb k' k) eqn:E; cbn.
  - apply String.eqb_eq in E as ->. by apply get_None_keys.
  - rewrite E. by apply IH.
Qed.

Lemma pop_absent (d : registry) (k : string) :
  get d k = None -> pop d k = d.
Proof.
  induction d as [|[k' v'] d IH]; cbn; [done|].
  destruct (String.eqb k' k); [done|]. intros H. by rewrite IH.
Qed.

Lemma length_pop (d : registry) (k : string) :
  length (pop d k)
  = match get d k with Some _ => length d - 1 | None => length d end.
Proof.
  induction d as [|[k' v'] d IH]; cbn; [done|].
  destruct (String.eqb k' k); cbn; [lia|].
  rewrite IH. destruct (get d k) eqn:E; [|done].
  destruct d; [done|]. cbn. lia.
Qed.

Lemma pop_sublist (d : registry) (k : string) : sublist (pop d k) d.
Proof.
  induction d as [|[k' v'] d IH]; cbn; [done|].
  destruct (String.eqb k' k).
  - by apply sublist_cons.
  - by apply sublist_skip.
Qed.

End Registry.

Section ServerFacts.
Import server.

Lemma cancel_all_effect (items : registry) (st : state) :
  active_calls (cancel_all items st) = active_calls st
  /\ whatsapp_client (cancel_all items st) = whatsapp_client st
  /\ created (cancel_all items st) = created st
  /\ disconnected (cancel_all items st) = disconnected st
  /\ terminated (cancel_all items st) = terminated st
  /\ cancelled (cancel_all items st) = cancelled st ++ map snd items.
Proof.
  revert st. induction items as [|[call_id t] rest IH]; intros st; cbn.
  - by rewrite app_nil_r.
  - match goal with |- context [cancel_all rest ?st1] =>
      destruct (IH st1) as (-> & -> & -> & -> & -> & ->) end.
    cbn. by rewrite <- app_assoc.
Qed.

Lemma lifespan_cleanup_effect (terminate : option exn) (st : state) :
  active_calls (snd (lifespan_cleanup terminate st)) = active_calls st
  /\ created (snd (lifespan_cleanup terminate st)) = created st
  /\ disconnected (snd (lifespan_cleanup terminate st)) = disconnected st
  /\ cancelled (snd (lifespan_cleanup terminate st))
     = cancelled st ++ map snd (active_calls st)
  /\ terminated (snd (lifespan_cleanup terminate st))
     = (if whatsapp_client st then S (terminated st) else terminated st)
  /\ fst (lifespan_cleanup terminate st)
     = match whatsapp_client st, terminate with
       | true, Some e => Raise e
       | _, _ => Return tt
       end.
Proof.
  unfold lifespan_cleanup.
  destruct (cancel_all_effect (active_calls (info INFO CleaningUp st))
              (info INFO CleaningUp st)) as (Ha & Hw & Hc & Hd & Ht & Hx).
  rewrite Hw. cbn in Ha, Hw, Hc, Hd, Ht, Hx. cbn [info whatsapp_client].
  destruct (whatsapp_client st), terminate; cbn; rewrite ?Ha, ?Hc, ?Hd, ?Ht, ?Hx;
    done.
Qed.

Lemma NoDup_values_setitem (d : registry) (k : string) (v : task) :
  NoDup (map snd d) -> v ∉ map snd d -> NoDup (map snd (setitem d k v)).
Proof.
  induction d as [|[k' v'] d IH]; cbn; intros Hnd Hv.
  - apply NoDup_singleton.
  - apply NoDup_cons in Hnd as [Hv' Hnd]. apply not_elem_of_cons in Hv as [Hne Hv].
    destruct (String.eqb k' k); cbn.
    + by apply NoDup_cons.
    + apply NoDup_cons. split; [|by apply IH].
      intros Hin. apply list_elem_of_fmap in Hin as ([k0 v0] & Heq & Hin).
      cbn in Heq. subst v0.
      apply setitem_elem in Hin as [[= _ ->]|Hin]; [done|].
      apply Hv'. apply list_elem_of_fmap. by exists (k0, v').
Qed.

Lemma NoDup_pop {A} (f : string * task -> A) (d : registry) (k : string) :
  NoDup (map f d) -> NoDup (map f (pop d k)).
Proof.
  induction d as [|[k' v'] d IH]; cbn; [done|].
  intros Hnd. apply NoDup_cons in Hnd as [Hx Hnd].
  destruct (String.eqb k' k); [done|]. cbn.
  apply NoDup_cons. split; [|by apply IH].
  intros Hin. apply Hx.
  apply list_elem_of_fmap in Hin as (kv & Heq & Hin).
  apply list_elem_of_fmap. exists kv. split; [done|]. by apply pop_elem in Hin.
Qed.

Lemma setitem_ok (st : state) (k : string) :
  registry_ok st ->
  NoDup (map fst (setitem (active_calls st) k (created st)))
  /\ NoDup (map snd (setitem (active_calls st) k (created st)))
  /\ Forall (fun kv => snd kv < S (created st))
       (setitem (active_calls st) k (created st))
  /\ Forall (fun t => t < S (created st)) (cancelled st).
Proof.
  intros (Hk & Hv & Hc & Hx). split; [|split; [|split]].
  - rewrite keys_setitem. destruct (get (active_calls st) k) eqn:E; [done|].
    apply NoDup_app. split; [done|]. split; [|apply NoDup_singleton].
    intros x Hx1 Hx2. apply list_elem_of_singleton in Hx2 as ->.
    by apply get_None_keys in E.
  - apply NoDup_values_setitem; [done|].
    intros Hin. apply list_elem_of_fmap in Hin as (kv & Heq & Hin).
    rewrite Forall_forall in Hc. specialize (Hc kv Hin). cbn in Hc.
    unfold task in *. lia.
  - apply Forall_forall. intros kv Hin.
    apply setitem_elem in Hin as [->|Hin]; [cbn; lia|].
    rewrite Forall_forall in Hc. specialize (Hc kv Hin). cbn in *. lia.
  - eapply Forall_impl; [exact Hx|]. intros t Ht. cbn in *. lia.
Qed.

Lemma registry_ok_same (st st' : state) :
  active_calls st' = active_calls st -> created st' = created st ->
  cancelled st' = cancelled st -> registry_ok st -> registry_ok st'.
Proof. unfold registry_ok. by intros -> -> ->. Qed.

Lemma connection_callback_ok (call_id : string)
    (create add_done disconnect : option exn) (st : state) :
  registry_ok st ->
  registry_ok (snd (connection_callback call_id create add_done disconnect st)).
Proof.
  intros Hok. unfold connection_callback.
  destruct create as [e|].
  - destruct (is_Exception e); [destruct disconnect as [e'|];
      [destruct (is_Exception e')|]|]; cbn; by apply (registry_ok_same st).
  - pose proof (setitem_ok st call_id Hok) as Hset.
    destruct add_done as [e|];
      [destruct (is_Exception e); [destruct disconnect as [e'|];
        [destruct (is_Exception e')|]|]|]; cbn; exact Hset.
Qed.

Lemma run_callbacks_ok (calls : list callback_call) (st : state) :
  registry_ok st -> registry_ok (snd (run_callbacks calls st)).
Proof.
  revert st. induction calls as [|[[[call_id create] add_done] disconnect] rest IH];
    intros st Hok; [done|].
  cbn [run_callbacks].
  pose proof (connection_callback_ok call_id create add_done disconnect st Hok) as H.
  destruct (connection_callback call_id create add_done disconnect st)
    as [[[]|e] st']; cbn [snd] in *; [by apply IH | done].
Qed.

Lemma handle_webhook_ok (object : string) (calls : list callback_call)
    (answer : option exn) (st : state) :
  registry_ok st -> registry_ok (snd (handle_webhook object calls answer st)).
Proof.
  intros Hok. unfold handle_webhook.
  destruct (negb (String.eqb object "whatsapp_business_account"));
    [by apply (registry_ok_same st)|].
  cbn [info whatsapp_client].
  destruct (whatsapp_client st); [|by apply (registry_ok_same st)].
  pose proof (run_callbacks_ok calls (info INFO WebhookReceived st)) as H.
  destruct (run_callbacks calls (info INFO WebhookReceived st)) as [[[]|e] st'];
    cbn [snd] in H.
  - destruct answer as [e|]; [destruct e|]; cbn;
      apply (registry_ok_same st'); try done; by apply H, (registry_ok_same st).
  - destruct e; cbn; apply (registry_ok_same st'); try done;
      by apply H, (registry_ok_same st).
Qed.

Lemma serve_ok (evs : list event) (st : state) :
  registry_ok st -> registry_ok (serve evs st).
Proof.
  revert st. induction evs as [|ev evs IH]; intros st Hok; [done|].
  apply (IH (serve_step ev st)).
  destruct ev as [|object calls answer|answer|call_id|terminate]; cbn [serve_step].
  - by apply (registry_ok_same st).
  - by apply handle_webhook_ok.
  - unfold verify_webhook. cbn [info whatsapp_client].
    destruct (whatsapp_client st); [|by apply (registry_ok_same st)].
    destruct answer as [r|[]]; by apply (registry_ok_same st).
  - destruct Hok as (Hk & Hv & Hc & Hx). unfold registry_ok, cleanup_call. cbn.
    split; [by apply NoDup_pop|]. split; [by apply NoDup_pop|]. split; [|done].
    apply Forall_forall. intros kv Hin. apply pop_elem in Hin.
    rewrite Forall_forall in Hc. by apply Hc.
  - destruct (lifespan_cleanup_effect terminate st) as (Ha & Hc & _ & Hx & _).
    destruct Hok as (Hk & Hv & Hcr & Hcx).
    unfold registry_ok. rewrite Ha, Hc, Hx.
    repeat (split; [done|]). apply Forall_app. split; [done|].
    apply Forall_forall. intros t Hin.
    apply list_elem_of_fmap in Hin as (kv & -> & Hin).
    rewrite Forall_forall in Hcr. by apply Hcr.
Qed.

Lemma pop_removes_value (d : registry) (k : string) (v : task) :
  NoDup (map snd d) -> get d k = Some v -> v ∉ map snd (pop d k).
Proof.
  induction d as [|[k' v'] d IH]; cbn; [done|].
  intros Hnd Hget. apply NoDup_cons in Hnd as [Hv' Hnd].
  destruct (String.eqb k' k).
  - by injection Hget as ->.
  - cbn. apply not_elem_of_cons. split; [|by apply IH].
    intros ->. apply Hv'. apply get_Some_elem in Hget.
    apply list_elem_of_fmap. by exists (k, v').
Qed.

Lemma length_pop_health (st : state) (k : string) :
  snd (health_check (cleanup_call k st))
  = match get (active_calls st) k with
    | Some _ => length (active_calls st) - 1
    | None => length (active_calls st)
    end.
Proof. cbn. apply length_pop. Qed.

Lemma imported_ok : registry_ok imported.
Proof. unfold registry_ok. cbn. repeat split; constructor. Qed.

End ServerFacts.

(** X9: whatever the server has been through since it was imported, the
    registry is kept by call identifier.  A connection callback that
    succeeds binds its call identifier to the new task and leaves the other
    identifiers as they were, and the count of the health check grows by
    one exactly when the identifier was not registered yet.  The completion
    callback of a call removes its identifier, leaves the others, lowers
    the count by one exactly when the identifier was registered, and is
    without effect on the registry when run again. *)
Theorem registry_kept_by_call_id (evs : list server.event)
    (call_id other : string) (disconnect : option exn) :
  server.get
    (server.active_calls
       (snd (server.connection_callback call_id None None disconnect
               (server.serve evs server.imported)))) call_id
  = Some (server.created (server.serve evs server.imported))
  /\ (other <> call_id ->
      server.get
        (server.active_calls
           (snd (server.connection_callback call_id None None disconnect
                   (server.serve evs server.imported)))) other
      = server.get (server.active_calls (server.serve evs server.imported)) other)
  /\ snd (server.health_check
            (snd (server.connection_callback call_id None None disconnect
                    (server.serve evs server.imported))))
     = match server.get (server.active_calls (server.serve evs server.imported))
               call_id with
       | Some _ => snd (server.health_check (server.serve evs server.imported))
       | None => S (snd (server.health_check (server.serve evs server.imported)))
       end
  /\ server.get
       (server.active_calls
          (server.cleanup_call call_id (server.serve evs server.imported)))
       call_id
     = None
  /\ (other <> call_id ->
      server.get
        (server.active_calls
           (server.cleanup_call call_id (server.serve evs server.imported)))
        other
      = server.get (server.active_calls (server.serve evs server.imported)) other)
  /\ snd (server.health_check
            (server.cleanup_call call_id (server.serve evs server.imported)))
     = match server.get (server.active_calls (server.serve evs server.imported))
               call_id with
       | Some _ => snd (server.health_check (server.serve evs server.imported)) - 1
       | None => snd (server.health_check (server.serve evs server.imported))
       end
  /\ server.active_calls
       (server.cleanup_call call_id
          (server.cleanup_call call_id (server.serve evs server.imported)))
     = server.active_calls
         (server.cleanup_call call_id (server.serve evs server.imported)).
Proof.
  pose proof (serve_ok evs server.imported imported_ok) as (Hk & _).
  set (st := server.serve evs server.imported) in *.
  cbn [server.connection_callback server.cleanup_call server.health_check
       server.info server.set_active_calls server.active_calls server.created
       snd].
  split; [apply get_setitem_eq|].
  split; [intros Hne; by apply get_setitem_ne|].
  split; [apply length_setitem|].
  split; [by apply get_pop_eq|].
  split; [intros Hne; by apply get_pop_ne|].
  split; [apply length_pop|].
  apply pop_absent. by apply get_pop_eq.
Qed.

Lemma registry_kept_by_call_id_witness :
  server.get
    (server.active_calls
       (snd (server.connection_callback "call-2" None None None
               (server.serve
                  [server.startup;
                   server.webhook "whatsapp_business_account"
                     [("call-1", None, None, None)] None]
                  server.imported)))) "call-1"
  = Some 0
  /\ server.get
       (server.active_calls
          (server.cleanup_call "call-2"
             (server.serve
                [server.startup;
                 server.webhook "whatsapp_business_account"
                   [("call-1", None, None, None)] None]
                server.imported))) "call-1"
     = Some 0.
Proof.
  destruct (registry_kept_by_call_id
              [server.startup;
               server.webhook "whatsapp_business_account"
                 [("call-1", None, None, None)] None]
              "call-2" "call-1" None) as (_ & H1 & _ & _ & H2 & _).
  split.
  - rewrite H1; [reflexivity | discriminate].
  - rewrite H2; [reflexivity | discriminate].
Defined.

(** X10: the completion callback removes by call identifier, not by task.
    When a call identifier that is registered is registered again (a second
    connection with the same [pc_id] while the first call is running), the
    entry is overwritten; the completion of the first task then removes the
    entry of the second, which is still running: the health check no longer
    counts it and the shutdown of the server does not cancel it. *)
Theorem stale_completion_unregisters_running_call (evs : list server.event)
    (call_id : string) (d1 d2 terminate : option exn) :
  let st := server.serve evs server.imported in
  let st1 := snd (server.connection_callback call_id None None d1 st) in
  let st2 := snd (server.connection_callback call_id None None d2 st1) in
  let st3 := server.cleanup_call call_id st2 in
  server.get (server.active_calls st1) call_id = Some (server.created st)
  /\ server.get (server.active_calls st2) call_id = Some (S (server.created st))
  /\ server.get (server.active_calls st3) call_id = None
  /\ (S (server.created st) ∉ map snd (server.active_calls st3))
  /\ (S (server.created st)
      ∉ server.cancelled (snd (server.lifespan_cleanup terminate st3)))
  /\ snd (server.health_check st3)
     = match server.get (server.active_calls st) call_id with
       | Some _ => snd (server.health_check st) - 1
       | None => snd (server.health_check st)
       end.
Proof.
  intros st st1 st2 st3.
  pose proof (serve_ok evs server.imported imported_ok) as Hok. fold st in Hok.
  pose proof (connection_callback_ok call_id None None d1 st Hok) as Hok1.
  fold st1 in Hok1.
  pose proof (connection_callback_ok call_id None None d2 st1 Hok1) as Hok2.
  fold st2 in Hok2.
  assert (Hreg1 : server.active_calls st1
                  = server.setitem (server.active_calls st) call_id
                      (server.created st)) by done.
  assert (Hcr1 : server.created st1 = S (server.created st)) by done.
  assert (Hreg2 : server.active_calls st2
                  = server.setitem (server.active_calls st1) call_id
                      (server.created st1)) by done.
  assert (Hx2 : server.cancelled st2 = server.cancelled st) by done.
  assert (Hreg3 : server.active_calls st3
                  = server.pop (server.active_calls st2) call_id) by done.
  assert (Hx3 : server.cancelled st3 = server.cancelled st2) by done.
  assert (Hget2 : server.get (server.active_calls st2) call_id
                  = Some (S (server.created st))).
  { rewrite Hreg2, Hcr1. apply get_setitem_eq. }
  assert (Hgone : S (server.created st) ∉ map snd (server.active_calls st3)).
  { rewrite Hreg3. apply pop_removes_value; [by destruct Hok2 as (_ & ? & _) | done]. }
  split; [rewrite Hreg1; apply get_setitem_eq|]. split; [done|].
  split; [rewrite Hreg3; apply get_pop_eq; by destruct Hok2|].
  split; [done|]. split.
  - destruct (lifespan_cleanup_effect terminate st3) as (_ & _ & _ & -> & _).
    rewrite Hx3, Hx2. intros Hin. apply elem_of_app in Hin as [Hin|Hin]; [|done].
    destruct Hok as (_ & _ & _ & Hx). rewrite Forall_forall in Hx.
    specialize (Hx _ Hin). cbn in Hx. lia.
  - unfold st3. rewrite (length_pop_health st2 call_id), Hget2.
    change (snd (server.health_check st2)) with (length (server.active_calls st2)).
    rewrite Hreg2, length_setitem, Hreg1, get_setitem_eq, length_setitem.
    change (snd (server.health_check st)) with (length (server.active_calls st)).
    destruct (server.get (server.active_calls st) call_id); lia.
Qed.

(** X11: the cleanup of [lifespan] cancels the task of every call that is
    registered, each once, in the order of the registry, and no other task;
    it calls [terminate_all_calls] once when the client is set, and raises
    only what that call raises.  It removes nothing from the registry: the
    entries stay, and the health check keeps counting them, until the
    completion callbacks of the tasks run. *)
Theorem shutdown_cancels_registered_tasks (evs : list server.event)
    (terminate : option exn) :
  let st := server.serve evs server.imported in
  server.cancelled (snd (server.lifespan_cleanup terminate st))
  = server.cancelled st ++ map snd (server.active_calls st)
  /\ NoDup (map snd (server.active_calls st))
  /\ server.active_calls (snd (server.lifespan_cleanup terminate st))
     = server.active_calls st
  /\ server.health_check (snd (server.lifespan_cleanup terminate st))
     = server.health_check st
  /\ server.terminated (snd (server.lifespan_cleanup terminate st))
     = (if server.whatsapp_client st then S (server.terminated st)
        else server.terminated st)
  /\ fst (server.lifespan_cleanup terminate st)
     = match server.whatsapp_client st, terminate with
       | true, Some e => Raise e
       | _, _ => Return tt
       end.
Proof.
  intros st.
  destruct (lifespan_cleanup_effect terminate st) as (Ha & _ & _ & Hx & Ht & Hr).
  pose proof (serve_ok evs server.imported imported_ok) as (_ & Hv & _).
  repeat split; try done.
  unfold server.health_check. by rewrite Ha.
Qed.

Section WebhookFacts.
Import server.

Lemma connection_callback_effect (call_id : string)
    (create add_done disconnect : option exn) (st : state) :
  (forall e, fst (connection_callback call_id create add_done disconnect st)
             = Raise e -> e = CancelledError)
  /\ (uncancelled (call_id, create, add_done, disconnect) ->
      fst (connection_callback call_id create add_done disconnect st) = Return tt)
  /\ cancelled (snd (connection_callback call_id create add_done disconnect st))
     = cancelled st
  /\ whatsapp_client (snd (connection_callback call_id create add_done disconnect st))
     = whatsapp_client st
  /\ (uncancelled (call_id, create, add_done, disconnect) ->
      disconnected (snd (connection_callback call_id create add_done disconnect st))
      = disconnected st
        ++ (if start_failed (call_id, create, add_done, disconnect)
            then [call_id] else [])
      /\ created (snd (connection_callback call_id create add_done disconnect st))
         = (if task_created (call_id, create, add_done, disconnect)
            then S (created st) else created st)
      /\ active_calls (snd (connection_callback call_id create add_done disconnect st))
         = (if task_created (call_id, create, add_done, disconnect)
            then setitem (active_calls st) call_id (created st)
            else active_calls st)).
Proof.
  unfold connection_callback, uncancelled, ordinary.
  destruct create as [[]|], add_done as [[]|], disconnect as [[]|]; cbn;
    repeat split; try done; try (by intros ? [= <-]); try (by intros (? & ? & ?));
    rewrite ?app_nil_r; try done;
    match goal with H : _ /\ _ /\ _ |- _ => by destruct H as (? & ? & ?) end.
Qed.

Lemma run_callbacks_effect (calls : list callback_call) (st : state) :
  (forall e, fst (run_callbacks calls st) = Raise e -> e = CancelledError)
  /\ cancelled (snd (run_callbacks calls st)) = cancelled st
  /\ whatsapp_client (snd (run_callbacks calls st)) = whatsapp_client st
  /\ (Forall uncancelled calls ->
      fst (run_callbacks calls st) = Return tt
      /\ disconnected (snd (run_callbacks calls st))
         = disconnected st ++ map pc_id (List.filter start_failed calls)
      /\ created (snd (run_callbacks calls st))
         = created st + length (List.filter task_created calls)).
Proof.
  revert st. induction calls as [|[[[call_id create] add_done] disconnect] rest IH];
    intros st.
  - cbn. repeat split; try done; by rewrite ?app_nil_r, ?Nat.add_0_r.
  - cbn [run_callbacks].
    destruct (connection_callback_effect call_id create add_done disconnect st)
      as (Hraise & Hret & Hx & Hw & Hacc).
    destruct (connection_callback call_id create add_done disconnect st)
      as [r st1]. cbn [fst snd] in *.
    destruct (IH st1) as (Hraise1 & Hx1 & Hw1 & Hacc1).
    destruct r as [[]|e].
    + split; [done|]. split; [congruence|]. split; [congruence|].
      intros Hall. apply Forall_cons in Hall as [Hc Hall].
      destruct (Hacc Hc) as (Hd & Hcr & _).
      destruct (Hacc1 Hall) as (Hr1 & Hd1 & Hcr1).
      split; [done|]. rewrite Hd1, Hd, Hcr1, Hcr. cbn [List.filter].
      destruct (start_failed (call_id, create, add_done, disconnect)),
        (task_created (call_id, create, add_done, disconnect)); cbn;
        rewrite <- ?app_assoc, ?app_nil_r; split; try done; lia.
    + split; [done|]. split; [done|]. split; [done|].
      intros Hall. apply Forall_cons in Hall as [Hc _].
      by specialize (Hret Hc).
Qed.

End WebhookFacts.

(** X12: [handle_webhook] lets no ordinary exception through.  Its reply
    is the body with status success, an [HTTPException] 400 (wrong object
    type, or a [ValueError] of the client, whose text is the detail) or an
    [HTTPException] 500; only a cancellation passes.  With a wrong
    [body.object] the client is not called: no task is created, nothing is
    registered, cancelled or disconnected.  It never cancels a task. *)
Theorem handle_webhook_contains_errors (object : string)
    (calls : list server.callback_call) (answer : option exn)
    (st : server.state) :
  (fst (server.handle_webhook object calls answer st) = server.Body "success"
   \/ (exists d, fst (server.handle_webhook object calls answer st)
                 = server.HTTPException 400 d)
   \/ fst (server.handle_webhook object calls answer st)
      = server.HTTPException 500 (server.Text "Internal server error")
   \/ fst (server.handle_webhook object calls answer st)
      = server.Propagated CancelledError)
  /\ (object <> "whatsapp_business_account" ->
      fst (server.handle_webhook object calls answer st)
      = server.HTTPException 400 (server.Text "Invalid object type")
      /\ server.active_calls (snd (server.handle_webhook object calls answer st))
         = server.active_calls st
      /\ server.created (snd (server.handle_webhook object calls answer st))
         = server.created st
      /\ server.disconnected (snd (server.handle_webhook object calls answer st))
         = server.disconnected st)
  /\ (fst (server.handle_webhook object calls answer st) = server.Body "success" ->
      object = "whatsapp_business_account" /\ answer = None
      /\ server.whatsapp_client st = true)
  /\ server.cancelled (snd (server.handle_webhook object calls answer st))
     = server.cancelled st.
Proof.
  unfold server.handle_webhook.
  destruct (String.eqb object "whatsapp_business_account") eqn:Hobj; cbn [negb].
  - apply String.eqb_eq in Hobj as ->.
    cbn [server.info server.whatsapp_client].
    destruct (server.whatsapp_client st) eqn:Hclient.
    + destruct (run_callbacks_effect calls (server.info INFO server.WebhookReceived st))
        as (Hraise & Hx & _).
      destruct (server.run_callbacks calls (server.info INFO server.WebhookReceived st))
        as [[[]|e] st1]; cbn [fst snd] in *.
      * destruct answer as [[]|]; cbn; repeat split; try done; eauto 6.
      * rewrite (Hraise e eq_refl). cbn. repeat split; try done; eauto 6.
    + cbn. repeat split; try done; eauto 6.
  - apply String.eqb_neq in Hobj. cbn. repeat split; try done; eauto 6.
Qed.

Lemma handle_webhook_contains_errors_witness :
  fst (server.handle_webhook "page" [("call-1", None, None, None)] None
         (server.lifespan_startup server.imported))
  = server.HTTPException 400 (server.Text "Invalid object type")
  /\ server.whatsapp_client (server.lifespan_startup server.imported) = true.
Proof.
  split.
  - apply (handle_webhook_contains_errors "page" [("call-1", None, None, None)]
             None (server.lifespan_startup server.imported)).
    discriminate.
  - apply (handle_webhook_contains_errors "whatsapp_business_account"
             [("call-1", None, None, None)] None
             (server.lifespan_startup server.imported)).
    reflexivity.
Defined.

(** X13: when no answer is a cancellation, the connection callbacks of a
    request all return normally, whatever fails: a connection whose bot
    could not be started ([create_task] or [add_done_callback] raised) is
    disconnected, once, in the order of the callbacks, even when
    [connection.disconnect] itself raises; the connections whose bot
    started are not disconnected; and one task is created for each
    [create_task] that returned.  A callback never cancels a task. *)
Theorem failed_starts_are_disconnected (calls : list server.callback_call)
    (st : server.state) :
  Forall uncancelled calls ->
  fst (server.run_callbacks calls st) = Return tt
  /\ server.disconnected (snd (server.run_callbacks calls st))
     = server.disconnected st ++ map pc_id (List.filter start_failed calls)
  /\ server.created (snd (server.run_callbacks calls st))
     = server.created st + length (List.filter task_created calls)
  /\ server.cancelled (snd (server.run_callbacks calls st)) = server.cancelled st.
Proof.
  intros Hall.
  destruct (run_callbacks_effect calls st) as (_ & Hx & _ & Hacc).
  destruct (Hacc Hall) as (Hr & Hd & Hc). done.
Qed.

Lemma failed_starts_are_disconnected_witness :
  server.disconnected
    (snd (server.run_callbacks
            [("call-1", None, None, None);
             ("call-2", Some (RemoteException "RuntimeError"), None,
              Some (RemoteException "ConnectionError"));
             ("call-3", None, Some (RemoteException "RuntimeError"), None)]
            server.imported))
  = [] ++ ["call-2"; "call-3"].
Proof.
  apply (failed_starts_are_disconnected
           [("call-1", None, None, None);
            ("call-2", Some (RemoteException "RuntimeError"), None,
             Some (RemoteException "ConnectionError"));
            ("call-3", None, Some (RemoteException "RuntimeError"), None)]
           server.imported).
  repeat constructor.
Defined.

(** ** [run_bot] of bot.py *)

Section RunBot.
Context {rt : Runtime}.
Import bot_call.

Lemma logger_session_state (l : level) (t : log_text) (w : world) :
  session_state (snd (logger l t w)) = session_state w.
Proof. done. Qed.

Lemma _handle_message_session_state (m : message) (w : world) :
  session_state (snd (bot.HumeEVIHandler._handle_message m w)) = session_state w.
Proof.
  destruct (_handle_message_queue m w) as [(Hs & Hr & Ho & _ & Hc & _) _].
  unfold session_state. by rewrite Hs, Hr, Ho, Hc.
Qed.

Lemma send_audio_session_state (audio : bytes) (answer : option exn) (w : world) :
  session_state (snd (bot.HumeEVIHandler.send_audio audio answer w))
  = session_state w.
Proof.
  destruct (send_audio_effect audio answer w) as (Hs & Ho & Hc & _).
  unfold session_state. by rewrite Hs, Ho, Hc.
Qed.

Lemma pump_step_session_state (answer : option exn) (pc : pump_pc) (w : world) :
  session_state (snd (bot.pump_step answer pc w)) = session_state w.
Proof.
  pose proof (resume_pump_effect answer pc w) as (Hs & Hr & Ho & Hc & _).
  cbn [step] in *. unfold session_state.
  destruct (bot.pump_step answer pc w) as [[pc'|e] w1]; cbn [fst snd] in *;
    by rewrite Hs, Hr, Ho, Hc.
Qed.

Lemma call_step_session_state (ev : call_event) (t : tasks) :
  session_state (bridge_world (call_of (call_step ev t)))
  = session_state (bridge_world (call_of t)).
Proof.
  destruct ev as [|m|fin| |audio answer|fin|answer|]; cbn [call_step].
  - destruct (hume_messages t); try done.
    by destruct (socket (self (bridge_world (call_of t)))).
  - destruct (hume_messages t); try done.
    pose proof (_handle_message_session_state m (bridge_world (call_of t))) as H.
    destruct (bot.HumeEVIHandler._handle_message m (bridge_world (call_of t)))
      as [[[]|e] w1]; cbn [snd] in H.
    + by destruct (negb (_running (self w1))).
    + by destruct e.
  - destruct (hume_messages t); try done. by destruct fin as [|[]].
  - by destruct (wa_to_hume t).
  - destruct (wa_to_hume t); try done. destruct (truthy audio); [|done].
    pose proof (send_audio_session_state (default [] audio) answer
                  (bridge_world (call_of t))) as H.
    destruct (bot.HumeEVIHandler.send_audio (default [] audio) answer
                (bridge_world (call_of t))) as [[[]|e] w1]; cbn [snd] in H.
    + done.
    + by destruct e.
  - destruct (wa_to_hume t); try done. by destruct fin as [|[]].
  - pose proof (pump_step_session_state answer (hume_to_wa t)
                  (bridge_world (call_of t))) as H.
    by destruct (bot.pump_step answer (hume_to_wa t) (bridge_world (call_of t)))
      as [[pc'|e] w1].
  - done.
Qed.

Lemma run_tasks_session_state (evs : list call_event) (t : tasks) :
  session_state (bridge_world (call_of (run_tasks evs t)))
  = session_state (bridge_world (call_of t)).
Proof.
  revert t. induction evs as [|ev evs IH]; intros t; [done|].
  unfold run_tasks. cbn [foldl]. fold (run_tasks evs (call_step ev t)).
  by rewrite IH, call_step_session_state.
Qed.

End RunBot.

Section RunBotLifecycle.
Context {rt : Runtime}.

Lemma except_finally_handler (aexit : option exn) (r : outcome unit)
    (cs : call_state) :
  closed (bridge_world (snd (except_finally bot.HumeEVIHandler.disconnect aexit r cs)))
  = closed (bridge_world cs)
    ++ match socket (self (bridge_world cs)) with Some h => [h] | None => [] end
  /\ opened (bridge_world (snd (except_finally bot.HumeEVIHandler.disconnect aexit r cs)))
     = opened (bridge_world cs)
  /\ _running
       (self (bridge_world
                (snd (except_finally bot.HumeEVIHandler.disconnect aexit r cs))))
     = false
  /\ fst (except_finally bot.HumeEVIHandler.disconnect aexit r cs)
     = match socket (self (bridge_world cs)), aexit with
       | Some _, Some CancelledError => Raise CancelledError
       | _, _ => caught r
       end.
Proof.
  unfold except_finally.
  set (p := match r with
            | Return _ => (Return tt, cs)
            | Raise e =>
                if is_Exception e then (Return tt, note ERROR (BotError e) cs)
                else (Raise e, cs)
            end).
  assert (Hp : fst p = caught r /\ bridge_world (snd p) = bridge_world cs).
  { subst p. destruct r as [[]|e]; [done|]. cbn. by destruct (is_Exception e). }
  destruct p as [r1 cs1]. cbn [fst snd] in Hp. destruct Hp as [-> Hw].
  destruct (disconnect_effect aexit (bridge_world cs1))
    as (Hc & Hr & _ & _ & Ho & _ & _ & Hret).
  rewrite <- Hw.
  destruct (bot.HumeEVIHandler.disconnect aexit (bridge_world cs1)) as [r2 w2].
  cbn [fst snd] in *. subst r2.
  destruct (socket (self (bridge_world cs1))) as [h|]; [destruct aexit as [[]|]|];
    cbn; done.
Qed.

Lemma except_finally_bot (aexit : option exn) (r : outcome unit)
    (cs : call_state) :
  closed (bridge_world
            (snd (except_finally bot_hume_evi.HumeEVIBot.disconnect aexit r cs)))
  = closed (bridge_world cs)
    ++ match socket (self (bridge_world cs)) with Some h => [h] | None => [] end
  /\ _running
       (self (bridge_world
                (snd (except_finally bot_hume_evi.HumeEVIBot.disconnect aexit r cs))))
     = false
  /\ fst (except_finally bot_hume_evi.HumeEVIBot.disconnect aexit r cs)
     = match socket (self (bridge_world cs)), aexit with
       | Some _, Some e => Raise e
       | _, _ => caught r
       end.
Proof.
  unfold except_finally.
  set (p := match r with
            | Return _ => (Return tt, cs)
            | Raise e =>
                if is_Exception e then (Return tt, note ERROR (BotError e) cs)
                else (Raise e, cs)
            end).
  assert (Hp : fst p = caught r /\ bridge_world (snd p) = bridge_world cs).
  { subst p. destruct r as [[]|e]; [done|]. cbn. by destruct (is_Exception e). }
  destruct p as [r1 cs1]. cbn [fst snd] in Hp. destruct Hp as [-> Hw].
  destruct (bot_disconnect_effect aexit (bridge_world cs1)) as (Hc & Hr & _ & Hret).
  rewrite <- Hw.
  destruct (bot_hume_evi.HumeEVIBot.disconnect aexit (bridge_world cs1)) as [r2 w2].
  cbn [fst snd] in *. subst r2.
  destruct (socket (self (bridge_world cs1))) as [h|]; [destruct aexit as [e|]|];
    cbn; done.
Qed.

End RunBotLifecycle.

Section RunBotCall.
Context {rt : Runtime}.
Import bot_call.

Lemma finish_effect (aexit : option exn) (r : outcome unit) (t : tasks) :
  closed (bridge_world (call_of (snd (finish aexit r t))))
  = closed (bridge_world (call_of t))
    ++ match socket (self (bridge_world (call_of t))) with
       | Some h => [h]
       | None => []
       end
  /\ opened (bridge_world (call_of (snd (finish aexit r t))))
     = opened (bridge_world (call_of t))
  /\ _running (self (bridge_world (call_of (snd (finish aexit r t))))) = false
  /\ fst (finish aexit r t)
     = match socket (self (bridge_world (call_of t))), aexit with
       | Some _, Some CancelledError => Raise CancelledError
       | _, _ => caught r
       end
  /\ hume_messages (snd (finish aexit r t)) = hume_messages t
  /\ wa_to_hume (snd (finish aexit r t)) = wa_to_hume t
  /\ hume_to_wa (snd (finish aexit r t)) = hume_to_wa t.
Proof.
  unfold finish.
  destruct (except_finally_handler aexit r (call_of t)) as (Hc & Ho & Hr & Hret).
  destruct (except_finally bot.HumeEVIHandler.disconnect aexit r (call_of t))
    as [r2 cs2]. cbn [fst snd] in *. cbn. done.
Qed.

(** [call] as the [finish] of a body whose bridge is the one that [connect]
    left, as far as the session goes. *)
Lemma call_finish (handshake : option exn) (during winding_down : list call_event)
    (wait : wait_end) (aexit : option exn) (w : world) :
  exists (r0 : outcome unit) (t0 : tasks),
    call None handshake during wait winding_down aexit w = finish aexit r0 t0
    /\ session_state (bridge_world (call_of t0))
       = match handshake with
         | Some _ => (None, false, opened w, closed w)
         | None => (Some (opened w), true, S (opened w), closed w)
         end
    /\ r0 = match handshake, wait with
            | Some e, _ => Raise e
            | None, returned => Return tt
            | None, surfaced e => Raise e
            end
    /\ (handshake = None -> wait = returned ->
        hume_messages t0 = TaskDone /\ wa_to_hume t0 = TaskDone
        /\ hume_to_wa t0 = PumpDone).
Proof.
  unfold call. cbn [call_of bridge_world].
  destruct (connect_effect handshake (with_self (fun _ => __init__) w))
    as (Hcase & _ & Hc & _).
  destruct (bot.HumeEVIHandler.connect handshake (with_self (fun _ => __init__) w))
    as [r1 w1]. cbn [fst snd] in *.
  destruct handshake as [e0|].
  - destruct Hcase as (-> & Hself & Ho).
    eexists _, _. split; [reflexivity|]. split; [|done].
    unfold session_state. cbn. by rewrite Hself, Ho, Hc.
  - destruct Hcase as (-> & Hs & Ho & Hr).
    assert (Hw1 : session_state w1 = (Some (opened w), true, S (opened w), closed w)).
    { unfold session_state. by rewrite Hs, Hr, Ho, Hc. }
    destruct wait as [|e1].
    + eexists _, _. split; [reflexivity|]. split; [|done].
      cbn [cancel_tasks call_of].
      rewrite run_tasks_session_state. cbn [call_of note bridge_world].
      by rewrite run_tasks_session_state.
    + eexists _, _. split; [reflexivity|]. split; [|done].
      by rewrite run_tasks_session_state.
Qed.

End RunBotCall.

(** X14: [run_bot] of bot.py closes what it opens, on every path.  Once the
    transport exists, whether the handshake succeeds or fails, whatever the
    tasks do, whether the caller hangs up or [run_bot] is cancelled while it
    waits, and whatever [__aexit__] answers: [disconnect] has run when
    [run_bot] ends, the running flag is down, and the session opened by this
    call, if any, has been closed exactly once and no other.  [run_bot]
    raises nothing but a cancellation; it returns normally when nothing was
    cancelled.  After a hang-up, once the tasks have been cancelled and
    awaited, the three of them have ended.  When the transport cannot be
    created, [run_bot] raises and nothing is opened or closed. *)
Theorem run_bot_closes_what_it_opens {rt : Runtime} (handshake : option exn)
    (during winding_down : list bot_call.call_event) (wait : wait_end)
    (aexit : option exn) (w : world) :
  opened (bridge_world
            (bot_call.call_of
               (snd (bot_call.call None handshake during wait winding_down aexit w))))
  = match handshake with Some _ => opened w | None => S (opened w) end
  /\ closed (bridge_world
               (bot_call.call_of
                  (snd (bot_call.call None handshake during wait winding_down
                          aexit w))))
     = closed w ++ match handshake with Some _ => [] | None => [opened w] end
  /\ _running
       (self (bridge_world
                (bot_call.call_of
                   (snd (bot_call.call None handshake during wait winding_down
                           aexit w)))))
     = false
  /\ (fst (bot_call.call None handshake during wait winding_down aexit w)
      = Return tt
      \/ fst (bot_call.call None handshake during wait winding_down aexit w)
         = Raise CancelledError)
  /\ (ordinary handshake -> ordinary aexit -> wait <> surfaced CancelledError ->
      fst (bot_call.call None handshake during wait winding_down aexit w)
      = Return tt)
  /\ (handshake = None -> wait = returned ->
      bot_call.hume_messages
        (snd (bot_call.call None handshake during wait winding_down aexit w))
      = TaskDone
      /\ bot_call.wa_to_hume
           (snd (bot_call.call None handshake during wait winding_down aexit w))
         = TaskDone
      /\ bot_call.hume_to_wa
           (snd (bot_call.call None handshake during wait winding_down aexit w))
         = PumpDone)
  /\ forall e : exn,
       fst (bot_call.call (Some e) handshake during wait winding_down aexit w)
       = Raise e
       /\ opened (bridge_world
                    (bot_call.call_of
                       (snd (bot_call.call (Some e) handshake during wait
                               winding_down aexit w))))
          = opened w
       /\ closed (bridge_world
                    (bot_call.call_of
                       (snd (bot_call.call (Some e) handshake during wait
                               winding_down aexit w))))
          = closed w.
Proof.
  destruct (call_finish handshake during winding_down wait aexit w)
    as (r0 & t0 & -> & Hsess & -> & Hdone).
  destruct (finish_effect aexit
              match handshake, wait with
              | Some e, _ => Raise e
              | None, returned => Return tt
              | None, surfaced e => Raise e
              end t0) as (Hc & Ho & Hr & Hret & Hm & Hf & Hp).
  unfold session_state in Hsess.
  rewrite Hc, Ho, Hr, Hret, Hm, Hf, Hp.
  split; [|split; [|split; [done|split; [|split; [|split; [|done]]]]]].
  - destruct handshake; by injection Hsess as _ _ -> _.
  - destruct handshake; injection Hsess as -> _ _ ->; [by rewrite app_nil_r | done].
  - destruct handshake as [[]|]; injection Hsess as -> _ _ _; cbn;
      try (by left); try (by right);
      destruct aexit as [[]|], wait as [|[]]; cbn; try (by left); by right.
  - intros Hh Ha Hw.
    destruct handshake as [[]|]; injection Hsess as -> _ _ _; cbn; try done;
      destruct aexit as [[]|], wait as [|[]]; cbn; done.
  - exact Hdone.
Qed.

Lemma run_bot_closes_what_it_opens_witness :
  fst (bot_call.call None None
         [bot_call.messages_start; bot_call.pump_resumed None;
          bot_call.got_message (audio_output (Some "aGk="))]
         (surfaced (RemoteException "RuntimeError")) []
         (Some (RemoteException "AttributeError")) fresh_world)
  = Return tt
  /\ bot_call.hume_to_wa
       (snd (bot_call.call None None
               [bot_call.messages_start; bot_call.pump_resumed None;
                bot_call.got_message (audio_output (Some "aGk="))]
               returned [bot_call.pump_resumed None] None fresh_world))
     = PumpDone.
Proof.
  split.
  - apply (run_bot_closes_what_it_opens None
             [bot_call.messages_start; bot_call.pump_resumed None;
              bot_call.got_message (audio_output (Some "aGk="))]
             [] (surfaced (RemoteException "RuntimeError"))
             (Some (RemoteException "AttributeError")) fresh_world);
      [exact I | reflexivity | discriminate].
  - apply (run_bot_closes_what_it_opens None
             [bot_call.messages_start; bot_call.pump_resumed None;
              bot_call.got_message (audio_output (Some "aGk="))]
             [bot_call.pump_resumed None] returned None fresh_world);
      reflexivity.
Defined.

(** ** [run_bot] of bot_hume_evi.py *)

Section GatheredCall.
Context {rt : Runtime}.
Import bot_hume_evi_call.

Lemma bot_handle_message_traffic (m : message) (w : world) :
  traffic (snd (bot_hume_evi.HumeEVIBot._handle_message m w)) = traffic w.
Proof.
  destruct m as [id|content [[|p scores]|]|content|[[|c data]|]| |code msg|ty];
    cbn; unfold_py; cbn; try done.
  by destruct (b64decode (String c data)).
Qed.

Lemma bot_get_audio_output_traffic (w : world) :
  traffic (snd (bot_hume_evi.HumeEVIBot.get_audio_output w)) = traffic w.
Proof.
  unfold bot_hume_evi.HumeEVIBot.get_audio_output. unfold_py.
  by destruct (_output_queue (self w)).
Qed.

Lemma messages_stopped_traffic (e : option exn) (g : gathered) :
  traffic (bridge_world (call_of (messages_stopped e g)))
  = traffic (bridge_world (call_of g)).
Proof. destruct e as [e|]; [|done]. cbn. by destruct (is_Exception e). Qed.

Lemma call_step_traffic (ev : call_event) (g : gathered) :
  traffic (bridge_world (call_of (call_step ev g)))
  = traffic (bridge_world (call_of g)).
Proof.
  destruct ev as [|m|fin|has_pc resume|resume]; cbn [call_step].
  - destruct (messages g); try done.
    destruct (socket (self (bridge_world (call_of g)))); [done|].
    by rewrite messages_stopped_traffic.
  - destruct (messages g); try done.
    pose proof (bot_handle_message_traffic m (bridge_world (call_of g))) as H.
    destruct (bot_hume_evi.HumeEVIBot._handle_message m (bridge_world (call_of g)))
      as [[[]|e] w1]; cbn [snd] in H.
    + destruct (negb (_running (self w1))); [|done].
      by rewrite messages_stopped_traffic.
    + by rewrite messages_stopped_traffic.
  - destruct (messages g); try done.
    destruct fin as [|e]; by rewrite messages_stopped_traffic.
  - unfold _forward_webrtc_to_hume. destruct (inbound g); try done.
    + by destruct has_pc.
    + by destruct (_running (self (bridge_world (call_of g)))).
    + by destruct resume as [[]|].
  - unfold _forward_hume_to_webrtc. destruct (outbound g); try done.
    + by destruct (_running (self (bridge_world (call_of g)))).
    + destruct resume as [[]|]; try done.
      cbn. apply bot_get_audio_output_traffic.
Qed.

Lemma gather_cons (ev : call_event) (evs : list call_event) (g : gathered) :
  gather (ev :: evs) g = gather evs (call_step ev g).
Proof. done. Qed.

Lemma gather_traffic (evs : list call_event) (g : gathered) :
  traffic (bridge_world (call_of (gather evs g)))
  = traffic (bridge_world (call_of g)).
Proof.
  revert g. induction evs as [|ev evs IH]; intros g; [done|].
  by rewrite gather_cons, IH, call_step_traffic.
Qed.

Lemma bot_connect_effect (handshake : option exn) (w : world) :
  match handshake with
  | None =>
      fst (bot_hume_evi.HumeEVIBot.connect handshake w) = Return tt
      /\ session_state (snd (bot_hume_evi.HumeEVIBot.connect handshake w))
         = (Some (opened w), true, S (opened w), closed w)
  | Some e =>
      fst (bot_hume_evi.HumeEVIBot.connect handshake w) = Raise e
      /\ session_state (snd (bot_hume_evi.HumeEVIBot.connect handshake w))
         = session_state w
  end
  /\ published (snd (bot_hume_evi.HumeEVIBot.connect handshake w)) = published w
  /\ sent (snd (bot_hume_evi.HumeEVIBot.connect handshake w)) = sent w.
Proof.
  unfold bot_hume_evi.HumeEVIBot.connect. destruct_world w. unfold_py.
  destruct handshake; simpl; done.
Qed.

Lemma bot_finish_effect (aexit : option exn) (r : outcome unit) (g : gathered) :
  closed (bridge_world (call_of (snd (finish aexit r g))))
  = closed (bridge_world (call_of g))
    ++ match socket (self (bridge_world (call_of g))) with
       | Some h => [h]
       | None => []
       end
  /\ _running (self (bridge_world (call_of (snd (finish aexit r g))))) = false
  /\ fst (finish aexit r g)
     = match socket (self (bridge_world (call_of g))), aexit with
       | Some _, Some e => Raise e
       | _, _ => caught r
       end
  /\ messages (snd (finish aexit r g)) = messages g
  /\ inbound (snd (finish aexit r g)) = inbound g
  /\ outbound (snd (finish aexit r g)) = outbound g.
Proof.
  unfold finish.
  destruct (except_finally_bot aexit r (call_of g)) as (Hc & Hr & Hret).
  destruct (except_finally bot_hume_evi.HumeEVIBot.disconnect aexit r (call_of g))
    as [r2 cs2]. cbn [fst snd] in *. cbn. done.
Qed.

End GatheredCall.

Section GatheredLifecycle.
Context {rt : Runtime}.
Import bot_hume_evi_call.

Lemma bot_disconnect_silent (aexit : option exn) (w : world) :
  published (snd (bot_hume_evi.HumeEVIBot.disconnect aexit w)) = published w
  /\ sent (snd (bot_hume_evi.HumeEVIBot.disconnect aexit w)) = sent w
  /\ opened (snd (bot_hume_evi.HumeEVIBot.disconnect aexit w)) = opened w.
Proof.
  unfold bot_hume_evi.HumeEVIBot.disconnect. destruct_world w. unfold_py. simpl.
  destruct socket0 as [h|]; simpl; [|done].
  destruct aexit as [e|]; simpl; done.
Qed.

Lemma bot_finish_silent (aexit : option exn) (r : outcome unit) (g : gathered) :
  published (bridge_world (call_of (snd (finish aexit r g))))
  = published (bridge_world (call_of g))
  /\ sent (bridge_world (call_of (snd (finish aexit r g))))
     = sent (bridge_world (call_of g))
  /\ opened (bridge_world (call_of (snd (finish aexit r g))))
     = opened (bridge_world (call_of g)).
Proof.
  unfold finish, except_finally.
  set (p := match r with
            | Return _ => (Return tt, call_of g)
            | Raise e =>
                if is_Exception e
                then (Return tt, note ERROR (BotError e) (call_of g))
                else (Raise e, call_of g)
            end).
  assert (Hp : bridge_world (snd p) = bridge_world (call_of g)).
  { subst p. destruct r as [[]|e]; [done|]. cbn. by destruct (is_Exception e). }
  destruct p as [r1 cs1]. cbn [fst snd] in Hp.
  destruct (bot_disconnect_silent aexit (bridge_world cs1)) as (Hp1 & Hs1 & Ho1).
  rewrite <- Hp.
  destruct (bot_hume_evi.HumeEVIBot.disconnect aexit (bridge_world cs1))
    as [[[]|e] w2]; cbn [fst snd] in *; cbn; done.
Qed.

(** [call] as the [finish] of a body whose bridge has the traffic that
    [connect] left. *)
Lemma bot_call_finish (handshake : option exn) (during : list call_event)
    (wait : wait_end) (aexit : option exn) (w : world) :
  exists (r0 : outcome unit) (g0 : gathered),
    call handshake during wait aexit w = finish aexit r0 g0
    /\ traffic (bridge_world (call_of g0))
       = (match handshake with
          | Some _ => (None, false, opened w, closed w)
          | None => (Some (opened w), true, S (opened w), closed w)
          end, published w, sent w)
    /\ r0 = match handshake, wait with
            | Some e, _ => Raise e
            | None, returned => Return tt
            | None, surfaced e => Raise e
            end.
Proof.
  unfold call. cbn [call_of bridge_world].
  destruct (bot_connect_effect handshake (with_self (fun _ => __init__) w))
    as (Hcase & Hp & Hs).
  destruct (bot_hume_evi.HumeEVIBot.connect handshake
              (with_self (fun _ => __init__) w)) as [r1 w1].
  cbn [fst snd] in *.
  destruct handshake as [e0|].
  - destruct Hcase as (-> & Hsess).
    eexists _, _. split; [reflexivity|]. split; [|done].
    unfold traffic. cbn. by rewrite Hsess, Hp, Hs.
  - destruct Hcase as (-> & Hsess).
    eexists _, _. split; [reflexivity|]. split; [|by destruct wait].
    rewrite gather_traffic. unfold traffic. cbn. by rewrite Hsess, Hp, Hs.
Qed.

Lemma messages_stopped_pumps (e : option exn) (g : gathered) :
  inbound (messages_stopped e g) = inbound g
  /\ outbound (messages_stopped e g) = outbound g.
Proof. destruct e as [e|]; [|done]. cbn. by destruct (is_Exception e). Qed.

(** While the flag is up, a pump that is resumed without an exception does
    not return. *)
Lemma call_step_pumps_alive (ev : call_event) (g : gathered) :
  undisturbed ev -> with_peer ev ->
  _running (self (bridge_world (call_of g))) = true ->
  inbound g <> InDone -> outbound g <> PumpDone ->
  inbound (call_step ev g) <> InDone /\ outbound (call_step ev g) <> PumpDone.
Proof.
  intros Hu Hp Hr Hi Ho.
  destruct ev as [|m|fin|has_pc resume|resume]; cbn [call_step].
  - destruct (messages g); try done.
    destruct (socket (self (bridge_world (call_of g)))); [done|].
    by destruct (messages_stopped_pumps (Some TypeError)
                   (on_world (fun w => snd (logger INFO ProcessorStarting w)) g))
      as [-> ->].
  - destruct (messages g); try done.
    destruct (bot_hume_evi.HumeEVIBot._handle_message m (bridge_world (call_of g)))
      as [[[]|e] w1].
    + destruct (negb (_running (self w1))); [|done].
      by destruct (messages_stopped_pumps None (on_world (fun _ => w1) g))
        as [-> ->].
    + by destruct (messages_stopped_pumps (Some e) (on_world (fun _ => w1) g))
        as [-> ->].
  - destruct (messages g); try done.
    destruct fin as [|e].
    + by destruct (messages_stopped_pumps None g) as [-> ->].
    + by destruct (messages_stopped_pumps (Some e) g) as [-> ->].
  - unfold _forward_webrtc_to_hume.
    destruct (inbound g) eqn:Hpc; try done.
    + destruct has_pc; [done|]. by cbn in Hp.
    + by rewrite Hr.
    + destruct resume as [e|]; [by cbn in Hu; destruct has_pc | done].
  - unfold _forward_hume_to_webrtc.
    destruct (outbound g) eqn:Hpc; try done.
    + by rewrite Hr.
    + destruct resume as [e|]; [by cbn in Hu | done].
Qed.

Lemma call_step_running (ev : call_event) (g : gathered) :
  _running (self (bridge_world (call_of (call_step ev g))))
  = _running (self (bridge_world (call_of g))).
Proof.
  pose proof (call_step_traffic ev g) as H. unfold traffic, session_state in H.
  congruence.
Qed.

End GatheredLifecycle.

(** X15: [run_bot] of bot_hume_evi.py carries no audio in either direction.
    Whatever the three coroutines given to [asyncio.gather] do, however the
    handshake, the wait and the closing of the session end, nothing has been
    published to Hume and nothing has been sent to the caller when [run_bot]
    ends, and the coroutines leave the session as [connect] made it.  The
    outbound pump still takes the chunks off the queue: a chunk it gets is
    dropped. *)
Theorem webrtc_bridge_forwards_nothing {rt : Runtime} (handshake : option exn)
    (during : list bot_hume_evi_call.call_event) (wait : wait_end)
    (aexit : option exn) (w : world) :
  published
    (bridge_world
       (bot_hume_evi_call.call_of
          (snd (bot_hume_evi_call.call handshake during wait aexit w))))
  = published w
  /\ sent
       (bridge_world
          (bot_hume_evi_call.call_of
             (snd (bot_hume_evi_call.call handshake during wait aexit w))))
     = sent w
  /\ (forall g : bot_hume_evi_call.gathered,
        traffic
          (bridge_world
             (bot_hume_evi_call.call_of (bot_hume_evi_call.gather during g)))
        = traffic (bridge_world (bot_hume_evi_call.call_of g)))
  /\ forall g : bot_hume_evi_call.gathered,
       _output_queue
         (self
            (bridge_world
               (bot_hume_evi_call.call_of
                  (bot_hume_evi_call._forward_hume_to_webrtc None
                     (bot_hume_evi_call.set_outbound PumpAwaitGet g)))))
       = tail (_output_queue (self (bridge_world (bot_hume_evi_call.call_of g)))).
Proof.
  destruct (bot_call_finish handshake during wait aexit w)
    as (r0 & g0 & -> & Htr & _).
  destruct (bot_finish_silent aexit r0 g0) as (-> & -> & _).
  unfold traffic in Htr.
  split; [congruence|]. split; [congruence|].
  split; [intros g; apply gather_traffic|].
  intros g. unfold bot_hume_evi_call._forward_hume_to_webrtc. cbn.
  unfold bot_hume_evi.HumeEVIBot.get_audio_output. unfold_py.
  destruct (_output_queue (self (bridge_world (bot_hume_evi_call.call_of g))))
    eqn:Hq; cbn; [by rewrite Hq | done].
Qed.

(** X16: the [asyncio.gather] of bot_hume_evi.py does not end by itself.
    While the running flag is up, as it is from [connect] to [disconnect],
    and as long as the connection has its peer connection and nothing is
    cancelled, neither pump returns, whatever Hume sends and even after the
    stream of events has ended; the flag stays up, since no coroutine
    changes it. *)
Theorem gather_does_not_end_by_itself {rt : Runtime}
    (during : list bot_hume_evi_call.call_event)
    (g : bot_hume_evi_call.gathered) :
  _running (self (bridge_world (bot_hume_evi_call.call_of g))) = true ->
  Forall bot_hume_evi_call.undisturbed during ->
  Forall bot_hume_evi_call.with_peer during ->
  bot_hume_evi_call.inbound g <> bot_hume_evi_call.InDone ->
  bot_hume_evi_call.outbound g <> PumpDone ->
  bot_hume_evi_call.inbound (bot_hume_evi_call.gather during g)
  <> bot_hume_evi_call.InDone
  /\ bot_hume_evi_call.outbound (bot_hume_evi_call.gather during g) <> PumpDone
  /\ _running
       (self
          (bridge_world
             (bot_hume_evi_call.call_of (bot_hume_evi_call.gather during g))))
     = true.
Proof.
  revert g. induction during as [|ev evs IH]; intros g Hr Hu Hp Hi Ho; [done|].
  rewrite gather_cons.
  apply Forall_cons in Hu as [Hu Hus]. apply Forall_cons in Hp as [Hp Hps].
  destruct (call_step_pumps_alive ev g Hu Hp Hr Hi Ho) as [Hi' Ho'].
  apply IH; try done. by rewrite call_step_running.
Qed.

Lemma gather_does_not_end_by_itself_witness :
  bot_hume_evi_call.messages
    (bot_hume_evi_call.gather
       [bot_hume_evi_call.messages_start;
        bot_hume_evi_call.resume_inbound true None;
        bot_hume_evi_call.resume_outbound None;
        bot_hume_evi_call.got_message (audio_output (Some "aGk="));
        bot_hume_evi_call.messages_end exhausted;
        bot_hume_evi_call.resume_outbound None;
        bot_hume_evi_call.resume_outbound None;
        bot_hume_evi_call.resume_inbound true None]
       {| bot_hume_evi_call.call_of :=
            {| bridge_world := connected_world; call_log := [] |};
          bot_hume_evi_call.messages := TaskStart;
          bot_hume_evi_call.inbound := bot_hume_evi_call.InStart;
          bot_hume_evi_call.outbound := PumpStart |})
  = TaskDone
  /\ bot_hume_evi_call.inbound
       (bot_hume_evi_call.gather
          [bot_hume_evi_call.messages_start;
           bot_hume_evi_call.resume_inbound true None;
           bot_hume_evi_call.resume_outbound None;
           bot_hume_evi_call.got_message (audio_output (Some "aGk="));
           bot_hume_evi_call.messages_end exhausted;
           bot_hume_evi_call.resume_outbound None;
           bot_hume_evi_call.resume_outbound None;
           bot_hume_evi_call.resume_inbound true None]
          {| bot_hume_evi_call.call_of :=
               {| bridge_world := connected_world; call_log := [] |};
             bot_hume_evi_call.messages := TaskStart;
             bot_hume_evi_call.inbound := bot_hume_evi_call.InStart;
             bot_hume_evi_call.outbound := PumpStart |})
     <> bot_hume_evi_call.InDone.
Proof.
  split; [reflexivity|].
  apply (gather_does_not_end_by_itself
           [bot_hume_evi_call.messages_start;
            bot_hume_evi_call.resume_inbound true None;
            bot_hume_evi_call.resume_outbound None;
            bot_hume_evi_call.got_message (audio_output (Some "aGk="));
            bot_hume_evi_call.messages_end exhausted;
            bot_hume_evi_call.resume_outbound None;
            bot_hume_evi_call.resume_outbound None;
            bot_hume_evi_call.resume_inbound true None]
           {| bot_hume_evi_call.call_of :=
                {| bridge_world := connected_world; call_log := [] |};
              bot_hume_evi_call.messages := TaskStart;
              bot_hume_evi_call.inbound := bot_hume_evi_call.InStart;
              bot_hume_evi_call.outbound := PumpStart |}).
  - reflexivity.
  - repeat constructor.
  - repeat constructor.
  - discriminate.
  - discriminate.
Defined.

(** X17: [run_bot] of bot_hume_evi.py disconnects on every path: when it
    ends the running flag is down and the session opened by this call, if
    the handshake succeeded, has been closed once and no other.  Unlike
    bot.py, a failure to close the session is not contained: when the
    handshake succeeded and [__aexit__] raises, [run_bot] raises that
    exception, whatever happened before.  When closing does not fail and
    nothing was cancelled, [run_bot] returns normally. *)
Theorem webrtc_run_bot_disconnects {rt : Runtime} (handshake : option exn)
    (during : list bot_hume_evi_call.call_event) (wait : wait_end)
    (aexit : option exn) (w : world) :
  opened
    (bridge_world
       (bot_hume_evi_call.call_of
          (snd (bot_hume_evi_call.call handshake during wait aexit w))))
  = match handshake with Some _ => opened w | None => S (opened w) end
  /\ closed
       (bridge_world
          (bot_hume_evi_call.call_of
             (snd (bot_hume_evi_call.call handshake during wait aexit w))))
     = closed w ++ match handshake with Some _ => [] | None => [opened w] end
  /\ _running
       (self
          (bridge_world
             (bot_hume_evi_call.call_of
                (snd (bot_hume_evi_call.call handshake during wait aexit w)))))
     = false
  /\ (forall e : exn,
        handshake = None -> aexit = Some e ->
        fst (bot_hume_evi_call.call handshake during wait aexit w) = Raise e)
  /\ (ordinary handshake -> wait <> surfaced CancelledError ->
      (handshake = None -> aexit = None) ->
      fst (bot_hume_evi_call.call handshake during wait aexit w) = Return tt).
Proof.
  destruct (bot_call_finish handshake during wait aexit w)
    as (r0 & g0 & -> & Htr & ->).
  destruct (bot_finish_effect aexit
              match handshake, wait with
              | Some e, _ => Raise e
              | None, returned => Return tt
              | None, surfaced e => Raise e
              end g0) as (Hc & Hr & Hret & _).
  destruct (bot_finish_silent aexit
              match handshake, wait with
              | Some e, _ => Raise e
              | None, returned => Return tt
              | None, surfaced e => Raise e
              end g0) as (_ & _ & Ho).
  unfold traffic, session_state in Htr.
  rewrite Hc, Ho, Hr, Hret.
  split; [|split; [|split; [done|split]]].
  - destruct handshake; by injection Htr as _ _ -> _ _ _.
  - destruct handshake; injection Htr as -> _ _ -> _ _;
      [by rewrite app_nil_r | done].
  - intros e -> ->. by injection Htr as -> _ _ _ _ _.
  - intros Hh Hw Ha.
    destruct handshake as [[]|]; injection Htr as -> _ _ _ _ _; cbn; try done.
    rewrite (Ha eq_refl). by destruct wait as [|[]].
Qed.

Lemma webrtc_run_bot_disconnects_witness :
  fst (bot_hume_evi_call.call None
         [bot_hume_evi_call.messages_start;
          bot_hume_evi_call.got_message (audio_output (Some "aGk="))]
         returned (Some (RemoteException "ConnectionClosed")) fresh_world)
  = Raise (RemoteException "ConnectionClosed")
  /\ fst (bot_hume_evi_call.call (Some (RemoteException "ApiError"))
            [] returned None fresh_world)
     = Return tt.
Proof.
  split.
  - apply (webrtc_run_bot_disconnects None
             [bot_hume_evi_call.messages_start;
              bot_hume_evi_call.got_message (audio_output (Some "aGk="))]
             returned (Some (RemoteException "ConnectionClosed")) fresh_world);
      reflexivity.
  - apply (webrtc_run_bot_disconnects (Some (RemoteException "ApiError"))
             [] returned None fresh_world);
      [reflexivity | discriminate | discriminate].
Defined.
